(** * rocBLAS gbmv kernels and the asum entry point: a shallow embedding

    Sources embedded here:
    - [library/src/blas2/rocblas_gbmv_kernels.cpp]: the two diagonal
      traversal helpers, the tile computation [rocblas_gbmvx_kernel_calc],
      the kernel [rocblas_gbmvx_kernel], [rocblas_internal_gbmv_launcher]
      and [rocblas_gbmv_check_numerics];
    - the asum entry point [rocblas_asum_impl];
    - [clients/gtest/blas2/hbmv_gtest.cpp]: the function filter, the test
      name suffix and the dispatcher of the hbmv test suites;
    - [clients/include/blas1/testing_asum_strided_batched.hpp]: the timing
      section of [testing_asum_strided_batched].

    Conventions.  [rocblas_int], [int64_t], [rocblas_stride] and [size_t]
    values are integers of [Z]; signed overflow is undefined in C++, so the
    embedding describes the calls whose index arithmetic stays in range.
    Where the source converts between unsigned and signed 32-bit values
    in [dim3] and [num_threads] the wrap-around is written out.  The
    output index [ind] and the thread number [thread_id] of the tile
    computation, which the source computes from [blockIdx] and
    [threadIdx] in [uint32_t] and keeps in a [rocblas_int], are computed
    in [Z]: the same value as long as it is below [2 ^ 31], which is so
    for every index put to use in a launch the launcher makes for sizes
    [0 <= m, n < 2 ^ 31] ([launcher_index_fits_int]).  The statements
    that depend on these indices keep to that range.
    The element type [T] of the templates is the carrier of the class
    [Scalar]; nothing is assumed of its operations unless a statement asks
    for [ScalarLaws] (exact arithmetic). *)

From Stdlib Require Import ZArith List Bool Lia Permutation.
From Stdlib Require String Ascii.
Import ListNotations.
Local Open Scope Z_scope.

(** ** Scalars: the template parameter [T] *)

Class Scalar : Type := {
  T : Type;
  zero : T;                 (* T(0) *)
  one : T;                  (* T(1) *)
  add : T -> T -> T;        (* operator+ *)
  mul : T -> T -> T;        (* operator* *)
  conj : T -> T;            (* conj(); the identity on real types *)
  eqb : T -> T -> bool      (* operator== *)
}.

(** [if(alpha)] and [!alpha]: conversion of a scalar to [bool]. *)
Definition truthy `{Scalar} (a : T) : bool := negb (eqb a zero).

(** Exact arithmetic: what the correctness statement of the product needs. *)
Class ScalarLaws (S : Scalar) : Prop := {
  add_comm : forall a b : T, add a b = add b a;
  add_assoc : forall a b c : T, add a (add b c) = add (add a b) c;
  add_zero_l : forall a : T, add zero a = a;
  mul_zero_l : forall a : T, mul zero a = zero;
  mul_one_l : forall a : T, mul one a = a;
  eqb_eq : forall a b : T, eqb a b = true <-> a = b
}.

(** Integers, a real type: [conj] is the identity. *)
#[export] Instance Z_scalar : Scalar :=
  {| T := Z; zero := 0; one := 1; add := Z.add; mul := Z.mul;
     conj := fun a => a; eqb := Z.eqb |}.


(** ** Status codes, operations, handle *)

Inductive rocblas_status :=
| rocblas_status_success
| rocblas_status_invalid_handle
| rocblas_status_invalid_pointer
| rocblas_status_invalid_size
| rocblas_status_memory_error
| rocblas_status_internal_error
| rocblas_status_size_unchanged
| rocblas_status_size_increased
| rocblas_status_invalid_value
| rocblas_status_continue
| rocblas_status_check_numerics_fail.

Definition rocblas_status_eqb (a b : rocblas_status) : bool :=
  match a, b with
  | rocblas_status_success, rocblas_status_success
  | rocblas_status_invalid_handle, rocblas_status_invalid_handle
  | rocblas_status_invalid_pointer, rocblas_status_invalid_pointer
  | rocblas_status_invalid_size, rocblas_status_invalid_size
  | rocblas_status_memory_error, rocblas_status_memory_error
  | rocblas_status_internal_error, rocblas_status_internal_error
  | rocblas_status_size_unchanged, rocblas_status_size_unchanged
  | rocblas_status_size_increased, rocblas_status_size_increased
  | rocblas_status_invalid_value, rocblas_status_invalid_value
  | rocblas_status_continue, rocblas_status_continue
  | rocblas_status_check_numerics_fail, rocblas_status_check_numerics_fail => true
  | _, _ => false
  end.

Inductive rocblas_operation :=
| rocblas_operation_none
| rocblas_operation_transpose
| rocblas_operation_conjugate_transpose.

Definition is_none (t : rocblas_operation) : bool :=
  match t with rocblas_operation_none => true | _ => false end.

Definition is_conjugate_transpose (t : rocblas_operation) : bool :=
  match t with rocblas_operation_conjugate_transpose => true | _ => false end.

Inductive rocblas_pointer_mode :=
| rocblas_pointer_mode_host
| rocblas_pointer_mode_device.

(** The fields of the handle that the embedded functions consult. *)
Record rocblas_handle_t := {
  pointer_mode : rocblas_pointer_mode;
  layer_mode : Z;
  check_numerics : Z;
  is_device_memory_size_query : bool
}.

(** ** Device state and the kernel monad *)

Inductive buffer := BufA | BufX | BufY.

(** Every global-memory access of a thread is recorded with the operand it
    goes through and the element address. *)
Inductive event :=
| Rd (b : buffer) (addr : Z)
| Wr (b : buffer) (addr : Z).

(** [ymem] is the global memory holding the output vectors, [sdata] the
    [__shared__] tile of the running block, [trace] the accesses so far,
    newest first.  The operands [A] and [x] are read-only and live in
    memory of their own: as everywhere in BLAS, the output overlaps
    neither of them. *)
Record dev `{Scalar} := mkDev {
  ymem : Z -> T;
  sdata : Z -> T;
  trace : list event
}.

Definition upd `{Scalar} (f : Z -> T) (a : Z) (v : T) : Z -> T :=
  fun a' => if a' =? a then v else f a'.

Definition K `{Scalar} (X : Type) : Type := dev -> X * dev.

Definition ret `{Scalar} {X} (x : X) : K X := fun s => (x, s).

Definition bind `{Scalar} {X Y} (m : K X) (k : X -> K Y) : K Y :=
  fun s => let (x, s') := m s in k x s'.

Notation "x <- m ;; k" := (bind m (fun x => k))
  (at level 61, m at next level, right associativity).
Notation "m ;;; k" := (bind m (fun _ => k))
  (at level 61, right associativity).

(** [p[i]] through a [const T*] operand whose contents are [contents]. *)
Definition load `{Scalar} (b : buffer) (contents : Z -> T) (addr : Z) : K T :=
  fun s => (contents addr, mkDev _ (ymem s) (sdata s) (Rd b addr :: trace s)).

(** [y[i]] as an rvalue. *)
Definition load_y `{Scalar} (addr : Z) : K T :=
  fun s => (ymem s addr, mkDev _ (ymem s) (sdata s) (Rd BufY addr :: trace s)).

(** [y[i] = v]. *)
Definition store_y `{Scalar} (addr : Z) (v : T) : K unit :=
  fun s => (tt, mkDev _ (upd (ymem s) addr v) (sdata s) (Wr BufY addr :: trace s)).

Definition load_shared `{Scalar} (i : Z) : K T := fun s => (sdata s i, s).

Definition store_shared `{Scalar} (i : Z) (v : T) : K unit :=
  fun s => (tt, mkDev _ (ymem s) (upd (sdata s) i v) (trace s)).

(** [for(i = start; i < bound; i += step) acc = body(i, acc)] with
    [step > 0]: at most [bound - start] iterations. *)
Fixpoint for_loop_fuel `{Scalar} {X} (fuel : nat) (i bound step : Z)
    (body : Z -> X -> K X) (acc : X) : K X :=
  match fuel with
  | O => ret acc
  | S fuel' =>
      if i <? bound
      then acc' <- body i acc ;; for_loop_fuel fuel' (i + step) bound step body acc'
      else ret acc
  end.

Definition for_loop `{Scalar} {X} (start bound step : Z)
    (body : Z -> X -> K X) (acc : X) : K X :=
  for_loop_fuel (Z.to_nat (bound - start)) start bound step body acc.

(** Run [body] for every element of a list, in order. *)
Fixpoint for_each `{Scalar} {I} (l : list I) (body : I -> K unit) : K unit :=
  match l with
  | [] => ret tt
  | i :: l' => body i ;;; for_each l' body
  end.

(** ** Launch geometry *)

Definition to_u32 (z : Z) : Z := z mod 2 ^ 32.

Definition to_int32 (z : Z) : Z := (z + 2 ^ 31) mod 2 ^ 32 - 2 ^ 31.

(** [dim3]: three [uint32_t] members; the constructor converts. *)
Record dim3 := { dim_x : Z; dim_y : Z; dim_z : Z }.

Definition mk_dim3 (a b c : Z) : dim3 :=
  {| dim_x := to_u32 a; dim_y := to_u32 b; dim_z := to_u32 c |}.

(** The code of a thread up to [__syncthreads()] and the code after it. *)
Inductive phase := BeforeSync | AfterSync.

(** ** Batched operands *)

(** The template parameters [U], [V], [W] of the kernel are either a plain
    pointer (strided batches) or a pointer to an array of pointers. *)
Inductive batch_ptr :=
| Strided (p : Z)
| Batched (ps : Z -> Z).

Definition nullptr : Z := 0.

(** Modelled from the spec: [load_ptr_batch] is declared outside the
    sources at hand.  A batch instance is addressed via
    [base + index*stride] (strided-batched) or via the array of pointers
    (pointer-batched), plus the shift of the launcher. *)
Definition load_ptr_batch (p : batch_ptr) (block shift stride : Z) : Z :=
  match p with
  | Strided base => base + block * stride + shift
  | Batched ps => ps block + shift
  end.

(** Modelled from the spec: [cond_load_ptr_batch] is declared outside the
    sources at hand.  The operand is resolved only when alpha is nonzero;
    otherwise the thread holds a null pointer. *)
Definition cond_load_ptr_batch `{Scalar} (alpha : T) (p : batch_ptr)
    (block shift stride : Z) : Z :=
  if truthy alpha then load_ptr_batch p block shift stride else nullptr.

(** Modelled from the spec: [load_scalar] is declared outside the sources
    at hand.  A host scalar is passed by value, a device scalar is read
    from device memory; either way the thread obtains the value, which is
    what the embedding passes. *)
Definition load_scalar `{Scalar} (a : T) (block stride : Z) : T := a.

(** ** The kernels of rocblas_gbmv_kernels.cpp *)

Section Kernels.
Context `{Scalar}.
(** Contents of the device memory behind the read-only operands. *)
Variables memA memX : Z -> T.

(** Helper for the non-transpose case. *)
Definition rocblas_gbmvn_kernel_helper (DIM_Y ty ind m n kl ku A lda x incx : Z)
    : K T :=
  for_loop ty n DIM_Y (fun col res_A =>
    let row := ind + (ku - col) in
    if ind <? m then
      if (row <=? kl + ku) && (row >=? 0) then
        res_A <- (if (row <=? ku) && (col >=? ku - row) && (col <? ku - row + m)
                  then a <- load BufA memA (A + (row + col * lda)) ;;
                       v <- load BufX memX (x + col * incx) ;;
                       ret (add res_A (mul a v))
                  else ret res_A) ;;
        if (row >? ku) && (col <? m - (row - ku))
        then a <- load BufA memA (A + (row + col * lda)) ;;
             v <- load BufX memX (x + col * incx) ;;
             ret (add res_A (mul a v))
        else ret res_A
      else ret res_A
    else ret res_A) zero.

(** Helper for the (conjugate-)transpose case. *)
Definition rocblas_gbmvt_kernel_helper (DIM_Y : Z) (is_conj : bool)
    (ty ind m n kl ku A lda x incx : Z) : K T :=
  for_loop ty lda DIM_Y (fun row res_A =>
    let col := ind in
    if col <? n then
      if (row <=? kl + ku) && (row >=? 0) then
        if (row <=? ku) && (col >=? ku - row) && (col <? ku - row + m)
        then a <- load BufA memA (A + (row + col * lda)) ;;
             v <- load BufX memX (x + (row - ku + col) * incx) ;;
             ret (add res_A (mul (if is_conj then conj a else a) v))
        else if ((row >? ku) && (row <=? kl + ku)) && (col <? m - (row - ku))
        then a <- load BufA memA (A + (row + col * lda)) ;;
             v <- load BufX memX (x + (row - ku + col) * incx) ;;
             ret (add res_A (mul (if is_conj then conj a else a) v))
        else ret res_A
      else ret res_A
    else ret res_A) zero.

(** The combined tile computation, split at its barrier.  [thread_id] and
    [ind] are [rocblas_int] variables assigned from [uint32_t]
    expressions; they are given here without the conversions, for indices
    below [2 ^ 31]. *)
Definition rocblas_gbmvx_kernel_calc (ph : phase) (DIM_X DIM_Y : Z)
    (blockDim blockIdx threadIdx : dim3)
    (transA : rocblas_operation) (m n kl ku : Z) (alpha : T)
    (A lda x incx : Z) (beta : T) (y incy : Z) : K unit :=
  let tx := dim_x threadIdx in
  let ty := dim_y threadIdx in
  match ph with
  | BeforeSync =>
      let ind := dim_x blockIdx * DIM_X + tx in
      if truthy alpha then
        res_A <- (if is_none transA
                  then rocblas_gbmvn_kernel_helper DIM_Y ty ind m n kl ku A lda x incx
                  else
                    let is_conj := is_conjugate_transpose transA in
                    rocblas_gbmvt_kernel_helper DIM_Y is_conj ty ind m n kl ku
                      A lda x incx) ;;
        store_shared (tx + ty * DIM_X) res_A
      else ret tt
  | AfterSync =>
      let thread_id := dim_x threadIdx + dim_y threadIdx * dim_x blockDim in
      let ind := dim_x blockIdx * DIM_X + thread_id in
      let max_ind := if is_none transA then m else n in
      if (thread_id <? DIM_X) && (ind <? max_ind) then
        (if truthy alpha
         then for_loop 1 DIM_Y 1 (fun i _ =>
                a <- load_shared thread_id ;;
                b <- load_shared (thread_id + DIM_X * i) ;;
                store_shared thread_id (add a b)) tt
         else ret tt) ;;;
        if negb (eqb beta zero) then
          if truthy alpha then
            s <- load_shared thread_id ;;
            yv <- load_y (y + ind * incy) ;;
            store_y (y + ind * incy) (add (mul alpha s) (mul beta yv))
          else
            yv <- load_y (y + ind * incy) ;;
            store_y (y + ind * incy) (mul beta yv)
        else
          if truthy alpha then
            s <- load_shared thread_id ;;
            store_y (y + ind * incy) (mul alpha s)
          else store_y (y + ind * incy) zero
      else ret tt
  end.

(** Loads pointers and runs the calculation. *)
Definition rocblas_gbmvx_kernel (ph : phase) (DIM_X DIM_Y : Z)
    (blockDim blockIdx threadIdx : dim3)
    (transA : rocblas_operation) (m n kl ku : Z) (alphaa : T)
    (Aa : batch_ptr) (shifta lda strideA : Z)
    (xa : batch_ptr) (shiftx incx stridex : Z) (betaa : T)
    (ya : batch_ptr) (shifty incy stridey : Z) : K unit :=
  let num_threads :=
    to_int32 (to_u32 (to_u32 (dim_x blockDim * dim_y blockDim) * dim_z blockDim)) in
  if negb (DIM_X * DIM_Y =? num_threads) then ret tt
  else
    let alpha := load_scalar alphaa (dim_y blockIdx) 0 in
    let beta := load_scalar betaa (dim_y blockIdx) 0 in
    if negb (truthy alpha) && eqb beta one then ret tt
    else
      let A := cond_load_ptr_batch alpha Aa (dim_y blockIdx) shifta strideA in
      let x := cond_load_ptr_batch alpha xa (dim_y blockIdx) shiftx stridex in
      let y := load_ptr_batch ya (dim_y blockIdx) shifty stridey in
      rocblas_gbmvx_kernel_calc ph DIM_X DIM_Y blockDim blockIdx threadIdx
        transA m n kl ku alpha A lda x incx beta y incy.

End Kernels.

(** ** Kernel launches *)

(** What [ROCBLAS_LAUNCH_KERNEL] puts on the stream: the grid, the block
    and the kernel applied to its arguments.  The kernel still awaits the
    contents of the operand memory, the phase and the built-in variables
    [blockDim], [blockIdx], [threadIdx]. *)
Record launch `{Scalar} := mkLaunch {
  grid : dim3;
  threads : dim3;
  kern : (Z -> T) -> (Z -> T) -> phase -> dim3 -> dim3 -> dim3 -> K unit
}.

Definition zrange (n : Z) : list Z := map Z.of_nat (seq 0 (Z.to_nat n)).

(** The threads of a block, [threadIdx.x] running fastest. *)
Definition block_threads (blockDim : dim3) : list dim3 :=
  flat_map (fun tz =>
    flat_map (fun ty =>
      map (fun tx => {| dim_x := tx; dim_y := ty; dim_z := tz |})
          (zrange (dim_x blockDim)))
      (zrange (dim_y blockDim)))
    (zrange (dim_z blockDim)).

(** One block: the threads of a block communicate through [sdata] only,
    and only across the barrier, so running every thread up to the barrier
    and then every thread after it yields what any interleaving yields. *)
Definition exec_block `{Scalar} (memA memX : Z -> T) (l : launch)
    (blockIdx : dim3) : K unit :=
  for_each (block_threads (threads l))
    (fun t => kern l memA memX BeforeSync (threads l) blockIdx t) ;;;
  for_each (block_threads (threads l))
    (fun t => kern l memA memX AfterSync (threads l) blockIdx t).

(** The whole grid; [blockIdx.y] selects the batch instance. *)
Definition exec_launch `{Scalar} (memA memX : Z -> T) (l : launch) : K unit :=
  for_each (zrange (dim_y (grid l))) (fun by_ =>
    for_each (zrange (dim_x (grid l))) (fun bx =>
      exec_block memA memX l {| dim_x := bx; dim_y := by_; dim_z := 0 |})).

(** ** The launcher *)

Definition GBMVX_DIM_X : Z := 64.
Definition GBMVX_DIM_Y : Z := 16.

(** [alpha] and [beta] are the values behind the two scalar pointers: on
    the host in host pointer mode, on the device otherwise.  The result is
    the status together with the launches put on the stream. *)
Definition rocblas_internal_gbmv_launcher `{Scalar} (handle : rocblas_handle_t)
    (transA : rocblas_operation) (m n kl ku : Z) (alpha : T)
    (A : batch_ptr) (offseta lda strideA : Z)
    (x : batch_ptr) (offsetx incx stridex : Z) (beta : T)
    (y : batch_ptr) (offsety incy stridey : Z) (batch_count : Z)
    : rocblas_status * list launch :=
  (* quick return *)
  if (m =? 0) || (n =? 0) || (batch_count =? 0)
  then (rocblas_status_success, [])
  else
    let shiftx :=
      if incx <? 0
      then offsetx - incx * (if is_none transA then n - 1 else m - 1)
      else offsetx in
    let shifty :=
      if incy <? 0
      then offsety - incy * (if is_none transA then m - 1 else n - 1)
      else offsety in
    let block_dim := if is_none transA then m else n in
    let blocks := Z.quot (block_dim - 1) GBMVX_DIM_X + 1 in
    let gbmvx_grid := mk_dim3 blocks batch_count 1 in
    let gbmvx_threads := mk_dim3 GBMVX_DIM_X GBMVX_DIM_Y 1 in
    let launched :=
      mkLaunch _ gbmvx_grid gbmvx_threads
        (fun memA memX ph blockDim blockIdx threadIdx =>
           rocblas_gbmvx_kernel memA memX ph GBMVX_DIM_X GBMVX_DIM_Y
             blockDim blockIdx threadIdx
             transA m n kl ku alpha A offseta lda strideA
             x shiftx incx stridex beta y shifty incy stridey) in
    match pointer_mode handle with
    | rocblas_pointer_mode_device => (rocblas_status_success, [launched])
    | rocblas_pointer_mode_host =>
        if negb (truthy alpha) && eqb beta one
        then (rocblas_status_success, [])
        else (rocblas_status_success, [launched])
    end.

(** The device after the stream has drained. *)
Definition run_stream `{Scalar} (memA memX : Z -> T) (ls : list launch) : K unit :=
  for_each ls (exec_launch memA memX).

(** A gbmv call seen from the device: its status and the state it leaves. *)
Definition gbmv_run `{Scalar} (memA memX : Z -> T) (handle : rocblas_handle_t)
    (transA : rocblas_operation) (m n kl ku : Z) (alpha : T)
    (A : batch_ptr) (offseta lda strideA : Z)
    (x : batch_ptr) (offsetx incx stridex : Z) (beta : T)
    (y : batch_ptr) (offsety incy stridey : Z) (batch_count : Z)
    (s : dev) : rocblas_status * dev :=
  let (st, ls) :=
    rocblas_internal_gbmv_launcher handle transA m n kl ku alpha
      A offseta lda strideA x offsetx incx stridex beta
      y offsety incy stridey batch_count in
  (st, snd (run_stream memA memX ls s)).


(** ** Numerics checking *)

(** What a vector check is asked to look at. *)
Record vector_descriptor := {
  v_n : Z;
  v_ptr : batch_ptr;
  v_offset : Z;
  v_inc : Z;
  v_stride : Z;
  v_batch_count : Z
}.

Section Numerics.
(** The numerics-check collaborator: given a vector descriptor, whether
    any element is NaN or Inf. *)
Variable has_nan_inf : vector_descriptor -> bool.

(** Modelled from the spec: [rocblas_internal_check_numerics_vector_template]
    is declared in check_numerics_vector.hpp, outside the sources at hand.
    It scans the operand for NaN/Inf and, if one is found, signals the
    has-NaN/Inf status, distinct from the ordinary ones. *)
Definition rocblas_internal_check_numerics_vector_template
    (handle : rocblas_handle_t) (n : Z) (x : batch_ptr)
    (offset_x inc_x stride_x batch_count : Z) (check_numerics : Z)
    (is_input : bool) : rocblas_status :=
  if has_nan_inf {| v_n := n; v_ptr := x; v_offset := offset_x; v_inc := inc_x;
                    v_stride := stride_x; v_batch_count := batch_count |}
  then rocblas_status_check_numerics_fail
  else rocblas_status_success.

End Numerics.

(** ** The asum entry point *)

Module Asum.

(** The calls through which the entry point reaches its collaborators,
    each with the data pointers handed over. *)
Inductive api_event :=
| EvLogTrace (x : Z)
| EvLogBench
| EvLogProfile
| EvSetOptimalDeviceMemorySize (bytes : Z)
| EvArgCheck (x result : Z)
| EvDeviceMalloc (bytes : Z)
| EvCheckNumerics (d : vector_descriptor)
| EvLauncher (x w_mem result : Z).

(** Either the function has returned a status or it goes on with a value. *)
Inductive outcome (X : Type) :=
| Returned (st : rocblas_status)
| Next (x : X).
Arguments Returned {X} st.
Arguments Next {X} x.

(** Calls made so far, oldest first. *)
Definition R (X : Type) : Type := list api_event -> outcome X * list api_event.

Definition next {X} (x : X) : R X := fun tr => (Next x, tr).
Definition return_ {X} (st : rocblas_status) : R X := fun tr => (Returned st, tr).
Definition call {X} (e : api_event) (x : X) : R X := fun tr => (Next x, tr ++ [e]).
Definition seq_ {X Y} (m : R X) (k : X -> R Y) : R Y :=
  fun tr => match m tr with
            | (Returned st, tr') => (Returned st, tr')
            | (Next x, tr') => k x tr'
            end.
Definition when (c : bool) (m : R unit) : R unit := if c then m else next tt.

Notation "x <~ m ;; k" := (seq_ m (fun x => k))
  (at level 61, m at next level, right associativity).
Notation "m ;;> k" := (seq_ m (fun _ => k))
  (at level 61, right associativity).

Definition run (m : R rocblas_status) : rocblas_status * list api_event :=
  match m [] with
  | (Returned st, tr) => (st, tr)
  | (Next st, tr) => (st, tr)
  end.

Section Impl.
(** Constants and collaborators declared outside the sources at hand. *)
Variables rocblas_layer_mode_log_trace rocblas_layer_mode_log_bench
          rocblas_layer_mode_log_profile : Z.
(** [rocblas_reduction_kernel_workspace_size<API_INT, NB, To>(n, batch_count)] *)
Variable rocblas_reduction_kernel_workspace_size : Z -> Z -> Z.
(** [handle->set_optimal_device_memory_size(bytes)] *)
Variable set_optimal_device_memory_size : rocblas_handle_t -> Z -> rocblas_status.
(** [rocblas_asum_nrm2_arg_check(handle, n, x, incx, stridex, batch_count, result)] *)
Variable rocblas_asum_nrm2_arg_check :
  rocblas_handle_t -> Z -> Z -> Z -> Z -> Z -> Z -> rocblas_status.
(** [handle->device_malloc(bytes)]: the workspace, null on failure. *)
Variable device_malloc : rocblas_handle_t -> Z -> Z.
Variable has_nan_inf : vector_descriptor -> bool.
(** [rocblas_internal_asum_nrm2_launcher] *)
Variable rocblas_internal_asum_nrm2_launcher :
  rocblas_handle_t -> Z -> Z -> Z -> Z -> Z -> Z -> Z -> Z -> rocblas_status.

Definition rocblas_asum_impl (handle : option rocblas_handle_t)
    (n x incx result : Z) : R rocblas_status :=
  match handle with
  | None => return_ rocblas_status_invalid_handle
  | Some handle =>
      let batch_count_1 := 1 in
      let dev_bytes := rocblas_reduction_kernel_workspace_size n batch_count_1 in
      if is_device_memory_size_query handle then
        if (n <=? 0) || (incx <=? 0)
        then return_ rocblas_status_size_unchanged
        else
          st <~ call (EvSetOptimalDeviceMemorySize dev_bytes)
                     (set_optimal_device_memory_size handle dev_bytes) ;;
          return_ st
      else
        let layer_mode := layer_mode handle in
        let check_numerics := check_numerics handle in
        when (negb (Z.land layer_mode rocblas_layer_mode_log_trace =? 0))
             (call (EvLogTrace x) tt) ;;>
        when (negb (Z.land layer_mode rocblas_layer_mode_log_bench =? 0))
             (call EvLogBench tt) ;;>
        when (negb (Z.land layer_mode rocblas_layer_mode_log_profile =? 0))
             (call EvLogProfile tt) ;;>
        let stridex_0 := 0 in
        let shiftx_0 := 0 in
        arg_status <~ call (EvArgCheck x result)
                           (rocblas_asum_nrm2_arg_check handle n x incx stridex_0
                              batch_count_1 result) ;;
        if negb (rocblas_status_eqb arg_status rocblas_status_continue)
        then return_ arg_status
        else
          w_mem <~ call (EvDeviceMalloc dev_bytes) (device_malloc handle dev_bytes) ;;
          if w_mem =? nullptr
          then return_ rocblas_status_memory_error
          else
            when (negb (check_numerics =? 0))
                 (let is_input := true in
                  check_numerics_status <~
                    call (EvCheckNumerics
                            {| v_n := n; v_ptr := Strided x; v_offset := shiftx_0;
                               v_inc := incx; v_stride := stridex_0;
                               v_batch_count := batch_count_1 |})
                         (rocblas_internal_check_numerics_vector_template has_nan_inf
                            handle n (Strided x) shiftx_0 incx stridex_0
                            batch_count_1 check_numerics is_input) ;;
                  if negb (rocblas_status_eqb check_numerics_status
                             rocblas_status_success)
                  then return_ check_numerics_status
                  else next tt) ;;>
            st <~ call (EvLauncher x w_mem result)
                       (rocblas_internal_asum_nrm2_launcher handle n x shiftx_0 incx
                          stridex_0 batch_count_1 w_mem result) ;;
            return_ st
  end.
(** The logging calls a layer mode asks for, in the order they are made. *)
Definition asum_logs (layer_mode x : Z) : list api_event :=
  (if negb (Z.land layer_mode rocblas_layer_mode_log_trace =? 0)
   then [EvLogTrace x] else [])
  ++ (if negb (Z.land layer_mode rocblas_layer_mode_log_bench =? 0)
      then [EvLogBench] else [])
  ++ (if negb (Z.land layer_mode rocblas_layer_mode_log_profile =? 0)
      then [EvLogProfile] else []).

End Impl.

End Asum.

(** ** Reference computation and proof vocabulary *)

(** The values [i] takes in [for(i = start; i < bound; i += step)]. *)
Fixpoint loop_indices (fuel : nat) (i bound step : Z) : list Z :=
  match fuel with
  | O => []
  | S fuel' =>
      if i <? bound then i :: loop_indices fuel' (i + step) bound step else []
  end.

(** A loop body run over a list of indices. *)
Fixpoint fold_m `{Scalar} {I X} (l : list I) (body : I -> X -> K X) (acc : X) : K X :=
  match l with
  | [] => ret acc
  | i :: l' => acc' <- body i acc ;; fold_m l' body acc'
  end.





(** The test under which the non-transpose helper reads column [col]. *)
Definition gbmvn_guard (ind m kl ku col : Z) : bool :=
  let row := ind + (ku - col) in
  (ind <? m) && ((row <=? kl + ku) && (row >=? 0))
  && (((row <=? ku) && (col >=? ku - row) && (col <? ku - row + m))
      || ((row >? ku) && (col <? m - (row - ku)))).

(** The test under which the transpose helper reads storage row [row]. *)
Definition gbmvt_guard (ind m n kl ku row : Z) : bool :=
  let col := ind in
  (col <? n) && ((row <=? kl + ku) && (row >=? 0))
  && (((row <=? ku) && (col >=? ku - row) && (col <? ku - row + m))
      || (((row >? ku) && (row <=? kl + ku)) && (col <? m - (row - ku)))).

(** The storage cells the claims call the declared banded region. *)
Definition band_cell (m kl ku row col : Z) : Prop :=
  0 <= row <= kl + ku /\
  ((row <= ku /\ col >= ku - row /\ col < ku - row + m) \/
   (row > ku /\ col < m - (row - ku))).

(** A computation that only appends events satisfying [P] to the trace. *)
Definition emits `{Scalar} (P : event -> Prop) {X} (c : K X) : Prop :=
  forall s, exists new, trace (snd (c s)) = new ++ trace s /\ Forall P new.

(** A computation that leaves both memories alone and yields [v]. *)
Definition pure_val `{Scalar} {X} (c : K X) (v : X) : Prop :=
  forall s, exists tr, c s = (v, mkDev _ (ymem s) (sdata s) tr).

(** [s'] is [s] with the output cells of [ws] rewritten, each by its own
    function of the old contents, and every other cell untouched. *)
Definition updates `{Scalar} (ws : list (Z * (T -> T))) (s s' : dev) : Prop :=
  (forall a f, In (a, f) ws -> ymem s' a = f (ymem s a)) /\
  (forall a, ~ In a (map fst ws) -> ymem s' a = ymem s a).

(** The accesses the traversal helpers may make: reads of [A] at cells of
    the banded region and reads of [x]; no write at all. *)
Definition band_access (m kl ku A lda : Z) (e : event) : Prop :=
  match e with
  | Rd BufA a => exists row col, a = A + (row + col * lda) /\ band_cell m kl ku row col
  | Rd BufX _ => True
  | _ => False
  end.

(** The value the non-transpose helper returns to thread [(ty, ind)]. *)
Definition gbmvn_partial `{Scalar} (memA memX : Z -> T)
    (DIM_Y ty ind m n kl ku A lda x incx : Z) : T :=
  fold_left
    (fun res_A col =>
       if gbmvn_guard ind m kl ku col
       then add res_A (mul (memA (A + (ind + (ku - col) + col * lda)))
                           (memX (x + col * incx)))
       else res_A)
    (loop_indices (Z.to_nat (n - ty)) ty n DIM_Y) zero.

(** The value the transpose helper returns to thread [(ty, ind)]. *)
Definition gbmvt_partial `{Scalar} (memA memX : Z -> T) (DIM_Y : Z) (is_conj : bool)
    (ty ind m n kl ku A lda x incx : Z) : T :=
  fold_left
    (fun res_A row =>
       if gbmvt_guard ind m n kl ku row
       then add res_A (mul (if is_conj then conj (memA (A + (row + ind * lda)))
                            else memA (A + (row + ind * lda)))
                           (memX (x + (row - ku + ind) * incx)))
       else res_A)
    (loop_indices (Z.to_nat (lda - ty)) ty lda DIM_Y) zero.

(** What a thread gets from whichever helper [transA] selects. *)
Definition tile_partial `{Scalar} (memA memX : Z -> T) (DIM_Y : Z)
    (transA : rocblas_operation) (ty ind m n kl ku A lda x incx : Z) : T :=
  if is_none transA
  then gbmvn_partial memA memX DIM_Y ty ind m n kl ku A lda x incx
  else gbmvt_partial memA memX DIM_Y (is_conjugate_transpose transA)
         ty ind m n kl ku A lda x incx.

(** [sdata[thread_id]] after the loop that adds the [DIM_Y] partial sums
    of a tile [sd]. *)
Definition tile_reduce `{Scalar} (sd : Z -> T) (DIM_X DIM_Y thread_id : Z) : T :=
  fold_left (fun a i => add a (sd (thread_id + DIM_X * i)))
            (loop_indices (Z.to_nat (DIM_Y - 1)) 1 DIM_Y 1) (sd thread_id).

(** The same sum, over the partial sums the threads of output [ind] got. *)
Definition tile_value `{Scalar} (memA memX : Z -> T) (DIM_Y : Z)
    (transA : rocblas_operation) (ind m n kl ku A lda x incx : Z) : T :=
  fold_left
    (fun a i => add a (tile_partial memA memX DIM_Y transA i ind m n kl ku A lda x incx))
    (loop_indices (Z.to_nat (DIM_Y - 1)) 1 DIM_Y 1)
    (tile_partial memA memX DIM_Y transA 0 ind m n kl ku A lda x incx).

(** The value the final statement of the tile computation stores, from the
    reduced sum [v] and the old contents [old] of the output cell. *)
Definition thread_result `{Scalar} (alpha beta v old : T) : T :=
  if negb (eqb beta zero)
  then if truthy alpha then add (mul alpha v) (mul beta old) else mul beta old
  else if truthy alpha then mul alpha v else zero.

(** The thread count a kernel computes from [blockDim]. *)
Definition num_threads (blockDim : dim3) : Z :=
  to_int32 (to_u32 (to_u32 (dim_x blockDim * dim_y blockDim) * dim_z blockDim)).

(** Logical length of the output vector. *)
Definition output_length (transA : rocblas_operation) (m n : Z) : Z :=
  if is_none transA then m else n.

(** Element address of output [i] of batch instance [b]. *)
Definition y_address (ya : batch_ptr) (shifty stridey incy b i : Z) : Z :=
  load_ptr_batch ya b shifty stridey + i * incy.

(** The test under which a thread performs the final store. *)
Definition writes_output (DIM_X : Z) (blockDim : dim3) (transA : rocblas_operation)
    (m n bx : Z) (t : dim3) : bool :=
  (dim_x t + dim_y t * dim_x blockDim <? DIM_X)
  && (bx * DIM_X + (dim_x t + dim_y t * dim_x blockDim)
      <? (if is_none transA then m else n)).

(** How a call rewrites output [i] of batch instance [b]. *)
Definition cell_update `{Scalar} (memA memX : Z -> T) (DIM_Y : Z)
    (transA : rocblas_operation) (m n kl ku : Z) (alpha : T)
    (Aa : batch_ptr) (shifta lda strideA : Z)
    (xa : batch_ptr) (shiftx incx stridex : Z) (beta : T) (b i : Z) : T -> T :=
  thread_result alpha beta
    (tile_value memA memX DIM_Y transA i m n kl ku
       (load_ptr_batch Aa b shifta strideA) lda
       (load_ptr_batch xa b shiftx stridex) incx).

(** The output cells block [(bx, by_)] rewrites, each with its update. *)
Definition block_writes `{Scalar} (memA memX : Z -> T) (DIM_X DIM_Y : Z)
    (blockDim : dim3) (transA : rocblas_operation) (m n kl ku : Z) (alpha : T)
    (Aa : batch_ptr) (shifta lda strideA : Z)
    (xa : batch_ptr) (shiftx incx stridex : Z) (beta : T)
    (ya : batch_ptr) (shifty incy stridey : Z) (by_ bx : Z) : list (Z * (T -> T)) :=
  flat_map
    (fun t =>
       if writes_output DIM_X blockDim transA m n bx t
       then [(y_address ya shifty stridey incy by_
                (bx * DIM_X + (dim_x t + dim_y t * dim_x blockDim)),
              cell_update memA memX DIM_Y transA m n kl ku alpha Aa shifta lda strideA
                xa shiftx incx stridex beta by_
                (bx * DIM_X + (dim_x t + dim_y t * dim_x blockDim)))]
       else [])
    (block_threads blockDim).

(** The shifts the launcher hands to the kernel for [x] and [y]. *)
Definition gbmv_shiftx (transA : rocblas_operation) (m n offsetx incx : Z) : Z :=
  if incx <? 0
  then offsetx - incx * (if is_none transA then n - 1 else m - 1)
  else offsetx.

Definition gbmv_shifty (transA : rocblas_operation) (m n offsety incy : Z) : Z :=
  if incy <? 0
  then offsety - incy * (if is_none transA then m - 1 else n - 1)
  else offsety.

(** ** A worked instance

    The banded matrix of the launcher's comment ([m = n = 5], [ku = 1],
    [kl = 2]) in its compacted form, column by column, with [lda = 5]. *)
Definition ex_A (a : Z) : Z :=
  nth (Z.to_nat a)
      [0; 1; 3; 4; 0;  2; 1; 3; 4; 0;  2; 1; 3; 4; 0;  2; 1; 3; 0; 0;  2; 1; 0; 0; 0] 0.

Definition ex_ones (a : Z) : Z := 1.

Definition ex_host : rocblas_handle_t :=
  {| pointer_mode := rocblas_pointer_mode_host; layer_mode := 0;
     check_numerics := 0; is_device_memory_size_query := false |}.

Definition ex_device : rocblas_handle_t :=
  {| pointer_mode := rocblas_pointer_mode_device; layer_mode := 0;
     check_numerics := 0; is_device_memory_size_query := false |}.

(** An output buffer and a shared tile full of leftovers. *)
Definition ex_dirty : @dev Z_scalar :=
  @mkDev Z_scalar (fun a => 1000 + a) (fun i => 555 + i) [].

Definition ex_clean : @dev Z_scalar :=
  @mkDev Z_scalar (fun a => 0) (fun i => 0) [].

(** [y := alpha * op(A) * ones + beta * y] on the matrix above. *)
Definition ex_call (handle : rocblas_handle_t) (transA : rocblas_operation)
    (alpha beta incy batch_count : Z) (s : @dev Z_scalar)
    : rocblas_status * @dev Z_scalar :=
  @gbmv_run Z_scalar ex_A ex_ones handle transA 5 5 2 1 alpha (Strided 0) 0 5 0
    (Strided 0) 0 1 0 beta (Strided 0) 0 incy 0 batch_count s.





(** Collaborators of the asum entry point for the worked instance. *)
Definition ex_query : rocblas_handle_t :=
  {| pointer_mode := rocblas_pointer_mode_host; layer_mode := 7;
     check_numerics := 4; is_device_memory_size_query := true |}.

Definition ex_checked : rocblas_handle_t :=
  {| pointer_mode := rocblas_pointer_mode_host; layer_mode := 1;
     check_numerics := 4; is_device_memory_size_query := false |}.

Definition ex_asum (has_nan_inf : vector_descriptor -> bool)
    (handle : rocblas_handle_t) (n x incx result : Z)
    : rocblas_status * list Asum.api_event :=
  Asum.run
    (Asum.rocblas_asum_impl 1 2 4
       (fun n batch_count => 4 * n * batch_count)
       (fun _ _ => rocblas_status_size_increased)
       (fun _ n x incx _ _ result =>
          if (x =? nullptr) || (result =? nullptr)
          then rocblas_status_invalid_pointer else rocblas_status_continue)
       (fun _ bytes => 4096)
       has_nan_inf
       (fun _ _ _ _ _ _ _ _ _ => rocblas_status_success)
       (Some handle) n x incx result).

(** ** Where a call may touch memory *)

(** Logical length of the vector [x]. *)
Definition x_length (transA : rocblas_operation) (m n : Z) : Z :=
  if is_none transA then n else m.

(** Element [j] of the [len] elements a strided vector of increment [inc]
    occupies from its offset on, in one of the batch instances. *)
Definition in_vector (p : batch_ptr) (offset stride batch_count len inc a : Z) : Prop :=
  exists b j, 0 <= b < batch_count /\ 0 <= j < len
              /\ a = load_ptr_batch p b offset stride + j * Z.abs inc.

(** One of the [lda * n] elements of the band storage of a batch instance. *)
Definition in_matrix (p : batch_ptr) (offset stride batch_count lda n a : Z) : Prop :=
  exists b k, 0 <= b < batch_count /\ 0 <= k < lda * n
              /\ a = load_ptr_batch p b offset stride + k.

(** The accesses a thread may make through the pointers it has resolved. *)
Definition thread_access_ok (transA : rocblas_operation)
    (m n kl ku lda A x incx y incy : Z) (e : event) : Prop :=
  match e with
  | Rd BufA a => kl + ku < lda -> exists k, 0 <= k < lda * n /\ a = A + k
  | Rd BufX a => exists i, 0 <= i < x_length transA m n /\ a = x + i * incx
  | Rd BufY a => exists i, 0 <= i < output_length transA m n /\ a = y + i * incy
  | Wr BufY a => exists i, 0 <= i < output_length transA m n /\ a = y + i * incy
  | Wr _ _ => False
  end.

(** Reads of [A] stay within the band storage, provided it has room for
    the [kl + ku + 1] diagonals. *)
Definition reads_A_within (A : batch_ptr) (offseta strideA batch_count kl ku lda n : Z)
    (e : event) : Prop :=
  match e with
  | Rd BufA a => kl + ku < lda -> in_matrix A offseta strideA batch_count lda n a
  | _ => True
  end.

(** Reads of [x] stay within the vector. *)
Definition reads_x_within (x : batch_ptr) (offsetx stridex batch_count len incx : Z)
    (e : event) : Prop :=
  match e with
  | Rd BufX a => in_vector x offsetx stridex batch_count len incx a
  | _ => True
  end.

(** Every access of the output stays within the vector, and nothing else
    is written. *)
Definition writes_y_within (y : batch_ptr) (offsety stridey batch_count len incy : Z)
    (e : event) : Prop :=
  match e with
  | Rd BufY a => in_vector y offsety stridey batch_count len incy a
  | Wr BufY a => in_vector y offsety stridey batch_count len incy a
  | Wr _ _ => False
  | _ => True
  end.

(** All of the above at once. *)
Definition call_access_ok (transA : rocblas_operation) (m n kl ku : Z)
    (A : batch_ptr) (offseta lda strideA : Z)
    (x : batch_ptr) (offsetx incx stridex : Z)
    (y : batch_ptr) (offsety incy stridey batch_count : Z) (e : event) : Prop :=
  reads_A_within A offseta strideA batch_count kl ku lda n e
  /\ reads_x_within x offsetx stridex batch_count (x_length transA m n) incx e
  /\ writes_y_within y offsety stridey batch_count (output_length transA m n) incy e.


(** A launch whose grid is the right size for an output of [len] elements
    and [batch_count] instances: the block is the tile the kernel was
    compiled for, there is one row of blocks per instance, every output
    index belongs to a thread of the first row of a block, and every block
    holds at least one output index. *)
Definition covers_output `{Scalar} (l : launch) (len batch_count : Z) : Prop :=
  num_threads (threads l) = GBMVX_DIM_X * GBMVX_DIM_Y
  /\ dim_y (grid l) = batch_count
  /\ (forall i, 0 <= i < len ->
        exists bx t, 0 <= bx < dim_x (grid l) /\ In t (block_threads (threads l))
                     /\ dim_y t = 0 /\ i = bx * GBMVX_DIM_X + dim_x t)
  /\ (forall bx, 0 <= bx < dim_x (grid l) -> bx * GBMVX_DIM_X < len).


(** Two device memories hold the same operands for one instance of the
    batch: the in-band cells of the columns of the band storage at [Ab],
    and the elements of the vector at [xb]. *)
Definition same_instance_inputs `{Scalar} (memA memX memA' memX' : Z -> T)
    (transA : rocblas_operation) (m n kl ku Ab lda xb incx : Z) : Prop :=
  (forall row col, band_cell m kl ku row col -> 0 <= col < n ->
                   memA (Ab + (row + col * lda)) = memA' (Ab + (row + col * lda)))
  /\ (forall j, 0 <= j < x_length transA m n ->
                memX (xb + j * incx) = memX' (xb + j * incx)).


(** The band storage of the worked instance with its unused corner cell
    overwritten, and a device that agrees with [ex_dirty] on output
    element 2 only. *)
Definition ex_A_padded (a : Z) : Z := if a =? 0 then 99 else ex_A a.

Definition ex_other : @dev Z_scalar :=
  @mkDev Z_scalar (fun a => if a =? 2 then 1002 else 0) (fun i => 0) [].


(** ** The hbmv test suites of hbmv_gtest.cpp *)

Module Hbmv.
Import Ascii String.

(** Possible hbmv test cases. *)
Inductive hbmv_test_type := HBMV | HBMV_BATCHED | HBMV_STRIDED_BATCHED.

(** The value of an enumerator: they are numbered from zero. *)
Definition enumerator (t : hbmv_test_type) : Z :=
  match t with
  | HBMV => 0
  | HBMV_BATCHED => 1
  | HBMV_STRIDED_BATCHED => 2
  end.

(** [!e] on an integer. *)
Definition logical_not (e : Z) : Z := if e =? 0 then 1 else 0.

(** [!strcmp(a, b)]: the two strings are equal. *)
Definition not_strcmp (a b : string) : bool := String.eqb a b.

(** [std::toupper] in the C locale. *)
Definition toupper (c : ascii) : ascii :=
  let k := nat_of_ascii c in
  if (Nat.leb 97 k && Nat.leb k 122)%bool then ascii_of_nat (k - 32) else c.

(** The fields of [Arguments] the suite looks at; [a_type] is the value of
    the datatype enumerator, [alpha] and [beta] are the bits of a
    [double]. *)
Record Arguments := {
  function : string;
  name : string;
  a_type : Z;
  uplo : ascii;
  N : Z;
  K : Z;
  alpha : Z;
  lda : Z;
  stride_a : Z;
  incx : Z;
  stride_x : Z;
  beta : Z;
  incy : Z;
  stride_y : Z;
  batch_count : Z;
  api : Z
}.

(** [arg] with another batch count. *)
Definition with_batch_count (arg : Arguments) (b : Z) : Arguments :=
  {| function := function arg; name := name arg; a_type := a_type arg;
     uplo := uplo arg; N := N arg; K := K arg; alpha := alpha arg; lda := lda arg;
     stride_a := stride_a arg; incx := incx arg; stride_x := stride_x arg;
     beta := beta arg; incy := incy arg; stride_y := stride_y arg;
     batch_count := b; api := api arg |}.

(** What is streamed into a test name. *)
Inductive item :=
| Str (s : string)
| Chr (c : ascii)
| Int (z : Z)
| Dbl (bits : Z).

(** The test routines the suite can call, and the failure it reports
    otherwise. *)
Inductive test_routine :=
| testing_hbmv
| testing_hbmv_bad_arg
| testing_hbmv_batched
| testing_hbmv_batched_bad_arg
| testing_hbmv_strided_batched
| testing_hbmv_strided_batched_bad_arg
| FAIL (function : string).

(** The suite a test routine is written for. *)
Definition suite_of (r : test_routine) : option hbmv_test_type :=
  match r with
  | testing_hbmv | testing_hbmv_bad_arg => Some HBMV
  | testing_hbmv_batched | testing_hbmv_batched_bad_arg => Some HBMV_BATCHED
  | testing_hbmv_strided_batched | testing_hbmv_strided_batched_bad_arg =>
      Some HBMV_STRIDED_BATCHED
  | FAIL _ => None
  end.

(** Filter for which functions apply to this suite. *)
Definition function_filter (HBMV_TYPE : hbmv_test_type) (arg : Arguments) : bool :=
  match HBMV_TYPE with
  | HBMV =>
      not_strcmp (function arg) "hbmv" || not_strcmp (function arg) "hbmv_bad_arg"
  | HBMV_BATCHED =>
      not_strcmp (function arg) "hbmv_batched"
      || not_strcmp (function arg) "hbmv_batched_bad_arg"
  | HBMV_STRIDED_BATCHED =>
      not_strcmp (function arg) "hbmv_strided_batched"
      || not_strcmp (function arg) "hbmv_strided_batched_bad_arg"
  end.

(** [hbmv_testing::operator()]: the routine run for [arg.function]. *)
Definition hbmv_testing (arg : Arguments) : test_routine :=
  if not_strcmp (function arg) "hbmv" then testing_hbmv
  else if not_strcmp (function arg) "hbmv_bad_arg" then testing_hbmv_bad_arg
  else if not_strcmp (function arg) "hbmv_batched" then testing_hbmv_batched
  else if not_strcmp (function arg) "hbmv_batched_bad_arg"
  then testing_hbmv_batched_bad_arg
  else if not_strcmp (function arg) "hbmv_strided_batched"
  then testing_hbmv_strided_batched
  else if not_strcmp (function arg) "hbmv_strided_batched_bad_arg"
  then testing_hbmv_strided_batched_bad_arg
  else FAIL (function arg).

Section Suffix.
(** Declared outside the sources at hand. *)
Variable rocblas_datatype2string : Z -> string.
Variables c_API_64 c_API_FORTRAN : Z.

(** Google Test name suffix based on parameters: the name the
    [RocBLAS_TestName] is built from, and what is streamed into it. *)
Definition name_suffix (HBMV_TYPE : hbmv_test_type) (arg : Arguments)
    : string * list item :=
  let test_name := name arg in
  let name :=
    [Str (rocblas_datatype2string (a_type arg)); Chr "_"; Chr (toupper (uplo arg));
     Chr "_"; Int (N arg); Chr "_"; Int (K arg); Chr "_"; Dbl (alpha arg);
     Chr "_"; Int (lda arg)] in
  let name :=
    if enumerator HBMV_TYPE =? enumerator HBMV_STRIDED_BATCHED
    then name ++ [Chr "_"; Int (stride_a arg)] else name in
  let name := name ++ [Chr "_"; Int (incx arg)] in
  let name :=
    if enumerator HBMV_TYPE =? enumerator HBMV_STRIDED_BATCHED
    then name ++ [Chr "_"; Int (stride_x arg)] else name in
  let name := name ++ [Chr "_"; Dbl (beta arg); Chr "_"; Int (incy arg)] in
  let name :=
    if enumerator HBMV_TYPE =? enumerator HBMV_STRIDED_BATCHED
    then name ++ [Chr "_"; Int (stride_y arg)] else name in
  let name :=
    if enumerator HBMV_TYPE =? logical_not (enumerator HBMV)
    then name ++ [Chr "_"; Int (batch_count arg)] else name in
  let name :=
    if negb (Z.land (api arg) c_API_64 =? 0) then name ++ [Str "_I64"] else name in
  let name :=
    if negb (Z.land (api arg) c_API_FORTRAN =? 0) then name ++ [Str "_F"] else name in
  (test_name, name).

End Suffix.

End Hbmv.

(** ** The timing section of testing_asum_strided_batched.hpp *)

Module TestingAsum.

(** A reading of the synchronised clock, a dispatch of the function under
    test. *)
Inductive timing_event := TimeSync | Dispatch.

(** Whether [gpu_time_used] has been assigned, and what has been done. *)
Record timing := { gpu_time_assigned : bool; calls : list timing_event }.

(** [for(int iter = ...; iter < total_calls; iter++)] *)
Fixpoint timing_loop (fuel : nat) (iter total_calls number_cold_calls : Z)
    (st : timing) : timing :=
  match fuel with
  | O => st
  | S fuel' =>
      if iter <? total_calls then
        let st :=
          if iter =? number_cold_calls
          then {| gpu_time_assigned := true; calls := calls st ++ [TimeSync] |}
          else st in
        let st :=
          {| gpu_time_assigned := gpu_time_assigned st;
             calls := calls st ++ [Dispatch] |} in
        timing_loop fuel' (iter + 1) total_calls number_cold_calls st
      else st
  end.

(** The body of [if(arg.timing)] up to the second reading of the clock,
    whose result has [gpu_time_used] subtracted.  [total_calls] is an
    [int]; the statements about this section keep the sum in range. *)
Definition testing_asum_strided_batched_timing (cold_iters iters : Z) : timing :=
  let number_cold_calls := cold_iters in
  let total_calls := to_int32 (number_cold_calls + iters) in
  let st :=
    timing_loop (Z.to_nat total_calls) 0 total_calls number_cold_calls
      {| gpu_time_assigned := false; calls := [] |} in
  {| gpu_time_assigned := gpu_time_assigned st; calls := calls st ++ [TimeSync] |}.

End TestingAsum.

(** * Proofs *)

Section MonadFacts.
Context {S : Scalar}.

Lemma for_loop_fuel_fold_m {X} (body : Z -> X -> K X) bound step :
  forall fuel i acc s,
    for_loop_fuel fuel i bound step body acc s
    = fold_m (loop_indices fuel i bound step) body acc s.
Proof.
  induction fuel as [|fuel IH]; intros i acc s; simpl; [reflexivity|].
  destruct (i <? bound); simpl; [|reflexivity].
  unfold bind. destruct (body i acc s) as [acc' s']. apply IH.
Qed.

Lemma emits_ret P {X} (x : X) : emits P (ret x).
Proof. intros s. exists []. split; [reflexivity|constructor]. Qed.

Lemma emits_bind P {X Y} (c : K X) (k : X -> K Y) :
  emits P c -> (forall x, emits P (k x)) -> emits P (bind c k).
Proof.
  intros Hc Hk s. unfold bind.
  destruct (Hc s) as [n1 [E1 F1]].
  destruct (c s) as [x s1]; simpl in E1.
  destruct (Hk x s1) as [n2 [E2 F2]].
  exists (n2 ++ n1). split.
  - rewrite E2, E1. apply app_assoc.
  - apply Forall_app; split; assumption.
Qed.


Lemma emits_load (P : event -> Prop) b contents a :
  P (Rd b a) -> emits P (load b contents a).
Proof. intros HP s. exists [Rd b a]. split; [reflexivity|]. repeat constructor; exact HP. Qed.

Lemma emits_load_y (P : event -> Prop) a : P (Rd BufY a) -> emits P (load_y a).
Proof. intros HP s. exists [Rd BufY a]. split; [reflexivity|]. repeat constructor; exact HP. Qed.

Lemma emits_store_y (P : event -> Prop) a v : P (Wr BufY a) -> emits P (store_y a v).
Proof. intros HP s. exists [Wr BufY a]. split; [reflexivity|]. repeat constructor; exact HP. Qed.

Lemma emits_load_shared P i : emits P (load_shared i).
Proof. intros s. exists []. split; [reflexivity|constructor]. Qed.

Lemma emits_store_shared P i v : emits P (store_shared i v).
Proof. intros s. exists []. split; [reflexivity|constructor]. Qed.

Lemma emits_fold_m P {I X} (body : I -> X -> K X) :
  (forall i acc, emits P (body i acc)) ->
  forall l acc, emits P (fold_m l body acc).
Proof.
  intros Hb. induction l as [|i l IH]; intros acc; simpl.
  - apply emits_ret.
  - apply emits_bind; [apply Hb|]. intros x. apply IH.
Qed.

Lemma emits_for_loop P {X} (body : Z -> X -> K X) start bound step acc :
  (forall i a, emits P (body i a)) -> emits P (for_loop start bound step body acc).
Proof.
  intros Hb s. unfold for_loop. rewrite for_loop_fuel_fold_m.
  apply emits_fold_m; assumption.
Qed.

Lemma emits_for_each P {I} (body : I -> K unit) l :
  (forall i, In i l -> emits P (body i)) -> emits P (for_each l body).
Proof.
  induction l as [|i l IH]; intros Hb; simpl.
  - apply emits_ret.
  - apply emits_bind; [apply Hb; left; reflexivity|].
    intros _. apply IH. intros j Hj. apply Hb. right; exact Hj.
Qed.

Lemma pure_val_ret {X} (x : X) : pure_val (ret x) x.
Proof. intros s. exists (trace s). destruct s; reflexivity. Qed.

Lemma pure_val_bind {X Y} (c : K X) (k : X -> K Y) v w :
  pure_val c v -> pure_val (k v) w -> pure_val (bind c k) w.
Proof.
  intros Hc Hk s. unfold bind.
  destruct (Hc s) as [t1 E1]. rewrite E1.
  destruct (Hk (mkDev _ (ymem s) (sdata s) t1)) as [t2 E2].
  exists t2. rewrite E2. reflexivity.
Qed.


Lemma pure_val_fold_m {I X} (body : I -> X -> K X) (f : I -> X -> X) :
  (forall i acc, pure_val (body i acc) (f i acc)) ->
  forall l acc, pure_val (fold_m l body acc) (fold_left (fun a i => f i a) l acc).
Proof.
  intros Hb. induction l as [|i l IH]; intros acc; simpl.
  - apply pure_val_ret.
  - eapply pure_val_bind; [apply Hb|apply IH].
Qed.

Lemma pure_val_for_loop {X} (body : Z -> X -> K X) (f : Z -> X -> X) start bound step acc :
  (forall i a, pure_val (body i a) (f i a)) ->
  pure_val (for_loop start bound step body acc)
    (fold_left (fun a i => f i a)
       (loop_indices (Z.to_nat (bound - start)) start bound step) acc).
Proof.
  intros Hb s. unfold for_loop. rewrite for_loop_fuel_fold_m.
  apply pure_val_fold_m; assumption.
Qed.

End MonadFacts.

(** Turn the integer tests of a goal into facts for [lia]. *)
Ltac split_tests :=
  rewrite ?Z.geb_leb, ?Z.gtb_ltb in *;
  repeat match goal with
         | |- context [?a <=? ?b] => destruct (Z.leb_spec a b)
         | |- context [?a <? ?b] => destruct (Z.ltb_spec a b)
         | |- context [?a =? ?b] => destruct (Z.eqb_spec a b)
         end.

(** The same tests as propositions, without case analysis. *)
Ltac tests_to_props :=
  rewrite ?andb_true_iff, ?orb_true_iff, ?Z.leb_le, ?Z.ltb_lt, ?Z.geb_le,
    ?Z.gtb_lt, ?Z.eqb_eq in *.

(** Walk down a computation whose every access satisfies the predicate. *)
Ltac emits_walk :=
  repeat first
    [ apply emits_ret
    | apply emits_load_shared
    | apply emits_store_shared
    | apply emits_bind; [|intros ?]
    | apply emits_load
    | apply emits_load_y
    | apply emits_store_y ].

Section HelperFacts.
Context {S : Scalar}.
Variables memA memX : Z -> T.

Lemma gbmvn_body_emits (P : event -> Prop) ind m kl ku A lda x incx col res_A :
  (gbmvn_guard ind m kl ku col = true -> P (Rd BufA (A + (ind + (ku - col) + col * lda)))) ->
  (forall a, P (Rd BufX a)) ->
  emits P
    (let row := ind + (ku - col) in
     if ind <? m then
       if (row <=? kl + ku) && (row >=? 0) then
         res_A <- (if (row <=? ku) && (col >=? ku - row) && (col <? ku - row + m)
                   then a <- load BufA memA (A + (row + col * lda)) ;;
                        v <- load BufX memX (x + col * incx) ;;
                        ret (add res_A (mul a v))
                   else ret res_A) ;;
         if (row >? ku) && (col <? m - (row - ku))
         then a <- load BufA memA (A + (row + col * lda)) ;;
              v <- load BufX memX (x + col * incx) ;;
              ret (add res_A (mul a v))
         else ret res_A
       else ret res_A
     else ret res_A).
Proof.
  unfold gbmvn_guard. intros HA HX. cbv zeta in *.
  split_tests; cbn [andb orb] in *; emits_walk; auto; try lia.
Qed.

Lemma gbmvn_body_pure ind m kl ku A lda x incx col res_A :
  pure_val
    (let row := ind + (ku - col) in
     if ind <? m then
       if (row <=? kl + ku) && (row >=? 0) then
         res_A <- (if (row <=? ku) && (col >=? ku - row) && (col <? ku - row + m)
                   then a <- load BufA memA (A + (row + col * lda)) ;;
                        v <- load BufX memX (x + col * incx) ;;
                        ret (add res_A (mul a v))
                   else ret res_A) ;;
         if (row >? ku) && (col <? m - (row - ku))
         then a <- load BufA memA (A + (row + col * lda)) ;;
              v <- load BufX memX (x + col * incx) ;;
              ret (add res_A (mul a v))
         else ret res_A
       else ret res_A
     else ret res_A)
    (if gbmvn_guard ind m kl ku col
     then add res_A (mul (memA (A + (ind + (ku - col) + col * lda)))
                         (memX (x + col * incx)))
     else res_A).
Proof.
  unfold gbmvn_guard. cbv zeta.
  split_tests; cbn [andb orb]; try lia;
    intros s; destruct s; eexists; reflexivity.
Qed.

Lemma gbmvt_body_emits (P : event -> Prop) (is_conj : bool) ind m n kl ku A lda x incx row res_A :
  (gbmvt_guard ind m n kl ku row = true -> P (Rd BufA (A + (row + ind * lda)))) ->
  (forall a, P (Rd BufX a)) ->
  emits P
    (let col := ind in
     if col <? n then
       if (row <=? kl + ku) && (row >=? 0) then
         if (row <=? ku) && (col >=? ku - row) && (col <? ku - row + m)
         then a <- load BufA memA (A + (row + col * lda)) ;;
              v <- load BufX memX (x + (row - ku + col) * incx) ;;
              ret (add res_A (mul (if is_conj then conj a else a) v))
         else if ((row >? ku) && (row <=? kl + ku)) && (col <? m - (row - ku))
         then a <- load BufA memA (A + (row + col * lda)) ;;
              v <- load BufX memX (x + (row - ku + col) * incx) ;;
              ret (add res_A (mul (if is_conj then conj a else a) v))
         else ret res_A
       else ret res_A
     else ret res_A).
Proof.
  unfold gbmvt_guard. intros HA HX. cbv zeta in *.
  split_tests; cbn [andb orb] in *; emits_walk; auto; try lia.
Qed.

Lemma gbmvt_body_pure (is_conj : bool) ind m n kl ku A lda x incx row res_A :
  pure_val
    (let col := ind in
     if col <? n then
       if (row <=? kl + ku) && (row >=? 0) then
         if (row <=? ku) && (col >=? ku - row) && (col <? ku - row + m)
         then a <- load BufA memA (A + (row + col * lda)) ;;
              v <- load BufX memX (x + (row - ku + col) * incx) ;;
              ret (add res_A (mul (if is_conj then conj a else a) v))
         else if ((row >? ku) && (row <=? kl + ku)) && (col <? m - (row - ku))
         then a <- load BufA memA (A + (row + col * lda)) ;;
              v <- load BufX memX (x + (row - ku + col) * incx) ;;
              ret (add res_A (mul (if is_conj then conj a else a) v))
         else ret res_A
       else ret res_A
     else ret res_A)
    (if gbmvt_guard ind m n kl ku row
     then add res_A (mul (if is_conj then conj (memA (A + (row + ind * lda)))
                          else memA (A + (row + ind * lda)))
                         (memX (x + (row - ku + ind) * incx)))
     else res_A).
Proof.
  unfold gbmvt_guard. cbv zeta.
  split_tests; cbn [andb orb]; try lia;
    intros s; destruct s; eexists; reflexivity.
Qed.

Lemma gbmvn_helper_emits (P : event -> Prop) DIM_Y ty ind m n kl ku A lda x incx :
  (forall col, gbmvn_guard ind m kl ku col = true ->
               P (Rd BufA (A + (ind + (ku - col) + col * lda)))) ->
  (forall a, P (Rd BufX a)) ->
  emits P (rocblas_gbmvn_kernel_helper memA memX DIM_Y ty ind m n kl ku A lda x incx).
Proof.
  intros HA HX. unfold rocblas_gbmvn_kernel_helper.
  apply emits_for_loop. intros col res_A.
  apply gbmvn_body_emits; auto.
Qed.

Lemma gbmvn_helper_pure DIM_Y ty ind m n kl ku A lda x incx :
  pure_val (rocblas_gbmvn_kernel_helper memA memX DIM_Y ty ind m n kl ku A lda x incx)
           (gbmvn_partial memA memX DIM_Y ty ind m n kl ku A lda x incx).
Proof.
  unfold rocblas_gbmvn_kernel_helper, gbmvn_partial.
  apply (pure_val_for_loop _
           (fun col res_A =>
              if gbmvn_guard ind m kl ku col
              then add res_A (mul (memA (A + (ind + (ku - col) + col * lda)))
                                  (memX (x + col * incx)))
              else res_A)).
  intros col res_A. apply gbmvn_body_pure.
Qed.

Lemma gbmvt_helper_emits (P : event -> Prop) DIM_Y is_conj ty ind m n kl ku A lda x incx :
  (forall row, gbmvt_guard ind m n kl ku row = true ->
               P (Rd BufA (A + (row + ind * lda)))) ->
  (forall a, P (Rd BufX a)) ->
  emits P (rocblas_gbmvt_kernel_helper memA memX DIM_Y is_conj ty ind m n kl ku
             A lda x incx).
Proof.
  intros HA HX. unfold rocblas_gbmvt_kernel_helper.
  apply emits_for_loop. intros row res_A.
  apply gbmvt_body_emits; auto.
Qed.

Lemma gbmvt_helper_pure DIM_Y is_conj ty ind m n kl ku A lda x incx :
  pure_val (rocblas_gbmvt_kernel_helper memA memX DIM_Y is_conj ty ind m n kl ku
              A lda x incx)
           (gbmvt_partial memA memX DIM_Y is_conj ty ind m n kl ku A lda x incx).
Proof.
  unfold rocblas_gbmvt_kernel_helper, gbmvt_partial.
  apply (pure_val_for_loop _
           (fun row res_A =>
              if gbmvt_guard ind m n kl ku row
              then add res_A (mul (if is_conj then conj (memA (A + (row + ind * lda)))
                                   else memA (A + (row + ind * lda)))
                                  (memX (x + (row - ku + ind) * incx)))
              else res_A)).
  intros row res_A. apply gbmvt_body_pure.
Qed.

Lemma gbmvn_guard_band_cell ind m kl ku col :
  gbmvn_guard ind m kl ku col = true -> band_cell m kl ku (ind + (ku - col)) col.
Proof.
  unfold gbmvn_guard, band_cell. cbv zeta. tests_to_props. lia.
Qed.

Lemma gbmvt_guard_band_cell ind m n kl ku row :
  gbmvt_guard ind m n kl ku row = true -> band_cell m kl ku row ind.
Proof.
  unfold gbmvt_guard, band_cell. cbv zeta. tests_to_props. lia.
Qed.

End HelperFacts.

Section HelperReads.
Context {S : Scalar}.

Lemma fold_left_ext_in {X I} (f g : X -> I -> X) (l : list I) :
  (forall i a, In i l -> f a i = g a i) ->
  forall a, fold_left f l a = fold_left g l a.
Proof.
  induction l as [|i l IH]; intros Hfg a; simpl; [reflexivity|].
  rewrite (Hfg i a (or_introl eq_refl)).
  apply IH. intros j b Hj. apply Hfg. right; exact Hj.
Qed.

Lemma gbmvn_partial_band_only (memA memA' memX : Z -> T)
    DIM_Y ty ind m n kl ku A lda x incx :
  (forall row col, band_cell m kl ku row col ->
                   memA' (A + (row + col * lda)) = memA (A + (row + col * lda))) ->
  gbmvn_partial memA' memX DIM_Y ty ind m n kl ku A lda x incx
  = gbmvn_partial memA memX DIM_Y ty ind m n kl ku A lda x incx.
Proof.
  intros Hagree. unfold gbmvn_partial.
  apply fold_left_ext_in. intros col res _.
  destruct (gbmvn_guard ind m kl ku col) eqn:G; [|reflexivity].
  rewrite (Hagree _ _ (gbmvn_guard_band_cell _ _ _ _ _ G)). reflexivity.
Qed.

Lemma gbmvt_partial_band_only (memA memA' memX : Z -> T)
    DIM_Y is_conj ty ind m n kl ku A lda x incx :
  (forall row col, band_cell m kl ku row col ->
                   memA' (A + (row + col * lda)) = memA (A + (row + col * lda))) ->
  gbmvt_partial memA' memX DIM_Y is_conj ty ind m n kl ku A lda x incx
  = gbmvt_partial memA memX DIM_Y is_conj ty ind m n kl ku A lda x incx.
Proof.
  intros Hagree. unfold gbmvt_partial.
  apply fold_left_ext_in. intros row res _.
  destruct (gbmvt_guard ind m n kl ku row) eqn:G; [|reflexivity].
  rewrite (Hagree _ _ (gbmvt_guard_band_cell _ _ _ _ _ _ G)). reflexivity.
Qed.

Lemma pure_val_fst {X} (c : K X) v s : pure_val c v -> fst (c s) = v.
Proof. intros Hc. destruct (Hc s) as [tr E]. rewrite E. reflexivity. Qed.

Lemma pure_val_mem {X} (c : K X) v s :
  pure_val c v -> ymem (snd (c s)) = ymem s /\ sdata (snd (c s)) = sdata s.
Proof. intros Hc. destruct (Hc s) as [tr E]. rewrite E. split; reflexivity. Qed.

End HelperReads.

(** C6. Whatever thread runs them, the two traversal helpers touch global
    memory only by reading: [x], and cells [A[row + col*lda]] of the banded
    region ([0 <= row <= kl+ku]; [col >= ku-row] and [col < ku-row+m] when
    [row <= ku]; [col < m-(row-ku)] when [row > ku]).  They write nothing
    (neither [A] nor the output nor the shared tile), and the contents of
    the cells outside the region have no influence on the partial sum. *)
Theorem gbmv_helpers_stay_in_band :
  forall (S : Scalar) (memA memX : Z -> T) (DIM_Y : Z) (is_conj : bool)
         (ty ind m n kl ku A lda x incx : Z),
    let helper_n memA :=
      rocblas_gbmvn_kernel_helper memA memX DIM_Y ty ind m n kl ku A lda x incx in
    let helper_t memA :=
      rocblas_gbmvt_kernel_helper memA memX DIM_Y is_conj ty ind m n kl ku A lda x incx in
    emits (band_access m kl ku A lda) (helper_n memA)
    /\ emits (band_access m kl ku A lda) (helper_t memA)
    /\ (forall s, ymem (snd (helper_n memA s)) = ymem s
                  /\ sdata (snd (helper_n memA s)) = sdata s
                  /\ ymem (snd (helper_t memA s)) = ymem s
                  /\ sdata (snd (helper_t memA s)) = sdata s)
    /\ (forall memA' : Z -> T,
          (forall row col, band_cell m kl ku row col ->
                           memA' (A + (row + col * lda)) = memA (A + (row + col * lda))) ->
          forall s, fst (helper_n memA' s) = fst (helper_n memA s)
                    /\ fst (helper_t memA' s) = fst (helper_t memA s)).
Proof.
  intros S memA memX DIM_Y is_conj ty ind m n kl ku A lda x incx helper_n helper_t.
  subst helper_n helper_t. cbv beta.
  split; [|split; [|split]].
  - apply gbmvn_helper_emits.
    + intros col G. exists (ind + (ku - col)), col. split; [reflexivity|].
      apply (gbmvn_guard_band_cell _ _ _ _ _ G).
    + intros a. exact I.
  - apply gbmvt_helper_emits.
    + intros row G. exists row, ind. split; [reflexivity|].
      apply (gbmvt_guard_band_cell _ _ _ _ _ _ G).
    + intros a. exact I.
  - intros s.
    destruct (pure_val_mem _ _ s
                (gbmvn_helper_pure memA memX DIM_Y ty ind m n kl ku A lda x incx)) as [E1 E2].
    destruct (pure_val_mem _ _ s
                (gbmvt_helper_pure memA memX DIM_Y is_conj ty ind m n kl ku A lda x incx))
      as [E3 E4].
    auto.
  - intros memA' Hagree s.
    rewrite !(pure_val_fst _ _ s (gbmvn_helper_pure _ memX DIM_Y ty ind m n kl ku A lda x incx)).
    rewrite !(pure_val_fst _ _ s
                (gbmvt_helper_pure _ memX DIM_Y is_conj ty ind m n kl ku A lda x incx)).
    split.
    + apply gbmvn_partial_band_only; assumption.
    + apply gbmvt_partial_band_only; assumption.
Qed.

(** ** Loops as index lists *)

Lemma loop_indices_In step bound :
  0 < step ->
  forall fuel i c,
    bound - i <= Z.of_nat fuel ->
    (In c (loop_indices fuel i bound step)
     <-> i <= c < bound /\ (c - i) mod step = 0).
Proof.
  intros Hstep. induction fuel as [|fuel IH]; intros i c Hfuel; simpl.
  - split; [tauto|]. lia.
  - destruct (Z.ltb_spec i bound) as [Hlt|Hge].
    + simpl. rewrite IH by lia. split.
      * intros [<-|[Hr Hm]].
        -- rewrite Z.sub_diag. split; [lia|reflexivity].
        -- split; [lia|].
           replace (c - i) with ((c - (i + step)) + 1 * step) by lia.
           rewrite Z.mod_add by lia. exact Hm.
      * intros [Hr Hm].
        destruct (Z.eq_dec i c) as [->|Hne]; [left; reflexivity|right].
        assert (Hd : (c - i) = step * ((c - i) / step))
          by (rewrite (Z.div_mod (c - i) step) at 1 by lia; lia).
        assert (0 < (c - i) / step) by nia.
        split; [nia|].
        replace (c - (i + step)) with ((c - i) + (-1) * step) by lia.
        rewrite Z.mod_add by lia. exact Hm.
    + simpl. split; [tauto|]. lia.
Qed.


(** The fuel of [for_loop] is enough: more of it changes nothing, so the
    loop stops because its test fails and not because it is cut short. *)
Lemma loop_indices_enough step bound :
  0 < step ->
  forall fuel fuel' i,
    bound - i <= Z.of_nat fuel -> bound - i <= Z.of_nat fuel' ->
    loop_indices fuel i bound step = loop_indices fuel' i bound step.
Proof.
  intros Hstep. induction fuel as [|fuel IH]; intros fuel' i Hf Hf'.
  - destruct fuel' as [|fuel']; [reflexivity|]. simpl.
    destruct (Z.ltb_spec i bound); [lia|reflexivity].
  - destruct fuel' as [|fuel']; simpl.
    + destruct (Z.ltb_spec i bound); [lia|reflexivity].
    + destruct (Z.ltb_spec i bound); [|reflexivity].
      f_equal. apply IH; lia.
Qed.

Lemma for_loop_enough `{Scalar} {X} (body : Z -> X -> K X) start bound step fuel acc s :
  0 < step -> bound - start <= Z.of_nat fuel ->
  for_loop_fuel fuel start bound step body acc s
  = for_loop start bound step body acc s.
Proof.
  intros Hstep Hfuel. unfold for_loop. rewrite !for_loop_fuel_fold_m.
  rewrite (loop_indices_enough step bound Hstep fuel (Z.to_nat (bound - start)) start);
    [reflexivity|exact Hfuel|lia].
Qed.

Lemma zrange_In n c : In c (zrange n) <-> 0 <= c < n.
Proof.
  unfold zrange. rewrite in_map_iff. split.
  - intros [k [<- Hk]]. apply in_seq in Hk. lia.
  - intros Hc. exists (Z.to_nat c). split; [lia|]. apply in_seq. lia.
Qed.

Lemma zrange_NoDup n : NoDup (zrange n).
Proof.
  unfold zrange. apply Finite.Injective_map_NoDup; [|apply seq_NoDup].
  intros a b Hab. lia.
Qed.

(** ** One thread *)

Section ThreadFacts.
Context {S : Scalar}.
Variables memA memX : Z -> T.

Lemma dev_eta (s : dev) : mkDev _ (ymem s) (sdata s) (trace s) = s.
Proof. destruct s; reflexivity. Qed.

Lemma bind_eq {X Y} (c : K X) (k : X -> K Y) s x s1 :
  c s = (x, s1) -> bind c k s = k x s1.
Proof. intros E. unfold bind. rewrite E. reflexivity. Qed.

Lemma upd_same (f : Z -> T) a v : upd f a v a = v.
Proof. unfold upd. rewrite Z.eqb_refl. reflexivity. Qed.

Lemma upd_other (f : Z -> T) a v b : b <> a -> upd f a v b = f b.
Proof. intros Hne. unfold upd. destruct (Z.eqb_spec b a); [contradiction|reflexivity]. Qed.

Lemma reduce_loop thread_id DIM_X :
  forall l s,
    (forall i, In i l -> DIM_X * i <> 0) ->
    exists sd',
      fold_m l (fun i (_ : unit) =>
                  a <- load_shared thread_id ;;
                  b <- load_shared (thread_id + DIM_X * i) ;;
                  store_shared thread_id (add a b)) tt s
      = (tt, mkDev _ (ymem s) sd' (trace s))
      /\ sd' thread_id
         = fold_left (fun a i => add a (sdata s (thread_id + DIM_X * i))) l
                     (sdata s thread_id)
      /\ forall j, j <> thread_id -> sd' j = sdata s j.
Proof.
  induction l as [|i l IH]; intros s Hnz.
  - exists (sdata s). simpl. unfold ret. rewrite dev_eta. auto.
  - set (s1 := mkDev _ (ymem s)
                 (upd (sdata s) thread_id
                    (add (sdata s thread_id) (sdata s (thread_id + DIM_X * i))))
                 (trace s)).
    destruct (IH s1) as [sd' [E [Ht Ho]]].
    { intros j Hj. apply Hnz. right; exact Hj. }
    exists sd'. split; [exact E|]. split.
    + rewrite Ht. simpl. rewrite upd_same.
      apply fold_left_ext_in. intros j a Hj.
      rewrite upd_other; [reflexivity|].
      assert (DIM_X * j <> 0) by (apply Hnz; right; exact Hj). lia.
    + intros j Hj. rewrite (Ho j Hj). simpl. apply upd_other. exact Hj.
Qed.

Lemma loop_indices_from_one fuel bound i :
  In i (loop_indices fuel 1 bound 1) -> 1 <= i.
Proof.
  intros Hin.
  assert (Hlow : forall fuel s c, In c (loop_indices fuel s bound 1) -> s <= c).
  { clear. induction fuel as [|fuel IH]; intros s c; simpl; [tauto|].
    destruct (s <? bound); simpl; [|tauto].
    intros [<-|Hin]; [lia|]. apply IH in Hin. lia. }
  apply Hlow in Hin. exact Hin.
Qed.

Lemma kernel_calc_before_nonzero DIM_X DIM_Y blockDim blockIdx threadIdx
      transA m n kl ku alpha A lda x incx beta y incy s :
  truthy alpha = true ->
  exists tr,
    rocblas_gbmvx_kernel_calc memA memX BeforeSync DIM_X DIM_Y blockDim blockIdx
      threadIdx transA m n kl ku alpha A lda x incx beta y incy s
    = (tt, mkDev _ (ymem s)
             (upd (sdata s) (dim_x threadIdx + dim_y threadIdx * DIM_X)
                (tile_partial memA memX DIM_Y transA (dim_y threadIdx)
                   (dim_x blockIdx * DIM_X + dim_x threadIdx)
                   m n kl ku A lda x incx))
             tr).
Proof.
  intros Ha. unfold rocblas_gbmvx_kernel_calc, tile_partial. rewrite Ha.
  destruct (is_none transA).
  - destruct (gbmvn_helper_pure memA memX DIM_Y (dim_y threadIdx)
                (dim_x blockIdx * DIM_X + dim_x threadIdx) m n kl ku A lda x incx s)
      as [tr E].
    exists tr. rewrite (bind_eq _ _ _ _ _ E). reflexivity.
  - destruct (gbmvt_helper_pure memA memX DIM_Y (is_conjugate_transpose transA)
                (dim_y threadIdx) (dim_x blockIdx * DIM_X + dim_x threadIdx)
                m n kl ku A lda x incx s) as [tr E].
    exists tr. rewrite (bind_eq _ _ _ _ _ E). reflexivity.
Qed.

Lemma kernel_calc_before_zero DIM_X DIM_Y blockDim blockIdx threadIdx
      transA m n kl ku alpha A lda x incx beta y incy s :
  truthy alpha = false ->
  rocblas_gbmvx_kernel_calc memA memX BeforeSync DIM_X DIM_Y blockDim blockIdx
    threadIdx transA m n kl ku alpha A lda x incx beta y incy s = (tt, s).
Proof. intros Ha. unfold rocblas_gbmvx_kernel_calc. rewrite Ha. reflexivity. Qed.

Lemma kernel_calc_after_idle DIM_X DIM_Y blockDim blockIdx threadIdx
      transA m n kl ku alpha A lda x incx beta y incy s :
  (dim_x threadIdx + dim_y threadIdx * dim_x blockDim <? DIM_X)
  && (dim_x blockIdx * DIM_X + (dim_x threadIdx + dim_y threadIdx * dim_x blockDim)
      <? (if is_none transA then m else n)) = false ->
  rocblas_gbmvx_kernel_calc memA memX AfterSync DIM_X DIM_Y blockDim blockIdx
    threadIdx transA m n kl ku alpha A lda x incx beta y incy s = (tt, s).
Proof. intros Hc. unfold rocblas_gbmvx_kernel_calc. rewrite Hc. reflexivity. Qed.

Lemma kernel_calc_after_active DIM_X DIM_Y blockDim blockIdx threadIdx
      transA m n kl ku alpha A lda x incx beta y incy s :
  0 < DIM_X ->
  (dim_x threadIdx + dim_y threadIdx * dim_x blockDim <? DIM_X)
  && (dim_x blockIdx * DIM_X + (dim_x threadIdx + dim_y threadIdx * dim_x blockDim)
      <? (if is_none transA then m else n)) = true ->
  exists sd' tr,
    rocblas_gbmvx_kernel_calc memA memX AfterSync DIM_X DIM_Y blockDim blockIdx
      threadIdx transA m n kl ku alpha A lda x incx beta y incy s
    = (tt, mkDev _
             (upd (ymem s)
                (y + (dim_x blockIdx * DIM_X
                      + (dim_x threadIdx + dim_y threadIdx * dim_x blockDim)) * incy)
                (thread_result alpha beta
                   (tile_reduce (sdata s) DIM_X DIM_Y
                      (dim_x threadIdx + dim_y threadIdx * dim_x blockDim))
                   (ymem s
                      (y + (dim_x blockIdx * DIM_X
                            + (dim_x threadIdx + dim_y threadIdx * dim_x blockDim))
                           * incy))))
             sd' tr)
    /\ (forall j, j <> dim_x threadIdx + dim_y threadIdx * dim_x blockDim ->
                  sd' j = sdata s j).
Proof.
  intros HX Hc. unfold rocblas_gbmvx_kernel_calc. rewrite Hc.
  set (tid := dim_x threadIdx + dim_y threadIdx * dim_x blockDim).
  set (ind := dim_x blockIdx * DIM_X + tid).
  unfold thread_result.
  destruct (truthy alpha) eqn:Ha.
  - unfold for_loop.
    destruct (reduce_loop tid DIM_X
                (loop_indices (Z.to_nat (DIM_Y - 1)) 1 DIM_Y 1) s) as [sd' [E [Ht Ho]]].
    { intros i Hi. apply loop_indices_from_one in Hi. nia. }
    rewrite <- for_loop_fuel_fold_m in E.
    rewrite (bind_eq _ _ _ _ _ E).
    unfold tile_reduce. rewrite <- Ht.
    destruct (eqb beta zero); cbn [negb];
      eexists; eexists; (split; [reflexivity|exact Ho]).
  - destruct (eqb beta zero); cbn [negb];
      exists (sdata s); eexists; (split; [reflexivity|reflexivity]).
Qed.

Lemma kernel_enters ph DIM_X DIM_Y blockDim blockIdx threadIdx
      transA m n kl ku alphaa Aa shifta lda strideA xa shiftx incx stridex
      betaa ya shifty incy stridey :
  DIM_X * DIM_Y = num_threads blockDim ->
  negb (truthy alphaa) && eqb betaa one = false ->
  rocblas_gbmvx_kernel memA memX ph DIM_X DIM_Y blockDim blockIdx threadIdx
    transA m n kl ku alphaa Aa shifta lda strideA xa shiftx incx stridex
    betaa ya shifty incy stridey
  = rocblas_gbmvx_kernel_calc memA memX ph DIM_X DIM_Y blockDim blockIdx threadIdx
      transA m n kl ku alphaa
      (cond_load_ptr_batch alphaa Aa (dim_y blockIdx) shifta strideA) lda
      (cond_load_ptr_batch alphaa xa (dim_y blockIdx) shiftx stridex) incx
      betaa (load_ptr_batch ya (dim_y blockIdx) shifty stridey) incy.
Proof.
  intros Hn He. unfold rocblas_gbmvx_kernel, load_scalar.
  fold (num_threads blockDim). rewrite <- Hn, Z.eqb_refl. cbn [negb].
  rewrite He. reflexivity.
Qed.

Lemma kernel_wrong_block ph DIM_X DIM_Y blockDim blockIdx threadIdx
      transA m n kl ku alphaa Aa shifta lda strideA xa shiftx incx stridex
      betaa ya shifty incy stridey s :
  DIM_X * DIM_Y <> num_threads blockDim ->
  rocblas_gbmvx_kernel memA memX ph DIM_X DIM_Y blockDim blockIdx threadIdx
    transA m n kl ku alphaa Aa shifta lda strideA xa shiftx incx stridex
    betaa ya shifty incy stridey s = (tt, s).
Proof.
  intros Hn. unfold rocblas_gbmvx_kernel. fold (num_threads blockDim).
  destruct (Z.eqb_spec (DIM_X * DIM_Y) (num_threads blockDim)); [contradiction|].
  reflexivity.
Qed.

Lemma kernel_identity ph DIM_X DIM_Y blockDim blockIdx threadIdx
      transA m n kl ku alphaa Aa shifta lda strideA xa shiftx incx stridex
      betaa ya shifty incy stridey s :
  eqb alphaa zero = true -> eqb betaa one = true ->
  rocblas_gbmvx_kernel memA memX ph DIM_X DIM_Y blockDim blockIdx threadIdx
    transA m n kl ku alphaa Aa shifta lda strideA xa shiftx incx stridex
    betaa ya shifty incy stridey s = (tt, s).
Proof.
  intros Ha Hb. unfold rocblas_gbmvx_kernel, load_scalar, truthy.
  rewrite Ha, Hb. cbn [negb andb].
  destruct (negb _); reflexivity.
Qed.

End ThreadFacts.

(** ** Sums in exact arithmetic *)

Section SumFacts.
Context {S : Scalar} {L : ScalarLaws S}.








End SumFacts.

(** ** Lists of indices *)

Lemma NoDup_flat_map {I X} (f : I -> list X) (l : list I) :
  NoDup l ->
  (forall i, In i l -> NoDup (f i)) ->
  (forall i j x, In i l -> In j l -> i <> j -> In x (f i) -> In x (f j) -> False) ->
  NoDup (flat_map f l).
Proof.
  induction l as [|i l IH]; intros Hnd Hf Hdis; simpl; [constructor|].
  apply NoDup_cons_iff in Hnd as [Hni Hnd].
  apply NoDup_app.
  - apply Hf. left; reflexivity.
  - apply IH; [exact Hnd| |].
    + intros j Hj. apply Hf. right; exact Hj.
    + intros j k x Hj Hk. apply Hdis; right; assumption.
  - intros x Hx Hin. apply in_flat_map in Hin as [j [Hj Hxj]].
    apply (Hdis i j x); [left; reflexivity|right; exact Hj| |exact Hx|exact Hxj].
    intros ->. contradiction.
Qed.





(** ** The tile value is the banded inner product *)



Section TileValue.
Context {S : Scalar} {L : ScalarLaws S}.
Variables memA memX : Z -> T.




End TileValue.


(** ** Sequences of threads and blocks *)

Section RunFacts.
Context {S : Scalar}.

Lemma for_each_id {I} (body : I -> K unit) (l : list I) :
  (forall k s, In k l -> body k s = (tt, s)) ->
  forall s, for_each l body s = (tt, s).
Proof.
  induction l as [|k l IH]; intros Hb s; simpl; [reflexivity|].
  rewrite (bind_eq _ _ _ _ _ (Hb k s (or_introl eq_refl))).
  apply IH. intros j t Hj. apply Hb. right; exact Hj.
Qed.

Lemma for_each_ext {I} (body body' : I -> K unit) (l : list I) :
  (forall k s, In k l -> body k s = body' k s) ->
  forall s, for_each l body s = for_each l body' s.
Proof.
  induction l as [|k l IH]; intros Hb s; simpl; [reflexivity|].
  unfold bind. rewrite (Hb k s (or_introl eq_refl)).
  destruct (body' k s) as [u s1]. apply IH.
  intros j t Hj. apply Hb. right; exact Hj.
Qed.

Lemma updates_nil (s s' : dev) :
  (forall a, ymem s' a = ymem s a) -> updates [] s s'.
Proof. intros E. split; [intros a f []|intros a _; apply E]. Qed.

Lemma updates_one (s s' : dev) a v (f : T -> T) :
  ymem s' = upd (ymem s) a v -> v = f (ymem s a) -> updates [(a, f)] s s'.
Proof.
  intros E Ev. split.
  - intros b g [Hin|[]]. inversion Hin; subst b g.
    rewrite E, upd_same. exact Ev.
  - intros b Hb. rewrite E. apply upd_other.
    intros ->. apply Hb. left; reflexivity.
Qed.

Lemma updates_app (w1 w2 : list (Z * (T -> T))) (s s1 s2 : dev) :
  updates w1 s s1 -> updates w2 s1 s2 ->
  (forall a, In a (map fst w1) -> In a (map fst w2) -> False) ->
  updates (w1 ++ w2) s s2.
Proof.
  intros [H1 F1] [H2 F2] Hdis. split.
  - intros a f Hin. apply in_app_or in Hin as [Hin|Hin].
    + rewrite F2, (H1 a f Hin); [reflexivity|].
      intros Ha. apply (Hdis a); [|exact Ha].
      apply in_map_iff. exists (a, f). split; [reflexivity|exact Hin].
    + rewrite (H2 a f Hin), F1; [reflexivity|].
      intros Ha. apply (Hdis a); [exact Ha|].
      apply in_map_iff. exists (a, f). split; [reflexivity|exact Hin].
  - intros a Ha. rewrite map_app, in_app_iff in Ha.
    rewrite F2, F1; [reflexivity|tauto|tauto].
Qed.

Lemma updates_from (w : list (Z * (T -> T))) (s t s' : dev) :
  (forall a, ymem s a = ymem t a) -> updates w s s' -> updates w t s'.
Proof.
  intros E [H1 F1]. split.
  - intros a f Hin. rewrite (H1 a f Hin), E. reflexivity.
  - intros a Ha. rewrite (F1 a Ha). apply E.
Qed.

(** Bodies that rewrite pairwise disjoint sets of output cells, run one
    after the other while an invariant over the bodies already run is kept. *)
Lemma for_each_updates_from {I} (Inv : list I -> dev -> Prop) (body : I -> K unit)
    (ws : I -> list (Z * (T -> T))) (l : list I) :
  (forall k1 k2 a, In k1 l -> In k2 l -> k1 <> k2 ->
                   In a (map fst (ws k1)) -> In a (map fst (ws k2)) -> False) ->
  (forall done k s, In k l -> ~ In k done -> Inv done s ->
                    updates (ws k) s (snd (body k s))
                    /\ Inv (k :: done) (snd (body k s))) ->
  forall rest done s,
    NoDup rest ->
    (forall k, In k rest -> In k l /\ ~ In k done) ->
    Inv done s ->
    updates (flat_map ws rest) s (snd (for_each rest body s))
    /\ Inv (rev rest ++ done) (snd (for_each rest body s)).
Proof.
  intros Hdis Hstep.
  induction rest as [|k rest IH]; intros done s Hnd Hrest Hinv.
  - simpl. split; [apply updates_nil; reflexivity|exact Hinv].
  - apply NoDup_cons_iff in Hnd as [Hk Hnd].
    destruct (Hrest k (or_introl eq_refl)) as [Hkl Hkd].
    destruct (Hstep done k s Hkl Hkd Hinv) as [Hu Hi].
    simpl. unfold bind. destruct (body k s) as [u s1]. simpl in Hu, Hi.
    destruct (IH (k :: done) s1 Hnd) as [Hu' Hi']; [|exact Hi|].
    + intros j Hj. destruct (Hrest j (or_intror Hj)) as [Hjl Hjd].
      split; [exact Hjl|]. intros [<-|Hin]; [contradiction|contradiction].
    + split.
      * apply (updates_app _ _ _ _ _ Hu Hu').
        intros a Ha Ha'. rewrite flat_map_concat_map, concat_map, map_map in Ha'.
        apply in_concat in Ha' as [w [Hw Haw]].
        apply in_map_iff in Hw as [j [<- Hj]].
        apply (Hdis k j a Hkl); [apply Hrest; right; exact Hj| |exact Ha|exact Haw].
        intros ->. contradiction.
      * rewrite <- app_assoc. exact Hi'.
Qed.

Lemma for_each_updates {I} (body : I -> K unit) (ws : I -> list (Z * (T -> T)))
    (l : list I) :
  NoDup l ->
  (forall k1 k2 a, In k1 l -> In k2 l -> k1 <> k2 ->
                   In a (map fst (ws k1)) -> In a (map fst (ws k2)) -> False) ->
  (forall k s, In k l -> updates (ws k) s (snd (body k s))) ->
  forall s, updates (flat_map ws l) s (snd (for_each l body s)).
Proof.
  intros Hnd Hdis Hstep s.
  destruct (for_each_updates_from (fun _ _ => True) body ws l Hdis) with
    (rest := l) (done := @nil I) (s := s) as [Hu _]; try exact Hu.
  - intros done k t Hk _ _. split; [apply Hstep; exact Hk|exact Logic.I].
  - exact Hnd.
  - intros k Hk. split; [exact Hk|intros []].
  - exact Logic.I.
Qed.

End RunFacts.

(** ** One block *)

Lemma block_threads_In blockDim t :
  In t (block_threads blockDim)
  <-> 0 <= dim_x t < dim_x blockDim /\ 0 <= dim_y t < dim_y blockDim
      /\ 0 <= dim_z t < dim_z blockDim.
Proof.
  unfold block_threads. rewrite in_flat_map. split.
  - intros [tz [Hz Hin]]. apply in_flat_map in Hin as [ty [Hy Hin]].
    apply in_map_iff in Hin as [tx [<- Hx]].
    apply zrange_In in Hx, Hy, Hz. simpl. lia.
  - intros [Hx [Hy Hz]]. exists (dim_z t). split; [apply zrange_In; exact Hz|].
    apply in_flat_map. exists (dim_y t). split; [apply zrange_In; exact Hy|].
    apply in_map_iff. exists (dim_x t). split; [destruct t; reflexivity|].
    apply zrange_In; exact Hx.
Qed.

Lemma block_threads_NoDup blockDim : NoDup (block_threads blockDim).
Proof.
  unfold block_threads. apply NoDup_flat_map.
  - apply zrange_NoDup.
  - intros tz _. apply NoDup_flat_map.
    + apply zrange_NoDup.
    + intros ty _. apply Finite.Injective_map_NoDup; [|apply zrange_NoDup].
      intros a b E. inversion E. reflexivity.
    + intros ty ty' t _ _ Hne Ht Ht'.
      apply in_map_iff in Ht as [tx [<- _]]. apply in_map_iff in Ht' as [tx' [E _]].
      inversion E. congruence.
  - intros tz tz' t _ _ Hne Ht Ht'.
    apply in_flat_map in Ht as [ty [_ Ht]]. apply in_map_iff in Ht as [tx [<- _]].
    apply in_flat_map in Ht' as [ty' [_ Ht']]. apply in_map_iff in Ht' as [tx' [E _]].
    inversion E. congruence.
Qed.

Lemma flat_map_nil {I X} (l : list I) : flat_map (fun _ : I => @nil X) l = [].
Proof. induction l as [|i l IH]; simpl; [reflexivity|exact IH]. Qed.

Lemma num_threads_tile DIM_X DIM_Y :
  0 < DIM_X -> 0 < DIM_Y -> DIM_X * DIM_Y < 2 ^ 31 ->
  num_threads {| dim_x := DIM_X; dim_y := DIM_Y; dim_z := 1 |} = DIM_X * DIM_Y.
Proof.
  intros HX HY Hlt. unfold num_threads, to_int32, to_u32. cbn [dim_x dim_y dim_z].
  assert (0 < DIM_X * DIM_Y) by nia.
  rewrite Z.mul_1_r, Z.mod_mod by lia.
  rewrite (Z.mod_small (DIM_X * DIM_Y)) by lia.
  rewrite Z.mod_small by lia. lia.
Qed.

Lemma thread_result_zero_alpha `{Scalar} (alpha beta v v' old : T) :
  truthy alpha = false -> thread_result alpha beta v old = thread_result alpha beta v' old.
Proof. intros Ha. unfold thread_result. rewrite Ha. reflexivity. Qed.

Section BlockFacts.
Context {S : Scalar}.
Variables memA memX : Z -> T.
Variables DIM_X DIM_Y : Z.
Variable transA : rocblas_operation.
Variables m n kl ku : Z.
Variable alpha : T.
Variable Aa : batch_ptr.
Variables shifta lda strideA : Z.
Variable xa : batch_ptr.
Variables shiftx incx stridex : Z.
Variable beta : T.
Variable ya : batch_ptr.
Variables shifty incy stridey : Z.
Variable batch_count : Z.

Hypothesis HX : 0 < DIM_X.
Hypothesis HY : 0 < DIM_Y.
Hypothesis HXY : DIM_X * DIM_Y < 2 ^ 31.
Hypothesis Henter : negb (truthy alpha) && eqb beta one = false.
Hypothesis Hinj :
  forall b b' i i',
    0 <= b < batch_count -> 0 <= b' < batch_count ->
    0 <= i < output_length transA m n -> 0 <= i' < output_length transA m n ->
    y_address ya shifty stridey incy b i = y_address ya shifty stridey incy b' i' ->
    b = b' /\ i = i'.

Local Abbreviation blockDim := {| dim_x := DIM_X; dim_y := DIM_Y; dim_z := 1 |}.
Local Abbreviation kernel ph bi t :=
  (rocblas_gbmvx_kernel memA memX ph DIM_X DIM_Y blockDim bi t
     transA m n kl ku alpha Aa shifta lda strideA xa shiftx incx stridex
     beta ya shifty incy stridey).
Local Abbreviation partial_of bi t :=
  (tile_partial memA memX DIM_Y transA (dim_y t) (dim_x bi * DIM_X + dim_x t)
     m n kl ku (load_ptr_batch Aa (dim_y bi) shifta strideA) lda
     (load_ptr_batch xa (dim_y bi) shiftx stridex) incx).

Lemma slot_injective t t' :
  In t (block_threads blockDim) -> In t' (block_threads blockDim) ->
  dim_x t + dim_y t * DIM_X = dim_x t' + dim_y t' * DIM_X -> t = t'.
Proof.
  intros Ht Ht' E. apply block_threads_In in Ht, Ht'. cbn [dim_x dim_y dim_z] in Ht, Ht'.
  assert (dim_y t = dim_y t') by nia.
  destruct t as [tx ty tz], t' as [tx' ty' tz']. cbn [dim_x dim_y dim_z] in *.
  f_equal; nia.
Qed.

(** Up to the barrier: every thread has put its partial sum in its slot. *)
Lemma before_sync_tile bi s :
  truthy alpha = true ->
  let s1 := snd (for_each (block_threads blockDim) (fun t => kernel BeforeSync bi t) s) in
  (forall a, ymem s1 a = ymem s a)
  /\ (forall t, In t (block_threads blockDim) ->
                sdata s1 (dim_x t + dim_y t * DIM_X) = partial_of bi t).
Proof.
  intros Ha s1.
  destruct (for_each_updates_from
              (fun done s' =>
                 forall t, In t done ->
                           In t (block_threads blockDim)
                           /\ sdata s' (dim_x t + dim_y t * DIM_X) = partial_of bi t)
              (fun t => kernel BeforeSync bi t)
              (fun _ => [])
              (block_threads blockDim))
    with (rest := block_threads blockDim) (done := @nil dim3) (s := s) as [Hu Hi].
  - intros k1 k2 a _ _ _ [].
  - intros done k s' Hk Hkd Hinv.
    rewrite kernel_enters by
      (try exact Henter; symmetry; apply num_threads_tile; assumption).
    destruct (kernel_calc_before_nonzero memA memX DIM_X DIM_Y blockDim bi k
                transA m n kl ku alpha
                (cond_load_ptr_batch alpha Aa (dim_y bi) shifta strideA) lda
                (cond_load_ptr_batch alpha xa (dim_y bi) shiftx stridex) incx
                beta (load_ptr_batch ya (dim_y bi) shifty stridey) incy s' Ha)
      as [tr E].
    rewrite E. cbn [snd]. split.
    + apply updates_nil. reflexivity.
    + intros t [<-|Ht].
      * split; [exact Hk|]. cbn [sdata]. rewrite upd_same.
        unfold cond_load_ptr_batch. rewrite Ha. reflexivity.
      * destruct (Hinv t Ht) as [Htl Hts]. split; [exact Htl|].
        cbn [sdata]. rewrite upd_other; [exact Hts|].
        intros E'. apply (slot_injective t k Htl Hk) in E'. subst t. contradiction.
  - apply block_threads_NoDup.
  - intros k Hk. split; [exact Hk|intros []].
  - intros t [].
  - split.
    + intros a. destruct Hu as [_ Hf]. apply Hf. rewrite flat_map_nil. intros [].
    + intros t Ht. apply Hi. rewrite app_nil_r. apply in_rev in Ht. exact Ht.
Qed.

Lemma before_sync_zero bi s :
  truthy alpha = false ->
  for_each (block_threads blockDim) (fun t => kernel BeforeSync bi t) s = (tt, s).
Proof.
  intros Ha. apply for_each_id. intros k s' _.
  rewrite kernel_enters by
    (try exact Henter; symmetry; apply num_threads_tile; assumption).
  apply kernel_calc_before_zero. exact Ha.
Qed.

Lemma writing_thread bx t :
  In t (block_threads blockDim) ->
  writes_output DIM_X blockDim transA m n bx t = true ->
  dim_y t = 0 /\ dim_z t = 0 /\ 0 <= dim_x t < DIM_X
  /\ bx * DIM_X + dim_x t < output_length transA m n.
Proof.
  intros Ht W. apply block_threads_In in Ht. cbn [dim_x dim_y dim_z] in Ht.
  unfold writes_output in W. cbn [dim_x] in W. unfold output_length.
  apply andb_true_iff in W as [W1 W2]. apply Z.ltb_lt in W1, W2.
  assert (dim_y t = 0) by nia. split; [assumption|]. nia.
Qed.


(** After the barrier: the threads of the first tile row reduce their
    column and rewrite their output cell. *)
Lemma after_sync_tile bi s1 :
  0 <= dim_x bi -> 0 <= dim_y bi < batch_count ->
  (truthy alpha = true ->
   forall t, In t (block_threads blockDim) ->
             sdata s1 (dim_x t + dim_y t * DIM_X) = partial_of bi t) ->
  updates
    (block_writes memA memX DIM_X DIM_Y blockDim transA m n kl ku alpha
       Aa shifta lda strideA xa shiftx incx stridex beta ya shifty incy stridey
       (dim_y bi) (dim_x bi))
    s1
    (snd (for_each (block_threads blockDim) (fun t => kernel AfterSync bi t) s1)).
Proof.
  intros Hbx Hby Htile. unfold block_writes.
  destruct (for_each_updates_from
              (fun done s' =>
                 (forall t, In t done -> In t (block_threads blockDim))
                 /\ (forall j,
                       (forall t, In t done ->
                                  writes_output DIM_X blockDim transA m n (dim_x bi) t = true ->
                                  j <> dim_x t + dim_y t * DIM_X) ->
                       sdata s' j = sdata s1 j))
              (fun t => kernel AfterSync bi t)
              (fun t =>
                 if writes_output DIM_X blockDim transA m n (dim_x bi) t
                 then [(y_address ya shifty stridey incy (dim_y bi)
                          (dim_x bi * DIM_X + (dim_x t + dim_y t * dim_x blockDim)),
                        cell_update memA memX DIM_Y transA m n kl ku alpha Aa shifta lda
                          strideA xa shiftx incx stridex beta (dim_y bi)
                          (dim_x bi * DIM_X + (dim_x t + dim_y t * dim_x blockDim)))]
                 else [])
              (block_threads blockDim))
    with (rest := block_threads blockDim) (done := @nil dim3) (s := s1) as [Hu _];
    try exact Hu.
  - (* distinct threads rewrite distinct cells *)
    intros k1 k2 a Hk1 Hk2 Hne Ha1 Ha2.
    destruct (writes_output DIM_X blockDim transA m n (dim_x bi) k1) eqn:W1;
      [|destruct Ha1].
    destruct (writes_output DIM_X blockDim transA m n (dim_x bi) k2) eqn:W2;
      [|destruct Ha2].
    destruct Ha1 as [Ha1|[]]. destruct Ha2 as [Ha2|[]]. cbn [fst dim_x] in Ha1, Ha2.
    destruct (writing_thread _ _ Hk1 W1) as [Hy1 [Hz1 [Hx1 Hl1]]].
    destruct (writing_thread _ _ Hk2 W2) as [Hy2 [Hz2 [Hx2 Hl2]]].
    destruct (Hinj (dim_y bi) (dim_y bi)
                (dim_x bi * DIM_X + (dim_x k1 + dim_y k1 * DIM_X))
                (dim_x bi * DIM_X + (dim_x k2 + dim_y k2 * DIM_X)))
      as [_ E]; try (rewrite ?Hy1, ?Hy2; nia); [congruence|].
    apply Hne. apply (slot_injective k1 k2 Hk1 Hk2). lia.
  - (* one thread *)
    intros done k s Hk Hkd [Hdone Hsd].
    rewrite kernel_enters by
      (try exact Henter; symmetry; apply num_threads_tile; assumption).
    destruct (writes_output DIM_X blockDim transA m n (dim_x bi) k) eqn:W.
    + destruct (writing_thread _ _ Hk W) as [Hy0 [Hz0 [Hx0 Hl0]]].
      pose proof W as W'. unfold writes_output in W'.
      destruct (kernel_calc_after_active memA memX DIM_X DIM_Y blockDim bi k
                  transA m n kl ku alpha
                  (cond_load_ptr_batch alpha Aa (dim_y bi) shifta strideA) lda
                  (cond_load_ptr_batch alpha xa (dim_y bi) shiftx stridex) incx
                  beta (load_ptr_batch ya (dim_y bi) shifty stridey) incy s HX W')
        as [sd' [tr [E Ho]]].
      rewrite E. cbn [snd]. split.
      * eapply updates_one; [reflexivity|].
        unfold cell_update. cbn [dim_x].
        destruct (truthy alpha) eqn:Ha; [|apply thread_result_zero_alpha; exact Ha].
        f_equal. unfold tile_reduce, tile_value.
        rewrite Hy0. replace (dim_x k + 0 * DIM_X) with (dim_x k) by lia.
        assert (Hkeep : forall j, (DIM_X <= j \/ j = dim_x k) -> sdata s j = sdata s1 j).
        { intros j Hj. apply Hsd. intros t Ht Wt Ej.
          destruct (writing_thread _ _ (Hdone t Ht) Wt) as [Hyt [Hzt [Hxt _]]].
          destruct Hj as [Hj|Hj]; [nia|].
          apply Hkd. replace k with t; [exact Ht|].
          apply (slot_injective t k (Hdone t Ht) Hk). nia. }
        rewrite (fold_left_ext_in
                   (fun a i => add a (sdata s (dim_x k + DIM_X * i)))
                   (fun a i => add a (tile_partial memA memX DIM_Y transA i
                                        (dim_x bi * DIM_X + dim_x k) m n kl ku
                                        (load_ptr_batch Aa (dim_y bi) shifta strideA) lda
                                        (load_ptr_batch xa (dim_y bi) shiftx stridex) incx))).
        -- f_equal. rewrite Hkeep by (right; reflexivity).
           pose proof (Htile eq_refl k Hk) as Hk1. rewrite Hy0 in Hk1.
           replace (dim_x k + 0 * DIM_X) with (dim_x k) in Hk1 by lia.
           exact Hk1.
        -- intros i a Hi. f_equal.
           apply loop_indices_In in Hi; [|lia|lia].
           rewrite Hkeep by (left; nia).
           rewrite (Z.mul_comm DIM_X i).
           apply (Htile eq_refl {| dim_x := dim_x k; dim_y := i; dim_z := 0 |}).
           apply block_threads_In. cbn [dim_x dim_y dim_z]. lia.
      * split.
        -- intros t [<-|Ht]; [exact Hk|apply Hdone; exact Ht].
        -- intros j Hj. cbn [sdata]. rewrite Ho.
           ++ apply Hsd. intros t Ht. apply Hj. right; exact Ht.
           ++ cbn [dim_x]. apply Hj; [left; reflexivity|exact W].
    + rewrite kernel_calc_after_idle by exact W. cbn [snd]. split.
      * apply updates_nil. reflexivity.
      * split.
        -- intros t [<-|Ht]; [exact Hk|apply Hdone; exact Ht].
        -- intros j Hj. apply Hsd. intros t Ht. apply Hj. right; exact Ht.
  - apply block_threads_NoDup.
  - intros k Hk. split; [exact Hk|intros []].
  - split; [intros t []|]. intros j _. reflexivity.
Qed.

Local Abbreviation the_launch g :=
  (mkLaunch _ g blockDim
     (fun memA' memX' ph bd bi t =>
        rocblas_gbmvx_kernel memA' memX' ph DIM_X DIM_Y bd bi t
          transA m n kl ku alpha Aa shifta lda strideA xa shiftx incx stridex
          beta ya shifty incy stridey)).
Local Abbreviation writes_of by_ bx :=
  (block_writes memA memX DIM_X DIM_Y blockDim transA m n kl ku alpha
     Aa shifta lda strideA xa shiftx incx stridex beta ya shifty incy stridey by_ bx).

Lemma exec_block_updates g bi s :
  0 <= dim_x bi -> 0 <= dim_y bi < batch_count ->
  updates (writes_of (dim_y bi) (dim_x bi)) s
          (snd (exec_block memA memX (the_launch g) bi s)).
Proof.
  intros Hbx Hby. unfold exec_block. cbn [kern threads].
  destruct (bool_dec (truthy alpha) true) as [Ha|Ha];
    [|apply not_true_is_false in Ha].
  - destruct (before_sync_tile bi s Ha) as [Hy Htile].
    unfold bind.
    destruct (for_each (block_threads blockDim) (fun t => kernel BeforeSync bi t) s)
      as [u s1].
    cbn [snd] in Hy, Htile.
    apply (updates_from _ s1 s); [exact Hy|].
    apply after_sync_tile; [exact Hbx|exact Hby|]. intros _. exact Htile.
  - rewrite (bind_eq _ _ _ _ _ (before_sync_zero bi s Ha)).
    apply after_sync_tile; [exact Hbx|exact Hby|]. intros Ha'. congruence.
Qed.

Lemma block_writes_addr by_ bx a :
  In a (map fst (writes_of by_ bx)) ->
  exists i, bx * DIM_X <= i < (bx + 1) * DIM_X /\ i < output_length transA m n
            /\ a = y_address ya shifty stridey incy by_ i.
Proof.
  unfold block_writes. intros Hin.
  apply in_map_iff in Hin as [[a' f] [Ea Hin]]. cbn [fst] in Ea. subst a'.
  apply in_flat_map in Hin as [t [Ht Hin]].
  destruct (writes_output DIM_X blockDim transA m n bx t) eqn:W; [|destruct Hin].
  destruct Hin as [Hin|[]]. inversion Hin; subst a.
  destruct (writing_thread _ _ Ht W) as [Hy0 [Hz0 [Hx0 Hl0]]].
  exists (bx * DIM_X + (dim_x t + dim_y t * DIM_X)). cbn [dim_x].
  rewrite Hy0. split; [nia|]. split; [|reflexivity]. nia.
Qed.

Lemma block_writes_cell by_ i :
  0 <= i < output_length transA m n ->
  In (y_address ya shifty stridey incy by_ i,
      cell_update memA memX DIM_Y transA m n kl ku alpha Aa shifta lda strideA
        xa shiftx incx stridex beta by_ i)
     (writes_of by_ (i / DIM_X)).
Proof.
  intros Hi. unfold block_writes. apply in_flat_map.
  exists {| dim_x := i mod DIM_X; dim_y := 0; dim_z := 0 |}.
  pose proof (Z.mod_pos_bound i DIM_X HX) as Hm.
  pose proof (Z.div_mod i DIM_X ltac:(lia)) as Hd.
  split; [apply block_threads_In; cbn [dim_x dim_y dim_z]; lia|].
  unfold writes_output. cbn [dim_x dim_y].
  replace (i / DIM_X * DIM_X + (i mod DIM_X + 0 * DIM_X)) with i by lia.
  unfold output_length in Hi.
  destruct (Z.ltb_spec (i mod DIM_X + 0 * DIM_X) DIM_X); [|lia].
  destruct (Z.ltb_spec i (if is_none transA then m else n)); [|lia].
  left. reflexivity.
Qed.

(** The whole grid of a launch with the tile's block shape. *)
Lemma exec_launch_updates gx gy gz s :
  0 <= gy <= batch_count ->
  updates
    (flat_map (fun by_ => flat_map (fun bx => writes_of by_ bx) (zrange gx)) (zrange gy))
    s
    (snd (exec_launch memA memX
            (the_launch {| dim_x := gx; dim_y := gy; dim_z := gz |}) s)).
Proof.
  intros Hgy. unfold exec_launch. cbn [grid dim_x dim_y].
  apply for_each_updates.
  - apply zrange_NoDup.
  - intros b b' a Hb Hb' Hne Ha Ha'.
    apply zrange_In in Hb, Hb'.
    rewrite flat_map_concat_map, concat_map, map_map in Ha, Ha'.
    apply in_concat in Ha as [w [Hw Ha]]. apply in_map_iff in Hw as [bx [<- Hbx]].
    apply in_concat in Ha' as [w' [Hw' Ha']]. apply in_map_iff in Hw' as [bx' [<- Hbx']].
    apply zrange_In in Hbx, Hbx'.
    apply block_writes_addr in Ha as [i [Hi [Hl ->]]].
    apply block_writes_addr in Ha' as [i' [Hi' [Hl' E]]].
    destruct (Hinj b b' i i') as [Eb _]; try exact E; try lia; try nia.
  - intros b t Hb. apply zrange_In in Hb.
    apply for_each_updates.
    + apply zrange_NoDup.
    + intros bx bx' a Hbx Hbx' Hne Ha Ha'.
      apply zrange_In in Hbx, Hbx'.
      apply block_writes_addr in Ha as [i [Hi [Hl ->]]].
      apply block_writes_addr in Ha' as [i' [Hi' [Hl' E]]].
      destruct (Hinj b b i i') as [_ Ei]; try exact E; try lia; try nia.
    + intros bx t' Hbx. apply zrange_In in Hbx.
      apply (exec_block_updates _ {| dim_x := bx; dim_y := b; dim_z := 0 |});
        cbn [dim_x dim_y]; lia.
Qed.

Lemma exec_launch_cell gx gy gz s b i :
  0 <= gy <= batch_count ->
  0 <= b < gy -> 0 <= i < output_length transA m n -> i < gx * DIM_X ->
  ymem (snd (exec_launch memA memX
               (the_launch {| dim_x := gx; dim_y := gy; dim_z := gz |}) s))
       (y_address ya shifty stridey incy b i)
  = cell_update memA memX DIM_Y transA m n kl ku alpha Aa shifta lda strideA
      xa shiftx incx stridex beta b i (ymem s (y_address ya shifty stridey incy b i)).
Proof.
  intros Hgy Hb Hi Hgx.
  destruct (exec_launch_updates gx gy gz s Hgy) as [Hw _].
  apply Hw. apply in_flat_map. exists b. split; [apply zrange_In; exact Hb|].
  apply in_flat_map. exists (i / DIM_X). split.
  - apply zrange_In. split; [apply Z.div_pos; lia|].
    apply Z.div_lt_upper_bound; lia.
  - apply block_writes_cell. exact Hi.
Qed.

Lemma exec_launch_frame gx gy gz s a :
  0 <= gy <= batch_count ->
  (forall b i, 0 <= b < gy -> 0 <= i < output_length transA m n ->
               a <> y_address ya shifty stridey incy b i) ->
  ymem (snd (exec_launch memA memX
               (the_launch {| dim_x := gx; dim_y := gy; dim_z := gz |}) s)) a
  = ymem s a.
Proof.
  intros Hgy Ha.
  destruct (exec_launch_updates gx gy gz s Hgy) as [_ Hf].
  apply Hf. intros Hin.
  rewrite flat_map_concat_map, concat_map, map_map in Hin.
  apply in_concat in Hin as [w [Hw Hin]]. apply in_map_iff in Hw as [b [<- Hb]].
  rewrite flat_map_concat_map, concat_map, map_map in Hin.
  apply in_concat in Hin as [w [Hw Hin]]. apply in_map_iff in Hw as [bx [<- Hbx]].
  apply zrange_In in Hb, Hbx.
  apply block_writes_addr in Hin as [i [Hi [Hl E]]].
  apply (Ha b i); [lia|nia|exact E].
Qed.

End BlockFacts.

(** ** The launcher and the stream *)

Lemma exec_launch_noop `{Scalar} (memA memX : Z -> T) (l : launch) :
  (forall ph bi t s, kern l memA memX ph (threads l) bi t s = (tt, s)) ->
  forall s, exec_launch memA memX l s = (tt, s).
Proof.
  intros Hk s. unfold exec_launch.
  apply for_each_id. intros by_ s1 _.
  apply for_each_id. intros bx s2 _.
  unfold exec_block.
  rewrite (bind_eq _ _ _ tt s2).
  - apply for_each_id. intros t s3 _. apply Hk.
  - apply for_each_id. intros t s3 _. apply Hk.
Qed.

Lemma run_stream_one `{Scalar} (memA memX : Z -> T) (l : launch) s :
  snd (run_stream memA memX [l] s) = snd (exec_launch memA memX l s).
Proof.
  unfold run_stream. simpl. unfold bind.
  destruct (exec_launch memA memX l s) as [u s1]. reflexivity.
Qed.

Lemma blocks_cover len :
  0 < len < 2 ^ 31 ->
  to_u32 (Z.quot (len - 1) GBMVX_DIM_X + 1) = (len - 1) / GBMVX_DIM_X + 1
  /\ len <= ((len - 1) / GBMVX_DIM_X + 1) * GBMVX_DIM_X.
Proof.
  intros Hlen. unfold GBMVX_DIM_X, to_u32.
  rewrite Z.quot_div_nonneg by lia.
  pose proof (Z.div_mod (len - 1) 64 ltac:(lia)) as Hd.
  pose proof (Z.mod_pos_bound (len - 1) 64 ltac:(lia)) as Hm.
  assert (0 <= (len - 1) / 64 < 2 ^ 31) by (split; [apply Z.div_pos; lia|apply Z.div_lt_upper_bound; lia]).
  split; [apply Z.mod_small; lia|lia].
Qed.

Lemma gbmv_run_identity `{Scalar} (memA memX : Z -> T)
    handle transA m n kl ku alpha A offseta lda strideA
    x offsetx incx stridex beta y offsety incy stridey batch_count s :
  negb (truthy alpha) && eqb beta one = true ->
  gbmv_run memA memX handle transA m n kl ku alpha A offseta lda strideA
    x offsetx incx stridex beta y offsety incy stridey batch_count s
  = (rocblas_status_success, s).
Proof.
  intros Hid. unfold gbmv_run, rocblas_internal_gbmv_launcher.
  destruct ((m =? 0) || (n =? 0) || (batch_count =? 0)); [reflexivity|].
  rewrite Hid.
  destruct (pointer_mode handle); [reflexivity|].
  rewrite run_stream_one, exec_launch_noop; [reflexivity|].
  intros ph bi t s'. cbn [kern threads].
  apply andb_true_iff in Hid as [Ea Eb].
  unfold truthy in Ea. rewrite negb_involutive in Ea.
  apply kernel_identity; assumption.
Qed.

(** What a call that reaches the kernel does to the output cells; no law
    of arithmetic is involved. *)
Lemma gbmv_run_cells `{Scalar} (memA memX : Z -> T)
    handle transA m n kl ku alpha A offseta lda strideA
    x offsetx incx stridex beta y offsety incy stridey batch_count s :
  0 < m < 2 ^ 31 -> 0 < n < 2 ^ 31 -> 0 < batch_count < 2 ^ 31 ->
  negb (truthy alpha) && eqb beta one = false ->
  (forall b b' i i',
      0 <= b < batch_count -> 0 <= b' < batch_count ->
      0 <= i < output_length transA m n -> 0 <= i' < output_length transA m n ->
      y_address y (gbmv_shifty transA m n offsety incy) stridey incy b i
      = y_address y (gbmv_shifty transA m n offsety incy) stridey incy b' i' ->
      b = b' /\ i = i') ->
  let r := gbmv_run memA memX handle transA m n kl ku alpha A offseta lda strideA
             x offsetx incx stridex beta y offsety incy stridey batch_count s in
  fst r = rocblas_status_success
  /\ (forall b i,
        0 <= b < batch_count -> 0 <= i < output_length transA m n ->
        ymem (snd r) (y_address y (gbmv_shifty transA m n offsety incy) stridey incy b i)
        = cell_update memA memX GBMVX_DIM_Y transA m n kl ku alpha A offseta lda strideA
            x (gbmv_shiftx transA m n offsetx incx) incx stridex beta b i
            (ymem s (y_address y (gbmv_shifty transA m n offsety incy) stridey incy b i)))
  /\ (forall a,
        (forall b i, 0 <= b < batch_count -> 0 <= i < output_length transA m n ->
                     a <> y_address y (gbmv_shifty transA m n offsety incy)
                            stridey incy b i) ->
        ymem (snd r) a = ymem s a).
Proof.
  intros Hm Hn Hb Henter Hinj r.
  assert (Hlen : 0 < output_length transA m n < 2 ^ 31)
    by (unfold output_length; destruct (is_none transA); assumption).
  destruct (blocks_cover _ Hlen) as [Hblocks Hcover].
  assert (HX : 0 < GBMVX_DIM_X) by reflexivity.
  assert (HY : 0 < GBMVX_DIM_Y) by reflexivity.
  assert (HXY : GBMVX_DIM_X * GBMVX_DIM_Y < 2 ^ 31) by reflexivity.
  assert (Er : r = (rocblas_status_success,
            snd (exec_launch memA memX
                   (mkLaunch _ {| dim_x := (output_length transA m n - 1) / GBMVX_DIM_X + 1;
                                  dim_y := batch_count; dim_z := 1 |}
                      {| dim_x := GBMVX_DIM_X; dim_y := GBMVX_DIM_Y; dim_z := 1 |}
                      (fun memA' memX' ph blockDim blockIdx threadIdx =>
                         rocblas_gbmvx_kernel memA' memX' ph GBMVX_DIM_X GBMVX_DIM_Y
                           blockDim blockIdx threadIdx transA m n kl ku alpha A offseta lda
                           strideA x (gbmv_shiftx transA m n offsetx incx) incx stridex beta
                           y (gbmv_shifty transA m n offsety incy) incy stridey)) s))).
  { subst r. unfold gbmv_run, rocblas_internal_gbmv_launcher.
    destruct (Z.eqb_spec m 0); [lia|]. destruct (Z.eqb_spec n 0); [lia|].
    destruct (Z.eqb_spec batch_count 0); [lia|]. cbn [orb].
    fold (gbmv_shiftx transA m n offsetx incx) (gbmv_shifty transA m n offsety incy).
    fold (output_length transA m n).
    rewrite Henter.
    destruct (pointer_mode handle); rewrite run_stream_one; unfold mk_dim3;
      rewrite Hblocks; unfold to_u32 at 1;
      rewrite (Z.mod_small batch_count) by lia; reflexivity. }
  rewrite Er. cbn [fst snd]. split; [reflexivity|]. split.
  - intros b i Hbb Hi.
    apply (exec_launch_cell memA memX GBMVX_DIM_X GBMVX_DIM_Y transA m n kl ku
             alpha A offseta lda strideA x (gbmv_shiftx transA m n offsetx incx)
             incx stridex beta y (gbmv_shifty transA m n offsety incy) incy stridey
             batch_count HX HY HXY Henter Hinj); lia.
  - intros a Ha.
    apply (exec_launch_frame memA memX GBMVX_DIM_X GBMVX_DIM_Y transA m n kl ku
             alpha A offseta lda strideA x (gbmv_shiftx transA m n offsetx incx)
             incx stridex beta y (gbmv_shifty transA m n offsety incy) incy stridey
             batch_count HX HY HXY Henter Hinj); [lia|exact Ha].
Qed.


(** ** What a call reads and writes *)

Section KernelAccesses.
Context {S : Scalar}.
Variables memA memX : Z -> T.

Lemma kernel_calc_emits (P : event -> Prop) ph DIM_X DIM_Y blockDim blockIdx threadIdx
      transA m n kl ku alpha A lda x incx beta y incy :
  (truthy alpha = true -> forall a, P (Rd BufA a)) ->
  (truthy alpha = true -> forall a, P (Rd BufX a)) ->
  (eqb beta zero = false -> forall a, P (Rd BufY a)) ->
  (forall a, P (Wr BufY a)) ->
  emits P (rocblas_gbmvx_kernel_calc memA memX ph DIM_X DIM_Y blockDim blockIdx threadIdx
             transA m n kl ku alpha A lda x incx beta y incy).
Proof.
  intros HA HX HY HW. unfold rocblas_gbmvx_kernel_calc. destruct ph.
  - destruct (truthy alpha) eqn:Ha; [|apply emits_ret].
    apply emits_bind; [|intros res; apply emits_store_shared].
    destruct (is_none transA).
    + apply gbmvn_helper_emits; intros; [apply HA|apply HX]; reflexivity.
    + apply gbmvt_helper_emits; intros; [apply HA|apply HX]; reflexivity.
  - destruct (_ && _); [|apply emits_ret].
    apply emits_bind.
    + destruct (truthy alpha); [|apply emits_ret].
      apply emits_for_loop. intros i u. emits_walk.
    + intros _. destruct (eqb beta zero) eqn:Hb; cbn [negb];
        destruct (truthy alpha); emits_walk; auto.
Qed.

Lemma kernel_emits (P : event -> Prop) ph DIM_X DIM_Y blockDim blockIdx threadIdx
      transA m n kl ku alphaa Aa shifta lda strideA xa shiftx incx stridex
      betaa ya shifty incy stridey :
  (truthy alphaa = true -> forall a, P (Rd BufA a)) ->
  (truthy alphaa = true -> forall a, P (Rd BufX a)) ->
  (eqb betaa zero = false -> forall a, P (Rd BufY a)) ->
  (forall a, P (Wr BufY a)) ->
  emits P (rocblas_gbmvx_kernel memA memX ph DIM_X DIM_Y blockDim blockIdx threadIdx
             transA m n kl ku alphaa Aa shifta lda strideA xa shiftx incx stridex
             betaa ya shifty incy stridey).
Proof.
  intros HA HX HY HW. unfold rocblas_gbmvx_kernel, load_scalar.
  destruct (negb (_ =? _)); [apply emits_ret|].
  destruct (_ && _); [apply emits_ret|].
  apply kernel_calc_emits; assumption.
Qed.

Lemma exec_launch_emits (P : event -> Prop) (l : launch) :
  (forall ph bi t, emits P (kern l memA memX ph (threads l) bi t)) ->
  emits P (exec_launch memA memX l).
Proof.
  intros Hk. unfold exec_launch.
  apply emits_for_each. intros by_ _. apply emits_for_each. intros bx _.
  unfold exec_block. apply emits_bind; [|intros _]; apply emits_for_each; intros t _; apply Hk.
Qed.

Lemma gbmv_stream_emits (P : event -> Prop)
      handle transA m n kl ku alpha A offseta lda strideA
      x offsetx incx stridex beta y offsety incy stridey batch_count :
  (truthy alpha = true -> forall a, P (Rd BufA a)) ->
  (truthy alpha = true -> forall a, P (Rd BufX a)) ->
  (eqb beta zero = false -> forall a, P (Rd BufY a)) ->
  (forall a, P (Wr BufY a)) ->
  emits P (run_stream memA memX
             (snd (rocblas_internal_gbmv_launcher handle transA m n kl ku alpha
                     A offseta lda strideA x offsetx incx stridex beta
                     y offsety incy stridey batch_count))).
Proof.
  intros HA HX HY HW. unfold run_stream, rocblas_internal_gbmv_launcher.
  destruct (_ || _); [apply emits_ret|].
  assert (Hl : forall g bd sx sy,
            emits P (exec_launch memA memX
              (mkLaunch _ g bd
                 (fun memA' memX' ph blockDim blockIdx threadIdx =>
                    rocblas_gbmvx_kernel memA' memX' ph GBMVX_DIM_X GBMVX_DIM_Y
                      blockDim blockIdx threadIdx transA m n kl ku alpha A offseta lda
                      strideA x sx incx stridex beta y sy incy stridey)))).
  { intros g bd sx sy. apply exec_launch_emits. intros ph bi t. cbn [kern threads].
    apply kernel_emits; assumption. }
  destruct (pointer_mode handle); [destruct (_ && _); [apply emits_ret|]|];
    cbn [snd for_each]; (apply emits_bind; [apply Hl|intros _; apply emits_ret]).
Qed.

End KernelAccesses.

(** C2. With [beta == 0] a thread that writes [y[i]] stores a pure zero
    when alpha is zero and alpha times its reduced partial sum otherwise;
    no access of the whole call is a read of [y]; and on a valid problem
    the cells [y[i]] the call leaves are the same whatever the output
    buffer held before (a NaN or Inf in it cannot reach the result). *)
Theorem gbmv_beta_zero_never_reads_y :
  forall (S : Scalar) (memA memX : Z -> T)
         (handle : rocblas_handle_t) (transA : rocblas_operation)
         (m n kl ku : Z) (alpha : T) (A : batch_ptr) (offseta lda strideA : Z)
         (x : batch_ptr) (offsetx incx stridex : Z) (beta : T)
         (y : batch_ptr) (offsety incy stridey batch_count : Z),
    eqb beta zero = true ->
    (forall DIM_X DIM_Y blockDim blockIdx threadIdx Ap xp yp (s : dev),
        0 < DIM_X ->
        writes_output DIM_X blockDim transA m n (dim_x blockIdx) threadIdx = true ->
        exists sd' tr,
          rocblas_gbmvx_kernel_calc memA memX AfterSync DIM_X DIM_Y blockDim blockIdx
            threadIdx transA m n kl ku alpha Ap lda xp incx beta yp incy s
          = (tt, mkDev _
                   (upd (ymem s)
                      (yp + (dim_x blockIdx * DIM_X
                             + (dim_x threadIdx + dim_y threadIdx * dim_x blockDim)) * incy)
                      (if truthy alpha
                       then mul alpha
                              (tile_reduce (sdata s) DIM_X DIM_Y
                                 (dim_x threadIdx + dim_y threadIdx * dim_x blockDim))
                       else zero))
                   sd' tr))
    /\ emits (fun e => forall a, e <> Rd BufY a)
         (run_stream memA memX
            (snd (rocblas_internal_gbmv_launcher handle transA m n kl ku alpha
                    A offseta lda strideA x offsetx incx stridex beta
                    y offsety incy stridey batch_count)))
    /\ (0 < m < 2 ^ 31 -> 0 < n < 2 ^ 31 -> 0 < batch_count < 2 ^ 31 ->
        eqb beta one = false ->
        (forall b b' i i',
            0 <= b < batch_count -> 0 <= b' < batch_count ->
            0 <= i < output_length transA m n -> 0 <= i' < output_length transA m n ->
            y_address y (gbmv_shifty transA m n offsety incy) stridey incy b i
            = y_address y (gbmv_shifty transA m n offsety incy) stridey incy b' i' ->
            b = b' /\ i = i') ->
        forall (s s' : dev) b i,
          0 <= b < batch_count -> 0 <= i < output_length transA m n ->
          ymem (snd (gbmv_run memA memX handle transA m n kl ku alpha A offseta lda
                       strideA x offsetx incx stridex beta y offsety incy stridey
                       batch_count s))
               (y_address y (gbmv_shifty transA m n offsety incy) stridey incy b i)
          = ymem (snd (gbmv_run memA memX handle transA m n kl ku alpha A offseta lda
                         strideA x offsetx incx stridex beta y offsety incy stridey
                         batch_count s'))
                 (y_address y (gbmv_shifty transA m n offsety incy) stridey incy b i)).
Proof.
  intros S memA memX handle transA m n kl ku alpha A offseta lda strideA
         x offsetx incx stridex beta y offsety incy stridey batch_count Hb0.
  split; [|split].
  - intros DIM_X DIM_Y blockDim blockIdx threadIdx Ap xp yp s HX W.
    unfold writes_output in W.
    destruct (kernel_calc_after_active memA memX DIM_X DIM_Y blockDim blockIdx threadIdx
                transA m n kl ku alpha Ap lda xp incx beta yp incy s HX W)
      as [sd' [tr [E _]]].
    exists sd', tr. rewrite E. unfold thread_result. rewrite Hb0. reflexivity.
  - apply gbmv_stream_emits.
    + intros _ a a' E. discriminate E.
    + intros _ a a' E. discriminate E.
    + intros Hb. congruence.
    + intros a a' E. discriminate E.
  - intros Hm Hn Hb Hb1 Hinj s s' b i Hbb Hi.
    assert (Henter : negb (truthy alpha) && eqb beta one = false)
      by (rewrite Hb1; apply andb_false_r).
    destruct (gbmv_run_cells memA memX handle transA m n kl ku alpha A offseta lda
                strideA x offsetx incx stridex beta y offsety incy stridey batch_count s
                Hm Hn Hb Henter Hinj) as [_ [Hcell _]].
    destruct (gbmv_run_cells memA memX handle transA m n kl ku alpha A offseta lda
                strideA x offsetx incx stridex beta y offsety incy stridey batch_count s'
                Hm Hn Hb Henter Hinj) as [_ [Hcell' _]].
    rewrite (Hcell b i Hbb Hi), (Hcell' b i Hbb Hi).
    unfold cell_update, thread_result. rewrite Hb0. reflexivity.
Qed.

(** C3. With [alpha == 0] and [beta == 1] the call is the identity: in
    host pointer mode the launcher returns success with nothing put on the
    stream; a kernel thread that has loaded these scalars returns at once;
    and in either mode the device is left exactly as it was. *)
Theorem gbmv_alpha_zero_beta_one_is_identity :
  forall (S : Scalar) (memA memX : Z -> T)
         (handle : rocblas_handle_t) (transA : rocblas_operation)
         (m n kl ku : Z) (alpha : T) (A : batch_ptr) (offseta lda strideA : Z)
         (x : batch_ptr) (offsetx incx stridex : Z) (beta : T)
         (y : batch_ptr) (offsety incy stridey batch_count : Z),
    eqb alpha zero = true -> eqb beta one = true ->
    (pointer_mode handle = rocblas_pointer_mode_host ->
     rocblas_internal_gbmv_launcher handle transA m n kl ku alpha A offseta lda strideA
       x offsetx incx stridex beta y offsety incy stridey batch_count
     = (rocblas_status_success, []))
    /\ (forall ph DIM_X DIM_Y blockDim blockIdx threadIdx shiftx shifty (s : dev),
          rocblas_gbmvx_kernel memA memX ph DIM_X DIM_Y blockDim blockIdx threadIdx
            transA m n kl ku alpha A offseta lda strideA x shiftx incx stridex
            beta y shifty incy stridey s = (tt, s))
    /\ (forall s : dev,
          gbmv_run memA memX handle transA m n kl ku alpha A offseta lda strideA
            x offsetx incx stridex beta y offsety incy stridey batch_count s
          = (rocblas_status_success, s)).
Proof.
  intros S memA memX handle transA m n kl ku alpha A offseta lda strideA
         x offsetx incx stridex beta y offsety incy stridey batch_count Ha Hb.
  assert (Hid : negb (truthy alpha) && eqb beta one = true)
    by (unfold truthy; rewrite Ha, Hb; reflexivity).
  split; [|split].
  - intros Hmode. unfold rocblas_internal_gbmv_launcher.
    destruct (_ || _); [reflexivity|]. rewrite Hmode, Hid. reflexivity.
  - intros. apply kernel_identity; assumption.
  - intros s. apply gbmv_run_identity. exact Hid.
Qed.

Lemma num_threads_small blockDim :
  0 <= dim_x blockDim -> 0 <= dim_y blockDim -> 0 <= dim_z blockDim ->
  dim_x blockDim * dim_y blockDim * dim_z blockDim < 2 ^ 31 ->
  num_threads blockDim = dim_x blockDim * dim_y blockDim * dim_z blockDim.
Proof.
  intros Hx Hy Hz Hlt. unfold num_threads, to_int32, to_u32.
  rewrite Z.mul_mod_idemp_l by lia.
  assert (0 <= dim_x blockDim * dim_y blockDim * dim_z blockDim) by nia.
  rewrite (Z.mod_small (dim_x blockDim * dim_y blockDim * dim_z blockDim)) by lia.
  rewrite Z.mod_small by lia. lia.
Qed.

(** The count is taken modulo [2 ^ 32]: a block of [2 ^ 32 + 1024] threads
    would count as 1024.  No device runs such a block; the statement
    below is about thread counts in the range of [rocblas_int]. *)
Example num_threads_wraps :
  num_threads {| dim_x := 1024; dim_y := 4194305; dim_z := 1 |} = 1024.
Proof. reflexivity. Qed.

(** C9. A block whose thread count (within the range of [rocblas_int])
    differs from [DIM_X * DIM_Y] does nothing: each of its threads returns
    before any access, whatever the phase, and a whole launch with such
    blocks leaves the device as it was, trace included.  The kernel has no
    status to return. *)
Theorem gbmvx_kernel_other_block_size_is_noop :
  forall (S : Scalar) (memA memX : Z -> T) (DIM_X DIM_Y : Z) (blockDim : dim3)
         (transA : rocblas_operation) (m n kl ku : Z) (alphaa : T)
         (Aa : batch_ptr) (shifta lda strideA : Z)
         (xa : batch_ptr) (shiftx incx stridex : Z) (betaa : T)
         (ya : batch_ptr) (shifty incy stridey : Z),
    0 <= dim_x blockDim -> 0 <= dim_y blockDim -> 0 <= dim_z blockDim ->
    dim_x blockDim * dim_y blockDim * dim_z blockDim < 2 ^ 31 ->
    dim_x blockDim * dim_y blockDim * dim_z blockDim <> DIM_X * DIM_Y ->
    (forall ph blockIdx threadIdx (s : dev),
        rocblas_gbmvx_kernel memA memX ph DIM_X DIM_Y blockDim blockIdx threadIdx
          transA m n kl ku alphaa Aa shifta lda strideA xa shiftx incx stridex
          betaa ya shifty incy stridey s = (tt, s))
    /\ (forall (g : dim3) (s : dev),
          exec_launch memA memX
            (mkLaunch _ g blockDim
               (fun memA' memX' ph bd bi t =>
                  rocblas_gbmvx_kernel memA' memX' ph DIM_X DIM_Y bd bi t
                    transA m n kl ku alphaa Aa shifta lda strideA xa shiftx incx stridex
                    betaa ya shifty incy stridey)) s
          = (tt, s)).
Proof.
  intros S memA memX DIM_X DIM_Y blockDim transA m n kl ku alphaa Aa shifta lda strideA
         xa shiftx incx stridex betaa ya shifty incy stridey Hx Hy Hz Hlt Hne.
  assert (Hk : forall ph blockIdx threadIdx (s : dev),
             rocblas_gbmvx_kernel memA memX ph DIM_X DIM_Y blockDim blockIdx threadIdx
               transA m n kl ku alphaa Aa shifta lda strideA xa shiftx incx stridex
               betaa ya shifty incy stridey s = (tt, s)).
  { intros ph blockIdx threadIdx s. apply kernel_wrong_block.
    rewrite num_threads_small by assumption. congruence. }
  split; [exact Hk|].
  intros g s. apply exec_launch_noop. intros ph bi t s'. cbn [kern threads]. apply Hk.
Qed.

Section ZeroAlpha.
Context {S : Scalar}.

Lemma kernel_zero_alpha_ext (memA memX memA' memX' : Z -> T)
      ph DIM_X DIM_Y blockDim blockIdx threadIdx
      transA m n kl ku alphaa Aa Aa' shifta lda strideA xa xa' shiftx incx stridex
      betaa ya shifty incy stridey s :
  truthy alphaa = false ->
  rocblas_gbmvx_kernel memA' memX' ph DIM_X DIM_Y blockDim blockIdx threadIdx
    transA m n kl ku alphaa Aa' shifta lda strideA xa' shiftx incx stridex
    betaa ya shifty incy stridey s
  = rocblas_gbmvx_kernel memA memX ph DIM_X DIM_Y blockDim blockIdx threadIdx
      transA m n kl ku alphaa Aa shifta lda strideA xa shiftx incx stridex
      betaa ya shifty incy stridey s.
Proof.
  intros Ha. unfold rocblas_gbmvx_kernel, load_scalar, cond_load_ptr_batch.
  rewrite Ha. destruct (negb (_ =? _)); [reflexivity|].
  destruct (_ && _); [reflexivity|].
  unfold rocblas_gbmvx_kernel_calc. rewrite Ha. destruct ph; reflexivity.
Qed.

Lemma exec_launch_ext (memA memX memA' memX' : Z -> T) (l l' : launch) :
  grid l' = grid l -> threads l' = threads l ->
  (forall ph bi t s,
      kern l' memA' memX' ph (threads l) bi t s = kern l memA memX ph (threads l) bi t s) ->
  forall s, exec_launch memA' memX' l' s = exec_launch memA memX l s.
Proof.
  intros Hg Ht Hk s. unfold exec_launch. rewrite Hg.
  apply for_each_ext. intros by_ s1 _. apply for_each_ext. intros bx s2 _.
  unfold exec_block. rewrite Ht. unfold bind.
  rewrite (for_each_ext _ (fun t => kern l memA memX BeforeSync (threads l)
                                      {| dim_x := bx; dim_y := by_; dim_z := 0 |} t))
    by (intros; apply Hk).
  destruct (for_each _ _ s2) as [u s3].
  apply for_each_ext. intros; apply Hk.
Qed.

End ZeroAlpha.

(** C10. With [alpha == 0] (and [beta] not one) the operands [A] and [x]
    are never dereferenced: their pointers stay unresolved, no access of
    the call goes to [A] or [x], and neither the memory behind them nor
    the pointers themselves influence the device state the call leaves.
    On a valid problem the call leaves zero in [y[i]] when [beta == 0] and
    [beta * y[i]] otherwise, which in exact arithmetic is [beta * y[i]]
    in both cases. *)
Theorem gbmv_alpha_zero_never_touches_A_x :
  forall (S : Scalar) (memA memX : Z -> T)
         (handle : rocblas_handle_t) (transA : rocblas_operation)
         (m n kl ku : Z) (alpha : T) (A : batch_ptr) (offseta lda strideA : Z)
         (x : batch_ptr) (offsetx incx stridex : Z) (beta : T)
         (y : batch_ptr) (offsety incy stridey batch_count : Z),
    eqb alpha zero = true -> eqb beta one = false ->
    (forall p b shift stride, cond_load_ptr_batch alpha p b shift stride = nullptr)
    /\ emits (fun e => forall a, e <> Rd BufA a /\ e <> Rd BufX a)
         (run_stream memA memX
            (snd (rocblas_internal_gbmv_launcher handle transA m n kl ku alpha
                    A offseta lda strideA x offsetx incx stridex beta
                    y offsety incy stridey batch_count)))
    /\ (forall (memA' memX' : Z -> T) (A' x' : batch_ptr) (s : dev),
          gbmv_run memA' memX' handle transA m n kl ku alpha A' offseta lda strideA
            x' offsetx incx stridex beta y offsety incy stridey batch_count s
          = gbmv_run memA memX handle transA m n kl ku alpha A offseta lda strideA
              x offsetx incx stridex beta y offsety incy stridey batch_count s)
    /\ (0 < m < 2 ^ 31 -> 0 < n < 2 ^ 31 -> 0 < batch_count < 2 ^ 31 ->
        (forall b b' i i',
            0 <= b < batch_count -> 0 <= b' < batch_count ->
            0 <= i < output_length transA m n -> 0 <= i' < output_length transA m n ->
            y_address y (gbmv_shifty transA m n offsety incy) stridey incy b i
            = y_address y (gbmv_shifty transA m n offsety incy) stridey incy b' i' ->
            b = b' /\ i = i') ->
        forall (s : dev) b i,
          0 <= b < batch_count -> 0 <= i < output_length transA m n ->
          let old := ymem s (y_address y (gbmv_shifty transA m n offsety incy)
                               stridey incy b i) in
          let new :=
            ymem (snd (gbmv_run memA memX handle transA m n kl ku alpha A offseta lda
                         strideA x offsetx incx stridex beta y offsety incy stridey
                         batch_count s))
                 (y_address y (gbmv_shifty transA m n offsety incy) stridey incy b i) in
          new = (if eqb beta zero then zero else mul beta old)
          /\ (ScalarLaws S -> new = mul beta old)).
Proof.
  intros S memA memX handle transA m n kl ku alpha A offseta lda strideA
         x offsetx incx stridex beta y offsety incy stridey batch_count Ha Hb1.
  assert (Hta : truthy alpha = false) by (unfold truthy; rewrite Ha; reflexivity).
  split; [|split; [|split]].
  - intros p b shift stride. unfold cond_load_ptr_batch. rewrite Hta. reflexivity.
  - apply gbmv_stream_emits.
    + intros E. congruence.
    + intros E. congruence.
    + intros _ a a'. split; intros E; discriminate E.
    + intros a a'. split; intros E; discriminate E.
  - intros memA' memX' A' x' s. unfold gbmv_run, rocblas_internal_gbmv_launcher.
    destruct (_ || _); [reflexivity|].
    assert (Hl : forall g bd sx sy,
              snd (run_stream memA' memX'
                     [mkLaunch _ g bd
                        (fun memA0 memX0 ph blockDim blockIdx threadIdx =>
                           rocblas_gbmvx_kernel memA0 memX0 ph GBMVX_DIM_X GBMVX_DIM_Y
                             blockDim blockIdx threadIdx transA m n kl ku alpha A' offseta
                             lda strideA x' sx incx stridex beta y sy incy stridey)] s)
              = snd (run_stream memA memX
                       [mkLaunch _ g bd
                          (fun memA0 memX0 ph blockDim blockIdx threadIdx =>
                             rocblas_gbmvx_kernel memA0 memX0 ph GBMVX_DIM_X GBMVX_DIM_Y
                               blockDim blockIdx threadIdx transA m n kl ku alpha A offseta
                               lda strideA x sx incx stridex beta y sy incy stridey)] s)).
    { intros g bd sx sy. rewrite !run_stream_one. f_equal.
      apply exec_launch_ext; [reflexivity|reflexivity|].
      intros ph bi t s'. cbn [kern threads]. apply kernel_zero_alpha_ext. exact Hta. }
    destruct (pointer_mode handle); [destruct (_ && _); [reflexivity|]|];
      rewrite Hl; reflexivity.
  - intros Hm Hn Hb Hinj s b i Hbb Hi old new.
    assert (Henter : negb (truthy alpha) && eqb beta one = false)
      by (rewrite Hb1; apply andb_false_r).
    destruct (gbmv_run_cells memA memX handle transA m n kl ku alpha A offseta lda
                strideA x offsetx incx stridex beta y offsety incy stridey batch_count s
                Hm Hn Hb Henter Hinj) as [_ [Hcell _]].
    assert (Hnew : new = (if eqb beta zero then zero else mul beta old)).
    { subst new old. rewrite (Hcell b i Hbb Hi).
      unfold cell_update, thread_result. rewrite Hta.
      destruct (eqb beta zero); reflexivity. }
    split; [exact Hnew|].
    intros L. rewrite Hnew. destruct (eqb beta zero) eqn:Hb0; [|reflexivity].
    apply eqb_eq in Hb0. subst beta. symmetry. apply mul_zero_l.
Qed.

(** ** The launcher's own decisions *)

Lemma load_ptr_batch_shift p b shift d stride :
  load_ptr_batch p b (shift + d) stride = load_ptr_batch p b shift stride + d.
Proof. destruct p; simpl; lia. Qed.

(** C4. A call that gets past the quick return and the host-mode early
    return puts exactly one launch on the stream, and the kernel of that
    launch receives, for [x] and for [y], the given offset moved by
    [(logical_length - 1) * |increment|] when the increment is negative
    and the given offset itself otherwise; the logical length of [x] is
    [n] for no-transpose and [m] otherwise, that of [y] is [m] for
    no-transpose and [n] otherwise.  With a negative increment traversal
    index [i] therefore addresses element [logical_length - 1 - i]
    counted from the given offset in steps of [|increment|], index 0 the
    last one; and on a valid problem that is where the call leaves output
    element [i]. *)
Theorem gbmv_launcher_shifts_negative_increments :
  forall (S : Scalar) (memA memX : Z -> T)
         (handle : rocblas_handle_t) (transA : rocblas_operation)
         (m n kl ku : Z) (alpha : T) (A : batch_ptr) (offseta lda strideA : Z)
         (x : batch_ptr) (offsetx incx stridex : Z) (beta : T)
         (y : batch_ptr) (offsety incy stridey batch_count : Z),
    let x_length := if is_none transA then n else m in
    let y_length := if is_none transA then m else n in
    let shiftx :=
      if incx <? 0 then offsetx + (x_length - 1) * Z.abs incx else offsetx in
    let shifty :=
      if incy <? 0 then offsety + (y_length - 1) * Z.abs incy else offsety in
    let x_element b i :=
      load_ptr_batch x b offsetx stridex
      + (if incx <? 0 then (x_length - 1 - i) * Z.abs incx else i * incx) in
    let y_element b i :=
      load_ptr_batch y b offsety stridey
      + (if incy <? 0 then (y_length - 1 - i) * Z.abs incy else i * incy) in
    m <> 0 -> n <> 0 -> batch_count <> 0 ->
    (pointer_mode handle = rocblas_pointer_mode_host ->
     negb (truthy alpha) && eqb beta one = false) ->
    rocblas_internal_gbmv_launcher handle transA m n kl ku alpha
      A offseta lda strideA x offsetx incx stridex beta
      y offsety incy stridey batch_count
    = (rocblas_status_success,
       [mkLaunch _
          (mk_dim3 (Z.quot (y_length - 1) GBMVX_DIM_X + 1) batch_count 1)
          (mk_dim3 GBMVX_DIM_X GBMVX_DIM_Y 1)
          (fun memA' memX' ph blockDim blockIdx threadIdx =>
             rocblas_gbmvx_kernel memA' memX' ph GBMVX_DIM_X GBMVX_DIM_Y
               blockDim blockIdx threadIdx transA m n kl ku alpha A offseta lda strideA
               x shiftx incx stridex beta y shifty incy stridey)])
    /\ (forall b i, load_ptr_batch x b shiftx stridex + i * incx = x_element b i)
    /\ (forall b i, load_ptr_batch y b shifty stridey + i * incy = y_element b i)
    /\ (0 < m < 2 ^ 31 -> 0 < n < 2 ^ 31 -> 0 < batch_count < 2 ^ 31 ->
        negb (truthy alpha) && eqb beta one = false ->
        (forall b b' i i',
            0 <= b < batch_count -> 0 <= b' < batch_count ->
            0 <= i < y_length -> 0 <= i' < y_length ->
            y_element b i = y_element b' i' -> b = b' /\ i = i') ->
        forall (s : dev) b i,
          0 <= b < batch_count -> 0 <= i < y_length ->
          ymem (snd (gbmv_run memA memX handle transA m n kl ku alpha A offseta lda
                       strideA x offsetx incx stridex beta y offsety incy stridey
                       batch_count s))
               (y_element b i)
          = cell_update memA memX GBMVX_DIM_Y transA m n kl ku alpha A offseta lda
              strideA x shiftx incx stridex beta b i (ymem s (y_element b i))).
Proof.
  intros S memA memX handle transA m n kl ku alpha A offseta lda strideA
         x offsetx incx stridex beta y offsety incy stridey batch_count
         x_length y_length shiftx shifty x_element y_element Hm Hn Hb Hhost.
  assert (Hsx : gbmv_shiftx transA m n offsetx incx = shiftx).
  { subst shiftx x_length. unfold gbmv_shiftx.
    destruct (Z.ltb_spec incx 0); [|reflexivity]. rewrite Z.abs_neq by lia.
    destruct (is_none transA); lia. }
  assert (Hsy : gbmv_shifty transA m n offsety incy = shifty).
  { subst shifty y_length. unfold gbmv_shifty.
    destruct (Z.ltb_spec incy 0); [|reflexivity]. rewrite Z.abs_neq by lia.
    destruct (is_none transA); lia. }
  assert (Hxe : forall b i, load_ptr_batch x b shiftx stridex + i * incx = x_element b i).
  { intros b i. subst shiftx x_element. cbv beta.
    destruct (Z.ltb_spec incx 0); [|reflexivity].
    rewrite load_ptr_batch_shift, Z.abs_neq by lia. lia. }
  assert (Hye : forall b i, load_ptr_batch y b shifty stridey + i * incy = y_element b i).
  { intros b i. subst shifty y_element. cbv beta.
    destruct (Z.ltb_spec incy 0); [|reflexivity].
    rewrite load_ptr_batch_shift, Z.abs_neq by lia. lia. }
  split; [|split; [exact Hxe|split; [exact Hye|]]].
  - unfold rocblas_internal_gbmv_launcher.
    destruct (Z.eqb_spec m 0); [contradiction|].
    destruct (Z.eqb_spec n 0); [contradiction|].
    destruct (Z.eqb_spec batch_count 0); [contradiction|]. cbn [orb].
    fold (gbmv_shiftx transA m n offsetx incx) (gbmv_shifty transA m n offsety incy).
    rewrite Hsx, Hsy.
    destruct (pointer_mode handle); [rewrite (Hhost eq_refl)|]; reflexivity.
  - intros Hmr Hnr Hbr Henter Hinj s b i Hbb Hi.
    assert (Hya : forall b0 i0,
               y_address y (gbmv_shifty transA m n offsety incy) stridey incy b0 i0
               = y_element b0 i0).
    { intros b0 i0. unfold y_address. rewrite Hsy. apply Hye. }
    destruct (gbmv_run_cells memA memX handle transA m n kl ku alpha A offseta lda
                strideA x offsetx incx stridex beta y offsety incy stridey batch_count s
                Hmr Hnr Hbr Henter) as [_ [Hcell _]].
    { intros b1 b2 i1 i2 Hb1 Hb2 Hi1 Hi2. rewrite !Hya. apply Hinj; assumption. }
    rewrite <- Hya, <- Hsx. apply Hcell; assumption.
Qed.

(** C5, as the code has it.  When [m == 0], [n == 0] or
    [batch_count == 0] the launcher returns success with nothing put on
    the stream, and the device is left exactly as it was. *)
Theorem gbmv_launcher_quick_return :
  forall (S : Scalar) (memA memX : Z -> T)
         (handle : rocblas_handle_t) (transA : rocblas_operation)
         (m n kl ku : Z) (alpha : T) (A : batch_ptr) (offseta lda strideA : Z)
         (x : batch_ptr) (offsetx incx stridex : Z) (beta : T)
         (y : batch_ptr) (offsety incy stridey batch_count : Z),
    m = 0 \/ n = 0 \/ batch_count = 0 ->
    rocblas_internal_gbmv_launcher handle transA m n kl ku alpha A offseta lda strideA
      x offsetx incx stridex beta y offsety incy stridey batch_count
    = (rocblas_status_success, [])
    /\ (forall s : dev,
          gbmv_run memA memX handle transA m n kl ku alpha A offseta lda strideA
            x offsetx incx stridex beta y offsety incy stridey batch_count s
          = (rocblas_status_success, s)).
Proof.
  intros S memA memX handle transA m n kl ku alpha A offseta lda strideA
         x offsetx incx stridex beta y offsety incy stridey batch_count Hz.
  assert (E : rocblas_internal_gbmv_launcher handle transA m n kl ku alpha A offseta lda
                strideA x offsetx incx stridex beta y offsety incy stridey batch_count
              = (rocblas_status_success, [])).
  { unfold rocblas_internal_gbmv_launcher.
    destruct (Z.eqb_spec m 0); [reflexivity|].
    destruct (Z.eqb_spec n 0); [reflexivity|].
    destruct (Z.eqb_spec batch_count 0); [reflexivity|]. lia. }
  split; [exact E|]. intros s. unfold gbmv_run. rewrite E. reflexivity.
Qed.


(** ** The asum entry point *)

Section AsumFacts.
Variables rocblas_layer_mode_log_trace rocblas_layer_mode_log_bench
          rocblas_layer_mode_log_profile : Z.
Variable rocblas_reduction_kernel_workspace_size : Z -> Z -> Z.
Variable set_optimal_device_memory_size : rocblas_handle_t -> Z -> rocblas_status.
Variable rocblas_asum_nrm2_arg_check :
  rocblas_handle_t -> Z -> Z -> Z -> Z -> Z -> Z -> rocblas_status.
Variable device_malloc : rocblas_handle_t -> Z -> Z.
Variable has_nan_inf : vector_descriptor -> bool.
Variable rocblas_internal_asum_nrm2_launcher :
  rocblas_handle_t -> Z -> Z -> Z -> Z -> Z -> Z -> Z -> Z -> rocblas_status.

Local Abbreviation asum_impl :=
  (Asum.rocblas_asum_impl rocblas_layer_mode_log_trace rocblas_layer_mode_log_bench
     rocblas_layer_mode_log_profile rocblas_reduction_kernel_workspace_size
     set_optimal_device_memory_size rocblas_asum_nrm2_arg_check device_malloc
     has_nan_inf rocblas_internal_asum_nrm2_launcher).
Local Abbreviation logs_of handle x :=
  (Asum.asum_logs rocblas_layer_mode_log_trace rocblas_layer_mode_log_bench
     rocblas_layer_mode_log_profile (layer_mode handle) x).


(** The entry point outside the size-query mode, path by path. *)
Lemma asum_impl_normal handle n x incx result :
  is_device_memory_size_query handle = false ->
  Asum.run (asum_impl (Some handle) n x incx result)
  = let dev_bytes := rocblas_reduction_kernel_workspace_size n 1 in
    let d := {| v_n := n; v_ptr := Strided x; v_offset := 0; v_inc := incx;
                v_stride := 0; v_batch_count := 1 |} in
    let arg_status := rocblas_asum_nrm2_arg_check handle n x incx 0 1 result in
    let w_mem := device_malloc handle dev_bytes in
    let st := rocblas_internal_asum_nrm2_launcher handle n x 0 incx 0 1 w_mem result in
    if negb (rocblas_status_eqb arg_status rocblas_status_continue)
    then (arg_status, logs_of handle x ++ [Asum.EvArgCheck x result])
    else if w_mem =? nullptr
    then (rocblas_status_memory_error,
          logs_of handle x ++ [Asum.EvArgCheck x result; Asum.EvDeviceMalloc dev_bytes])
    else if negb (check_numerics handle =? 0)
    then if has_nan_inf d
         then (rocblas_status_check_numerics_fail,
               logs_of handle x
               ++ [Asum.EvArgCheck x result; Asum.EvDeviceMalloc dev_bytes;
                   Asum.EvCheckNumerics d])
         else (st,
               logs_of handle x
               ++ [Asum.EvArgCheck x result; Asum.EvDeviceMalloc dev_bytes;
                   Asum.EvCheckNumerics d]
               ++ [Asum.EvLauncher x w_mem result])
    else (st,
          logs_of handle x
          ++ [Asum.EvArgCheck x result; Asum.EvDeviceMalloc dev_bytes;
              Asum.EvLauncher x w_mem result]).
Proof.
  intros Hq. unfold Asum.rocblas_asum_impl, Asum.run, Asum.asum_logs. rewrite Hq.
  unfold Asum.seq_, Asum.when, Asum.call, Asum.next, Asum.return_,
    rocblas_internal_check_numerics_vector_template.
  cbv zeta.
  destruct (negb (Z.land (layer_mode handle) rocblas_layer_mode_log_trace =? 0));
    destruct (negb (Z.land (layer_mode handle) rocblas_layer_mode_log_bench =? 0));
    destruct (negb (Z.land (layer_mode handle) rocblas_layer_mode_log_profile =? 0));
    cbn [app];
    (destruct (negb (rocblas_status_eqb _ rocblas_status_continue)); [reflexivity|]);
    (destruct (_ =? nullptr); [reflexivity|]);
    (destruct (negb (check_numerics handle =? 0)); [|reflexivity]);
    (destruct (has_nan_inf _); reflexivity).
Qed.

Lemma asum_impl_query handle n x incx result :
  is_device_memory_size_query handle = true ->
  Asum.run (asum_impl (Some handle) n x incx result)
  = (if (n <=? 0) || (incx <=? 0)
     then (rocblas_status_size_unchanged, [])
     else (set_optimal_device_memory_size handle
             (rocblas_reduction_kernel_workspace_size n 1),
           [Asum.EvSetOptimalDeviceMemorySize
              (rocblas_reduction_kernel_workspace_size n 1)])).
Proof.
  intros Hq. unfold Asum.rocblas_asum_impl, Asum.run. rewrite Hq.
  destruct ((n <=? 0) || (incx <=? 0)); reflexivity.
Qed.

(** C7. On a handle in device-memory size-query mode the asum entry
    point returns at once: the size-unchanged status with no call made
    when [n <= 0] or [incx <= 0], and otherwise the status of recording the
    workspace size computed from [n] and the batch count 1, that recording
    being the only call made.  There is no logging, argument check,
    allocation, numerics check or kernel launch, and the data pointers [x]
    and [result] are handed to nobody: the outcome does not depend on
    them. *)
Theorem asum_size_query_returns_before_touching_data :
  forall (handle : rocblas_handle_t) (n x incx result : Z),
    is_device_memory_size_query handle = true ->
    Asum.run (asum_impl (Some handle) n x incx result)
    = (if (n <=? 0) || (incx <=? 0)
       then (rocblas_status_size_unchanged, [])
       else (set_optimal_device_memory_size handle
               (rocblas_reduction_kernel_workspace_size n 1),
             [Asum.EvSetOptimalDeviceMemorySize
                (rocblas_reduction_kernel_workspace_size n 1)]))
    /\ (forall x' result',
          Asum.run (asum_impl (Some handle) n x' incx result')
          = Asum.run (asum_impl (Some handle) n x incx result)).
Proof.
  intros handle n x incx result Hq.
  split; [apply asum_impl_query; exact Hq|].
  intros x' result'. rewrite !asum_impl_query by exact Hq. reflexivity.
Qed.


End AsumFacts.

(** ** The worked instance *)

#[export] Instance Z_laws : ScalarLaws Z_scalar.
Proof.
  constructor.
  - exact Z.add_comm.
  - exact Z.add_assoc.
  - exact Z.add_0_l.
  - exact Z.mul_0_l.
  - exact Z.mul_1_l.
  - exact Z.eqb_eq.
Qed.


(** The example of the specification: [x] all ones, [alpha = 1],
    [beta = 0]; each [y[i]] is the sum of the in-band entries of row [i],
    and the cell past the vector keeps what it held. *)
Example ex_row_sums :
  map (ymem (snd (ex_call ex_host rocblas_operation_none 1 0 1 1 ex_dirty)))
      [0; 1; 2; 3; 4; 5]
  = [3; 6; 10; 10; 8; 1005].
Proof. vm_compute. reflexivity. Qed.

(** Transposed, device pointer mode, [incy = -1]: column sums, stored
    backwards, on top of three times the old contents. *)
Example ex_column_sums_reversed :
  map (ymem (snd (ex_call ex_device rocblas_operation_transpose 2 3 (-1) 1 ex_dirty)))
      [0; 1; 2; 3; 4; 5]
  = [3006; 3015; 3026; 3029; 3028; 1005].
Proof. vm_compute. reflexivity. Qed.


Lemma ex_cells_distinct :
  forall b b' i i',
    0 <= b < 1 -> 0 <= b' < 1 ->
    0 <= i < output_length rocblas_operation_none 5 5 ->
    0 <= i' < output_length rocblas_operation_none 5 5 ->
    y_address (Strided 0) (gbmv_shifty rocblas_operation_none 5 5 0 1) 0 1 b i
    = y_address (Strided 0) (gbmv_shifty rocblas_operation_none 5 5 0 1) 0 1 b' i' ->
    b = b' /\ i = i'.
Proof.
  intros b b' i i' Hb Hb' Hi Hi'.
  unfold y_address, load_ptr_batch, gbmv_shifty, output_length in *. simpl in *. lia.
Defined.

Lemma gbmv_beta_zero_never_reads_y_witness :
  ymem (snd (ex_call ex_host rocblas_operation_none 1 0 1 1 ex_dirty)) 2
  = ymem (snd (ex_call ex_host rocblas_operation_none 1 0 1 1 ex_clean)) 2.
Proof.
  change 2 with (y_address (Strided 0) (gbmv_shifty rocblas_operation_none 5 5 0 1)
                   0 1 0 2).
  exact (proj2 (proj2 (gbmv_beta_zero_never_reads_y Z_scalar ex_A ex_ones ex_host
                         rocblas_operation_none 5 5 2 1 1 (Strided 0) 0 5 0
                         (Strided 0) 0 1 0 0 (Strided 0) 0 1 0 1 eq_refl))
           ltac:(lia) ltac:(lia) ltac:(lia) eq_refl ex_cells_distinct
           ex_dirty ex_clean 0 2
           ltac:(lia) ltac:(cbv [output_length is_none]; lia)).
Defined.

Lemma gbmv_alpha_zero_beta_one_is_identity_witness :
  ex_call ex_device rocblas_operation_none 0 1 1 1 ex_dirty
  = (rocblas_status_success, ex_dirty).
Proof.
  apply (proj2 (proj2 (gbmv_alpha_zero_beta_one_is_identity Z_scalar ex_A ex_ones
                         ex_device rocblas_operation_none 5 5 2 1 0 (Strided 0) 0 5 0
                         (Strided 0) 0 1 0 1 (Strided 0) 0 1 0 1 eq_refl eq_refl))).
Defined.

Lemma gbmv_launcher_shifts_negative_increments_witness :
  ymem (snd (ex_call ex_device rocblas_operation_transpose 2 3 (-1) 1 ex_dirty)) 4
  = 3028.
Proof.
  change 4 with
    (load_ptr_batch (Strided 0) 0 0 0
     + (if -1 <? 0
        then ((if is_none rocblas_operation_transpose then 5 else 5) - 1 - 0)
             * Z.abs (-1)
        else 0 * -1)) at 1.
  etransitivity.
  - apply (proj2 (proj2 (proj2
             (gbmv_launcher_shifts_negative_increments Z_scalar ex_A ex_ones ex_device
                rocblas_operation_transpose 5 5 2 1 2 (Strided 0) 0 5 0
                (Strided 0) 0 1 0 3 (Strided 0) 0 (-1) 0 1
                ltac:(lia) ltac:(lia) ltac:(lia)
                ltac:(intros E; discriminate E)))));
      cbn [is_none]; try lia; try reflexivity.
    intros b b' i i' Hb Hb' Hi Hi'. unfold load_ptr_batch.
    change (-1 <? 0) with true. cbv iota. lia.
  - vm_compute. reflexivity.
Defined.

Lemma gbmv_launcher_quick_return_witness :
  ex_call ex_host rocblas_operation_none 1 0 1 0 ex_dirty
  = (rocblas_status_success, ex_dirty).
Proof.
  apply (proj2 (gbmv_launcher_quick_return Z_scalar ex_A ex_ones ex_host
                  rocblas_operation_none 5 5 2 1 1 (Strided 0) 0 5 0
                  (Strided 0) 0 1 0 0 (Strided 0) 0 1 0 0
                  (or_intror (or_intror eq_refl)))).
Defined.

(** C5 as stated fails on the code: with [batch_count = -1] (and
    [m = n = 1], host pointer mode, [alpha = 1]) the launcher does not
    return with an empty stream; it puts a launch on it. *)
Lemma gbmv_launcher_negative_batch_count_launches :
  ~ ((1 = 0 \/ 1 = 0 \/ -1 <= 0) ->
     @rocblas_internal_gbmv_launcher Z_scalar ex_host rocblas_operation_none
       1 1 0 0 1 (Strided 0) 0 1 0 (Strided 0) 0 1 0 0 (Strided 0) 0 1 0 (-1)
     = (rocblas_status_success, [])).
Proof.
  intros H.
  assert (Hle : -1 <= 0) by lia.
  assert (E := H (or_intror (or_intror Hle))).
  apply (f_equal (fun r => length (snd r))) in E.
  vm_compute in E. discriminate E.
Qed.

Lemma asum_size_query_returns_before_touching_data_witness :
  ex_asum (fun d => v_n d =? 3) ex_query 3 0 1 0
  = (rocblas_status_size_increased, [Asum.EvSetOptimalDeviceMemorySize 12]).
Proof.
  apply (proj1 (asum_size_query_returns_before_touching_data 1 2 4
                  (fun n batch_count => 4 * n * batch_count)
                  (fun _ _ => rocblas_status_size_increased)
                  (fun _ n x incx _ _ result =>
                     if (x =? nullptr) || (result =? nullptr)
                     then rocblas_status_invalid_pointer else rocblas_status_continue)
                  (fun _ bytes => 4096)
                  (fun d => v_n d =? 3)
                  (fun _ _ _ _ _ _ _ _ _ => rocblas_status_success)
                  ex_query 3 0 1 0 eq_refl)).
Defined.


Lemma gbmvx_kernel_other_block_size_is_noop_witness :
  @exec_launch Z_scalar ex_A ex_ones
    (@mkLaunch Z_scalar {| dim_x := 1; dim_y := 1; dim_z := 1 |}
       {| dim_x := 32; dim_y := 16; dim_z := 1 |}
       (fun memA memX ph bd bi t =>
          rocblas_gbmvx_kernel memA memX ph 64 16 bd bi t
            rocblas_operation_none 5 5 2 1 1 (Strided 0) 0 5 0
            (Strided 0) 0 1 0 0 (Strided 0) 0 1 0))
    ex_dirty
  = (tt, ex_dirty).
Proof.
  apply (proj2 (gbmvx_kernel_other_block_size_is_noop Z_scalar ex_A ex_ones 64 16
                  {| dim_x := 32; dim_y := 16; dim_z := 1 |}
                  rocblas_operation_none 5 5 2 1 1 (Strided 0) 0 5 0
                  (Strided 0) 0 1 0 0 (Strided 0) 0 1 0
                  ltac:(simpl; lia) ltac:(simpl; lia) ltac:(simpl; lia)
                  ltac:(simpl; lia) ltac:(simpl; lia))).
Defined.

Lemma gbmv_alpha_zero_never_touches_A_x_witness :
  ymem (snd (ex_call ex_device rocblas_operation_none 0 2 1 1 ex_dirty)) 3 = 2006.
Proof.
  change 3 with (y_address (Strided 0) (gbmv_shifty rocblas_operation_none 5 5 0 1)
                   0 1 0 3).
  etransitivity.
  - exact (proj1 (proj2 (proj2 (proj2
             (gbmv_alpha_zero_never_touches_A_x Z_scalar ex_A ex_ones ex_device
                rocblas_operation_none 5 5 2 1 0 (Strided 0) 0 5 0
                (Strided 0) 0 1 0 2 (Strided 0) 0 1 0 1 eq_refl eq_refl)))
             ltac:(lia) ltac:(lia) ltac:(lia) ex_cells_distinct ex_dirty 0 3
             ltac:(lia) ltac:(cbv [output_length is_none]; lia))).
  - vm_compute. reflexivity.
Defined.

(** * Further properties of the embedded code *)

(** ** Memory safety of a call *)

Lemma loop_indices_range step bound :
  0 <= step ->
  forall fuel i c, In c (loop_indices fuel i bound step) -> i <= c < bound.
Proof.
  intros Hstep. induction fuel as [|fuel IH]; intros i c; simpl; [tauto|].
  destruct (Z.ltb_spec i bound); simpl; [|tauto].
  intros [<-|Hin]; [lia|]. apply IH in Hin. lia.
Qed.

Section AccessBounds.
Context {S : Scalar}.
Variables memA memX : Z -> T.

Lemma emits_weaken (P Q : event -> Prop) {X} (c : K X) :
  (forall e, P e -> Q e) -> emits P c -> emits Q c.
Proof.
  intros HPQ Hc s. destruct (Hc s) as [new [E F]].
  exists new. split; [exact E|]. eapply Forall_impl; eauto.
Qed.

Lemma emits_fold_m_in P {I X} (body : I -> X -> K X) :
  forall l acc, (forall i a, In i l -> emits P (body i a)) -> emits P (fold_m l body acc).
Proof.
  induction l as [|i l IH]; intros acc Hb; simpl.
  - apply emits_ret.
  - apply emits_bind; [apply Hb; left; reflexivity|].
    intros x. apply IH. intros j a Hj. apply Hb. right; exact Hj.
Qed.

Lemma emits_for_loop_range P {X} (body : Z -> X -> K X) start bound step acc :
  0 <= step ->
  (forall i a, start <= i < bound -> emits P (body i a)) ->
  emits P (for_loop start bound step body acc).
Proof.
  intros Hstep Hb s. unfold for_loop. rewrite for_loop_fuel_fold_m.
  apply emits_fold_m_in. intros i a Hi. apply Hb.
  apply (loop_indices_range step bound Hstep _ _ _ Hi).
Qed.

Lemma emits_nothing {X} (c : K X) s :
  emits (fun _ => False) c -> trace (snd (c s)) = trace s.
Proof.
  intros Hc. destruct (Hc s) as [new [E F]].
  destruct new as [|e new]; [exact E|]. inversion F; contradiction.
Qed.

Lemma gbmvn_body_emits_guarded (P : event -> Prop) ind m kl ku A lda x incx col res_A :
  (gbmvn_guard ind m kl ku col = true ->
   P (Rd BufA (A + (ind + (ku - col) + col * lda))) /\ P (Rd BufX (x + col * incx))) ->
  emits P
    (let row := ind + (ku - col) in
     if ind <? m then
       if (row <=? kl + ku) && (row >=? 0) then
         res_A <- (if (row <=? ku) && (col >=? ku - row) && (col <? ku - row + m)
                   then a <- load BufA memA (A + (row + col * lda)) ;;
                        v <- load BufX memX (x + col * incx) ;;
                        ret (add res_A (mul a v))
                   else ret res_A) ;;
         if (row >? ku) && (col <? m - (row - ku))
         then a <- load BufA memA (A + (row + col * lda)) ;;
              v <- load BufX memX (x + col * incx) ;;
              ret (add res_A (mul a v))
         else ret res_A
       else ret res_A
     else ret res_A).
Proof.
  unfold gbmvn_guard. intros HP. cbv zeta in *.
  split_tests; cbn [andb orb] in *; emits_walk;
    try (apply HP; reflexivity); try lia.
Qed.

Lemma gbmvt_body_emits_guarded (P : event -> Prop) (is_conj : bool)
      ind m n kl ku A lda x incx row res_A :
  (gbmvt_guard ind m n kl ku row = true ->
   P (Rd BufA (A + (row + ind * lda))) /\ P (Rd BufX (x + (row - ku + ind) * incx))) ->
  emits P
    (let col := ind in
     if col <? n then
       if (row <=? kl + ku) && (row >=? 0) then
         if (row <=? ku) && (col >=? ku - row) && (col <? ku - row + m)
         then a <- load BufA memA (A + (row + col * lda)) ;;
              v <- load BufX memX (x + (row - ku + col) * incx) ;;
              ret (add res_A (mul (if is_conj then conj a else a) v))
         else if ((row >? ku) && (row <=? kl + ku)) && (col <? m - (row - ku))
         then a <- load BufA memA (A + (row + col * lda)) ;;
              v <- load BufX memX (x + (row - ku + col) * incx) ;;
              ret (add res_A (mul (if is_conj then conj a else a) v))
         else ret res_A
       else ret res_A
     else ret res_A).
Proof.
  unfold gbmvt_guard. intros HP. cbv zeta in *.
  split_tests; cbn [andb orb] in *; emits_walk;
    try (apply HP; reflexivity); try lia.
Qed.

Lemma gbmvn_helper_emits_range (P : event -> Prop) DIM_Y ty ind m n kl ku A lda x incx :
  0 <= DIM_Y ->
  (forall col, ty <= col < n -> gbmvn_guard ind m kl ku col = true ->
               P (Rd BufA (A + (ind + (ku - col) + col * lda)))
               /\ P (Rd BufX (x + col * incx))) ->
  emits P (rocblas_gbmvn_kernel_helper memA memX DIM_Y ty ind m n kl ku A lda x incx).
Proof.
  intros HY HP. unfold rocblas_gbmvn_kernel_helper.
  apply emits_for_loop_range; [exact HY|]. intros col res_A Hcol.
  apply gbmvn_body_emits_guarded. intros G. apply HP; assumption.
Qed.

Lemma gbmvt_helper_emits_range (P : event -> Prop) DIM_Y is_conj
      ty ind m n kl ku A lda x incx :
  (forall row, gbmvt_guard ind m n kl ku row = true ->
               P (Rd BufA (A + (row + ind * lda)))
               /\ P (Rd BufX (x + (row - ku + ind) * incx))) ->
  emits P (rocblas_gbmvt_kernel_helper memA memX DIM_Y is_conj ty ind m n kl ku
             A lda x incx).
Proof.
  intros HP. unfold rocblas_gbmvt_kernel_helper.
  apply emits_for_loop. intros row res_A.
  apply gbmvt_body_emits_guarded. apply HP.
Qed.

End AccessBounds.

Section CallBounds.
Context {S : Scalar}.
Variables memA memX : Z -> T.

Lemma kernel_calc_emits_bounds ph DIM_X DIM_Y blockDim blockIdx threadIdx
      transA m n kl ku alpha A A' lda x x' incx beta y incy :
  0 <= DIM_X -> 0 <= DIM_Y -> 0 <= dim_x blockDim -> 0 <= dim_x blockIdx ->
  0 <= dim_x threadIdx -> 0 <= dim_y threadIdx ->
  (truthy alpha = true -> A = A' /\ x = x') ->
  emits (thread_access_ok transA m n kl ku lda A' x' incx y incy)
    (rocblas_gbmvx_kernel_calc memA memX ph DIM_X DIM_Y blockDim blockIdx threadIdx
       transA m n kl ku alpha A lda x incx beta y incy).
Proof.
  intros HX HY Hbd Hbx Htx Hty Hp. unfold rocblas_gbmvx_kernel_calc.
  destruct ph.
  - destruct (truthy alpha) eqn:Ha; [|apply emits_ret].
    destruct (Hp eq_refl) as [-> ->].
    assert (Hind : 0 <= dim_x blockIdx * DIM_X + dim_x threadIdx) by nia.
    apply emits_bind; [|intros res; apply emits_store_shared].
    destruct (is_none transA) eqn:Hn.
    + apply gbmvn_helper_emits_range; [exact HY|].
      intros col Hcol G. unfold gbmvn_guard in G. cbv zeta in G. revert G.
      tests_to_props. intros G. cbn [thread_access_ok]. split.
      * intros Hlda.
        exists (dim_x blockIdx * DIM_X + dim_x threadIdx + (ku - col) + col * lda).
        split; [nia|reflexivity].
      * exists col. unfold x_length. rewrite Hn. split; [lia|reflexivity].
    + apply gbmvt_helper_emits_range.
      intros row G. unfold gbmvt_guard in G. cbv zeta in G. revert G.
      tests_to_props. intros G. cbn [thread_access_ok]. split.
      * intros Hlda.
        exists (row + (dim_x blockIdx * DIM_X + dim_x threadIdx) * lda).
        split; [nia|reflexivity].
      * exists (row - ku + (dim_x blockIdx * DIM_X + dim_x threadIdx)).
        unfold x_length. rewrite Hn. split; [lia|reflexivity].
  - destruct (_ && _) eqn:W; [|apply emits_ret].
    apply andb_true_iff in W as [W1 W2]. apply Z.ltb_lt in W1, W2.
    assert (Hcell : exists i, 0 <= i < output_length transA m n
                              /\ y + (dim_x blockIdx * DIM_X
                                      + (dim_x threadIdx + dim_y threadIdx * dim_x blockDim))
                                     * incy
                                 = y + i * incy).
    { eexists. split; [|reflexivity]. unfold output_length. nia. }
    apply emits_bind.
    + destruct (truthy alpha); [|apply emits_ret].
      apply emits_for_loop. intros i u. emits_walk.
    + intros _. destruct (eqb beta zero); cbn [negb];
        destruct (truthy alpha); emits_walk; exact Hcell.
Qed.

Lemma kernel_emits_bounds ph DIM_X DIM_Y blockDim blockIdx threadIdx
      transA m n kl ku alphaa Aa shifta lda strideA xa shiftx incx stridex
      betaa ya shifty incy stridey :
  0 <= DIM_X -> 0 <= DIM_Y -> 0 <= dim_x blockDim -> 0 <= dim_x blockIdx ->
  0 <= dim_x threadIdx -> 0 <= dim_y threadIdx ->
  emits (thread_access_ok transA m n kl ku lda
           (load_ptr_batch Aa (dim_y blockIdx) shifta strideA)
           (load_ptr_batch xa (dim_y blockIdx) shiftx stridex) incx
           (load_ptr_batch ya (dim_y blockIdx) shifty stridey) incy)
    (rocblas_gbmvx_kernel memA memX ph DIM_X DIM_Y blockDim blockIdx threadIdx
       transA m n kl ku alphaa Aa shifta lda strideA xa shiftx incx stridex
       betaa ya shifty incy stridey).
Proof.
  intros HX HY Hbd Hbx Htx Hty. unfold rocblas_gbmvx_kernel, load_scalar.
  destruct (negb (_ =? _)); [apply emits_ret|].
  destruct (_ && _); [apply emits_ret|].
  apply kernel_calc_emits_bounds; try assumption.
  intros Ha. unfold cond_load_ptr_batch. rewrite Ha. split; reflexivity.
Qed.

Lemma exec_launch_emits_in (P : event -> Prop) (l : launch) :
  (forall ph bi t,
      0 <= dim_x bi < dim_x (grid l) -> 0 <= dim_y bi < dim_y (grid l) ->
      In t (block_threads (threads l)) ->
      emits P (kern l memA memX ph (threads l) bi t)) ->
  emits P (exec_launch memA memX l).
Proof.
  intros Hk. unfold exec_launch.
  apply emits_for_each. intros by_ Hby. apply emits_for_each. intros bx Hbx.
  apply zrange_In in Hby, Hbx.
  unfold exec_block.
  apply emits_bind; [|intros _]; apply emits_for_each; intros t Ht;
    apply Hk; cbn [dim_x dim_y]; assumption.
Qed.

(** Index [i] of a traversal with the launcher's shift is element
    [i] or [len - 1 - i] of the vector counted from its offset. *)
Lemma shifted_index_in_vector p b offset inc stride len i :
  0 <= i < len ->
  exists j, 0 <= j < len
            /\ load_ptr_batch p b
                 (if inc <? 0 then offset - inc * (len - 1) else offset) stride
               + i * inc
               = load_ptr_batch p b offset stride + j * Z.abs inc.
Proof.
  intros Hi. destruct (Z.ltb_spec inc 0).
  - exists (len - 1 - i). split; [lia|].
    replace (offset - inc * (len - 1)) with (offset + (- inc * (len - 1))) by lia.
    rewrite load_ptr_batch_shift, Z.abs_neq by lia. lia.
  - exists i. split; [exact Hi|]. rewrite Z.abs_eq by lia. reflexivity.
Qed.

Lemma gbmv_shiftx_form transA m n offsetx incx :
  gbmv_shiftx transA m n offsetx incx
  = if incx <? 0 then offsetx - incx * (x_length transA m n - 1) else offsetx.
Proof. unfold gbmv_shiftx, x_length. destruct (is_none transA); reflexivity. Qed.

Lemma gbmv_shifty_form transA m n offsety incy :
  gbmv_shifty transA m n offsety incy
  = if incy <? 0 then offsety - incy * (output_length transA m n - 1) else offsety.
Proof. unfold gbmv_shifty, output_length. destruct (is_none transA); reflexivity. Qed.

(** Every access of a call stays inside the operands it was given. *)
Lemma gbmv_call_accesses handle transA m n kl ku alpha A offseta lda strideA
      x offsetx incx stridex beta y offsety incy stridey batch_count :
  0 <= batch_count < 2 ^ 32 ->
  emits (call_access_ok transA m n kl ku A offseta lda strideA x offsetx incx stridex
           y offsety incy stridey batch_count)
    (run_stream memA memX
       (snd (rocblas_internal_gbmv_launcher handle transA m n kl ku alpha
               A offseta lda strideA x offsetx incx stridex beta
               y offsety incy stridey batch_count))).
Proof.
  intros Hb. unfold run_stream, rocblas_internal_gbmv_launcher.
  destruct (_ || _); [apply emits_ret|].
  fold (gbmv_shiftx transA m n offsetx incx) (gbmv_shifty transA m n offsety incy).
  assert (Hl : forall gx,
            emits (call_access_ok transA m n kl ku A offseta lda strideA x offsetx incx
                     stridex y offsety incy stridey batch_count)
              (exec_launch memA memX
                 (mkLaunch _ (mk_dim3 gx batch_count 1)
                    (mk_dim3 GBMVX_DIM_X GBMVX_DIM_Y 1)
                    (fun memA' memX' ph blockDim blockIdx threadIdx =>
                       rocblas_gbmvx_kernel memA' memX' ph GBMVX_DIM_X GBMVX_DIM_Y
                         blockDim blockIdx threadIdx transA m n kl ku alpha A offseta lda
                         strideA x (gbmv_shiftx transA m n offsetx incx) incx stridex beta
                         y (gbmv_shifty transA m n offsety incy) incy stridey)))).
  { intros gx. apply exec_launch_emits_in. intros ph bi t Hbx Hby Ht.
    cbn [kern threads grid mk_dim3 dim_x dim_y] in *.
    unfold to_u32 in Hby. rewrite (Z.mod_small batch_count) in Hby by lia.
    apply block_threads_In in Ht.
    eapply emits_weaken; [|apply kernel_emits_bounds;
                            try (vm_compute; discriminate); try lia].
    intros e He. unfold call_access_ok.
    destruct e as [[| |] a|[| |] a]; cbn in He |- *; try tauto.
    - repeat split. intros Hlda. destruct (He Hlda) as [k [Hk ->]].
      exists (dim_y bi), k. split; [lia|]. split; [exact Hk|reflexivity].
    - destruct He as [i [Hi ->]]. repeat split.
      rewrite gbmv_shiftx_form.
      destruct (shifted_index_in_vector x (dim_y bi) offsetx incx stridex
                  (x_length transA m n) i Hi) as [j [Hj E]].
      exists (dim_y bi), j. split; [lia|]. split; [exact Hj|exact E].
    - destruct He as [i [Hi ->]]. repeat split.
      rewrite gbmv_shifty_form.
      destruct (shifted_index_in_vector y (dim_y bi) offsety incy stridey
                  (output_length transA m n) i Hi) as [j [Hj E]].
      exists (dim_y bi), j. split; [lia|]. split; [exact Hj|exact E].
    - destruct He as [i [Hi ->]]. repeat split.
      rewrite gbmv_shifty_form.
      destruct (shifted_index_in_vector y (dim_y bi) offsety incy stridey
                  (output_length transA m n) i Hi) as [j [Hj E]].
      exists (dim_y bi), j. split; [lia|]. split; [exact Hj|exact E]. }
  destruct (pointer_mode handle); [destruct (_ && _); [apply emits_ret|]|];
    cbn [snd for_each]; (apply emits_bind; [apply Hl|intros _; apply emits_ret]).
Qed.

End CallBounds.


(** In a launch the launcher makes for an output of fewer than [2 ^ 31]
    elements the output index of every thread writing to the shared tile
    or to [y] is below [2 ^ 31]: the conversions the source applies to it
    ([uint32_t] arithmetic, stored in a [rocblas_int]) leave it as it
    is. *)
Lemma launcher_index_fits_int len bx tx :
  0 < len < 2 ^ 31 ->
  0 <= bx < dim_x (mk_dim3 (Z.quot (len - 1) GBMVX_DIM_X + 1) 1 1) ->
  0 <= tx < GBMVX_DIM_X ->
  0 <= bx * GBMVX_DIM_X + tx < 2 ^ 31
  /\ to_int32 (to_u32 (bx * GBMVX_DIM_X + tx)) = bx * GBMVX_DIM_X + tx.
Proof.
  intros Hlen Hbx Htx. cbn [mk_dim3 dim_x] in Hbx.
  destruct (blocks_cover len Hlen) as [Hblocks _]. rewrite Hblocks in Hbx.
  unfold GBMVX_DIM_X in *.
  pose proof (Z.div_mod (len - 1) 64 ltac:(lia)) as Hd.
  pose proof (Z.mod_pos_bound (len - 1) 64 ltac:(lia)) as Hr.
  assert (Hin : 0 <= bx * 64 + tx < 2 ^ 31) by lia.
  split; [exact Hin|].
  unfold to_int32, to_u32. rewrite (Z.mod_small (bx * 64 + tx)) by lia.
  rewrite Z.mod_small by lia. lia.
Qed.

(** X1. For sizes [0 <= m, n < 2 ^ 31], every read of [A] a call makes
    lies in the band storage of an instance of the batch: at most
    [lda * n] elements past the instance's base pointer, provided the
    storage has a row per diagonal ([kl + ku < lda]).  This holds for
    every bandwidth and increment, also for those the argument check of
    the API would reject.  The bound on the sizes keeps the grid within
    [2 ^ 25] blocks, where the output index of a thread fits its 32-bit
    variable. *)
Theorem gbmv_reads_A_within_storage `{Scalar} (memA memX : Z -> T)
    handle transA m n kl ku alpha A offseta lda strideA
    x offsetx incx stridex beta y offsety incy stridey batch_count :
  0 <= m < 2 ^ 31 -> 0 <= n < 2 ^ 31 ->
  kl + ku < lda -> 0 <= batch_count < 2 ^ 32 ->
  forall s, exists new,
    trace (snd (run_stream memA memX
                  (snd (rocblas_internal_gbmv_launcher handle transA m n kl ku alpha
                          A offseta lda strideA x offsetx incx stridex beta
                          y offsety incy stridey batch_count)) s))
    = new ++ trace s
    /\ forall a, In (Rd BufA a) new -> in_matrix A offseta strideA batch_count lda n a.
Proof.
  intros Hm Hn Hlda Hb s.
  destruct (gbmv_call_accesses memA memX handle transA m n kl ku alpha A offseta lda
              strideA x offsetx incx stridex beta y offsety incy stridey batch_count
              Hb s) as [new [E F]].
  exists new. split; [exact E|]. intros a Ha.
  rewrite Forall_forall in F. exact (proj1 (F _ Ha) Hlda).
Qed.

(** X2. For sizes [0 <= m, n < 2 ^ 31], every read of [x] a call makes
    lies in the footprint of the input vector of an instance of the
    batch: element [j * |incx|] past the instance's base pointer, for some
    [j] below the logical length of [x] ([n] for no-transpose, [m]
    otherwise).  With a negative increment the launcher's shift and the
    kernel's negative stride cancel. *)
Theorem gbmv_reads_x_within_vector `{Scalar} (memA memX : Z -> T)
    handle transA m n kl ku alpha A offseta lda strideA
    x offsetx incx stridex beta y offsety incy stridey batch_count :
  0 <= m < 2 ^ 31 -> 0 <= n < 2 ^ 31 ->
  0 <= batch_count < 2 ^ 32 ->
  forall s, exists new,
    trace (snd (run_stream memA memX
                  (snd (rocblas_internal_gbmv_launcher handle transA m n kl ku alpha
                          A offseta lda strideA x offsetx incx stridex beta
                          y offsety incy stridey batch_count)) s))
    = new ++ trace s
    /\ forall a, In (Rd BufX a) new ->
                 in_vector x offsetx stridex batch_count (x_length transA m n) incx a.
Proof.
  intros Hm Hn Hb s.
  destruct (gbmv_call_accesses memA memX handle transA m n kl ku alpha A offseta lda
              strideA x offsetx incx stridex beta y offsety incy stridey batch_count
              Hb s) as [new [E F]].
  exists new. split; [exact E|]. intros a Ha.
  rewrite Forall_forall in F. exact (proj1 (proj2 (F _ Ha))).
Qed.

(** X3. For sizes [0 <= m, n < 2 ^ 31], a call writes nowhere but into
    [y], and every access to [y], read or write, lies in the footprint of
    the output vector of an instance of the batch: element [j * |incy|]
    past the instance's base pointer, for some [j] below the logical
    output length. *)
Theorem gbmv_touches_only_output_vector `{Scalar} (memA memX : Z -> T)
    handle transA m n kl ku alpha A offseta lda strideA
    x offsetx incx stridex beta y offsety incy stridey batch_count :
  0 <= m < 2 ^ 31 -> 0 <= n < 2 ^ 31 ->
  0 <= batch_count < 2 ^ 32 ->
  forall s, exists new,
    trace (snd (run_stream memA memX
                  (snd (rocblas_internal_gbmv_launcher handle transA m n kl ku alpha
                          A offseta lda strideA x offsetx incx stridex beta
                          y offsety incy stridey batch_count)) s))
    = new ++ trace s
    /\ Forall (writes_y_within y offsety stridey batch_count
                 (output_length transA m n) incy) new.
Proof.
  intros Hm Hn Hb s.
  destruct (gbmv_call_accesses memA memX handle transA m n kl ku alpha A offseta lda
              strideA x offsetx incx stridex beta y offsety incy stridey batch_count
              Hb s) as [new [E F]].
  exists new. split; [exact E|].
  eapply Forall_impl; [|exact F]. intros e He. exact (proj2 (proj2 He)).
Qed.

Lemma gbmv_reads_A_within_storage_witness :
  exists new,
    trace (snd (@run_stream Z_scalar ex_A ex_ones
                  (snd (@rocblas_internal_gbmv_launcher Z_scalar ex_host
                          rocblas_operation_none 5 5 2 1 1 (Strided 0) 0 5 0
                          (Strided 0) 0 (-1) 0 0 (Strided 0) 0 (-1) 0 1)) ex_dirty))
    = new ++ trace ex_dirty
    /\ forall a, In (Rd BufA a) new -> in_matrix (Strided 0) 0 0 1 5 5 a.
Proof.
  apply (gbmv_reads_A_within_storage (H := Z_scalar) ex_A ex_ones ex_host
           rocblas_operation_none 5 5 2 1 1 (Strided 0) 0 5 0 (Strided 0) 0 (-1) 0
           0 (Strided 0) 0 (-1) 0 1
           ltac:(lia) ltac:(lia) ltac:(lia) ltac:(lia) ex_dirty).
Defined.

Lemma gbmv_reads_x_within_vector_witness :
  exists new,
    trace (snd (@run_stream Z_scalar ex_A ex_ones
                  (snd (@rocblas_internal_gbmv_launcher Z_scalar ex_host
                          rocblas_operation_transpose 5 5 2 1 1 (Strided 0) 0 5 0
                          (Strided 0) 0 (-1) 0 0 (Strided 0) 0 (-1) 0 1)) ex_dirty))
    = new ++ trace ex_dirty
    /\ forall a, In (Rd BufX a) new ->
                 in_vector (Strided 0) 0 0 1
                   (x_length rocblas_operation_transpose 5 5) (-1) a.
Proof.
  apply (gbmv_reads_x_within_vector (H := Z_scalar) ex_A ex_ones ex_host
           rocblas_operation_transpose 5 5 2 1 1 (Strided 0) 0 5 0 (Strided 0) 0 (-1) 0
           0 (Strided 0) 0 (-1) 0 1 ltac:(lia) ltac:(lia) ltac:(lia) ex_dirty).
Defined.

Lemma gbmv_touches_only_output_vector_witness :
  exists new,
    trace (snd (@run_stream Z_scalar ex_A ex_ones
                  (snd (@rocblas_internal_gbmv_launcher Z_scalar ex_device
                          rocblas_operation_none 5 5 2 1 1 (Strided 0) 0 5 0
                          (Strided 0) 0 1 0 2 (Strided 0) 0 (-2) 0 1)) ex_dirty))
    = new ++ trace ex_dirty
    /\ Forall (writes_y_within (Strided 0) 0 0 1
                 (output_length rocblas_operation_none 5 5) (-2)) new.
Proof.
  apply (gbmv_touches_only_output_vector (H := Z_scalar) ex_A ex_ones ex_device
           rocblas_operation_none 5 5 2 1 1 (Strided 0) 0 5 0 (Strided 0) 0 1 0
           2 (Strided 0) 0 (-2) 0 1 ltac:(lia) ltac:(lia) ltac:(lia) ex_dirty).
Defined.

(** ** Threads past the end of the output *)

Section TailThreads.
Context {S : Scalar}.
Variables memA memX : Z -> T.

Lemma fold_left_keep {X I} (l : list I) (a : X) : fold_left (fun r _ => r) l a = a.
Proof. induction l as [|i l IH]; simpl; [reflexivity|exact IH]. Qed.

Lemma gbmvn_guard_tail ind m kl ku col : m <= ind -> gbmvn_guard ind m kl ku col = false.
Proof.
  intros Hi. unfold gbmvn_guard. destruct (Z.ltb_spec ind m); [lia|reflexivity].
Qed.

Lemma gbmvt_guard_tail ind m n kl ku row : n <= ind -> gbmvt_guard ind m n kl ku row = false.
Proof.
  intros Hi. unfold gbmvt_guard. destruct (Z.ltb_spec ind n); [lia|reflexivity].
Qed.

Lemma tile_partial_tail DIM_Y transA ty ind m n kl ku A lda x incx :
  output_length transA m n <= ind ->
  tile_partial memA memX DIM_Y transA ty ind m n kl ku A lda x incx = zero.
Proof.
  unfold output_length, tile_partial, gbmvn_partial, gbmvt_partial. intros Hi.
  destruct (is_none transA).
  - rewrite (fold_left_ext_in _ (fun r _ => r)); [apply fold_left_keep|].
    intros r col _. rewrite gbmvn_guard_tail by exact Hi. reflexivity.
  - rewrite (fold_left_ext_in _ (fun r _ => r)); [apply fold_left_keep|].
    intros r row _. rewrite gbmvt_guard_tail by exact Hi. reflexivity.
Qed.

Lemma kernel_calc_tail_silent ph DIM_X DIM_Y blockDim blockIdx threadIdx
      transA m n kl ku alpha A lda x incx beta y incy :
  0 <= dim_y threadIdx -> 0 <= dim_x blockDim ->
  output_length transA m n <= dim_x blockIdx * DIM_X + dim_x threadIdx ->
  emits (fun _ => False)
    (rocblas_gbmvx_kernel_calc memA memX ph DIM_X DIM_Y blockDim blockIdx threadIdx
       transA m n kl ku alpha A lda x incx beta y incy).
Proof.
  intros Hty Hbd Hi. unfold rocblas_gbmvx_kernel_calc, output_length in *.
  destruct ph.
  - destruct (truthy alpha); [|apply emits_ret].
    apply emits_bind; [|intros r; apply emits_store_shared].
    destruct (is_none transA).
    + unfold rocblas_gbmvn_kernel_helper. apply emits_for_loop. intros col res_A.
      apply gbmvn_body_emits_guarded. intros G.
      rewrite gbmvn_guard_tail in G by exact Hi. discriminate.
    + apply gbmvt_helper_emits_range. intros row G.
      rewrite gbmvt_guard_tail in G by exact Hi. discriminate.
  - assert (E : (dim_x threadIdx + dim_y threadIdx * dim_x blockDim <? DIM_X)
                && (dim_x blockIdx * DIM_X
                    + (dim_x threadIdx + dim_y threadIdx * dim_x blockDim)
                    <? (if is_none transA then m else n)) = false).
    { apply andb_false_iff. right. apply Z.ltb_ge. nia. }
    rewrite E. apply emits_ret.
Qed.

Lemma kernel_calc_tail ph DIM_X DIM_Y blockDim blockIdx threadIdx
      transA m n kl ku alpha A lda x incx beta y incy s :
  0 <= dim_y threadIdx -> 0 <= dim_x blockDim ->
  output_length transA m n <= dim_x blockIdx * DIM_X + dim_x threadIdx ->
  exists sd,
    rocblas_gbmvx_kernel_calc memA memX ph DIM_X DIM_Y blockDim blockIdx threadIdx
      transA m n kl ku alpha A lda x incx beta y incy s
    = (tt, mkDev _ (ymem s) sd (trace s))
    /\ (sd = sdata s
        \/ sd = upd (sdata s) (dim_x threadIdx + dim_y threadIdx * DIM_X) zero).
Proof.
  intros Hty Hbd Hi.
  pose proof (emits_nothing _ s
                (kernel_calc_tail_silent ph DIM_X DIM_Y blockDim blockIdx threadIdx
                   transA m n kl ku alpha A lda x incx beta y incy Hty Hbd Hi)) as Htr.
  destruct ph.
  - destruct (truthy alpha) eqn:Ha.
    + destruct (kernel_calc_before_nonzero memA memX DIM_X DIM_Y blockDim blockIdx
                  threadIdx transA m n kl ku alpha A lda x incx beta y incy s Ha)
        as [tr E].
      rewrite E in Htr |- *. cbn [snd trace] in Htr. subst tr.
      rewrite tile_partial_tail by exact Hi.
      eexists. split; [reflexivity|]. right. reflexivity.
    + rewrite kernel_calc_before_zero by exact Ha.
      exists (sdata s). split; [rewrite dev_eta; reflexivity|]. left. reflexivity.
  - rewrite kernel_calc_after_idle.
    + exists (sdata s). split; [rewrite dev_eta; reflexivity|]. left. reflexivity.
    + unfold output_length in Hi. apply andb_false_iff. right. apply Z.ltb_ge. nia.
Qed.

End TailThreads.

(** X4. Take a thread of a block at least as wide as the tile (of
    positive dimensions), whose
    output index [blockIdx.x * DIM_X + threadIdx.x] and thread number
    [threadIdx.x + threadIdx.y * blockDim.x] fit their 32-bit variables
    (both below [2 ^ 31]).  If the output index is at or past the logical
    output length ([m] for no-transpose, [n] otherwise) the thread
    touches no device memory in either half of the kernel: it reads
    neither [A] nor [x], neither reads nor writes [y], and the most it
    does is to put a zero partial sum into its own slot of the shared
    tile.  The last block of a launch is padded with such threads. *)
Theorem gbmvx_kernel_tail_thread_touches_no_memory `{Scalar} (memA memX : Z -> T)
    ph DIM_X DIM_Y blockDim blockIdx threadIdx
    transA m n kl ku alphaa Aa shifta lda strideA xa shiftx incx stridex
    betaa ya shifty incy stridey s :
  0 < DIM_X <= dim_x blockDim -> 0 < DIM_Y ->
  0 <= dim_x blockIdx -> 0 <= dim_x threadIdx -> 0 <= dim_y threadIdx ->
  dim_x blockIdx * DIM_X + dim_x threadIdx < 2 ^ 31 ->
  dim_x threadIdx + dim_y threadIdx * dim_x blockDim < 2 ^ 31 ->
  output_length transA m n <= dim_x blockIdx * DIM_X + dim_x threadIdx ->
  exists sd,
    rocblas_gbmvx_kernel memA memX ph DIM_X DIM_Y blockDim blockIdx threadIdx
      transA m n kl ku alphaa Aa shifta lda strideA xa shiftx incx stridex
      betaa ya shifty incy stridey s
    = (tt, mkDev _ (ymem s) sd (trace s))
    /\ (sd = sdata s
        \/ sd = upd (sdata s) (dim_x threadIdx + dim_y threadIdx * DIM_X) zero).
Proof.
  intros HX HY Hbx Htx Hty Hind Htid Hi.
  assert (Hbd : 0 <= dim_x blockDim) by lia.
  assert (Hid : exists sd, (tt, s) = (tt, mkDev _ (ymem s) sd (trace s))
                           /\ (sd = sdata s
                               \/ sd = upd (sdata s)
                                         (dim_x threadIdx + dim_y threadIdx * DIM_X) zero)).
  { exists (sdata s). split; [rewrite dev_eta; reflexivity|left; reflexivity]. }
  destruct (Z.eq_dec (DIM_X * DIM_Y) (num_threads blockDim)) as [En|En].
  - destruct (negb (truthy alphaa) && eqb betaa one) eqn:He.
    + unfold rocblas_gbmvx_kernel, load_scalar. fold (num_threads blockDim).
      rewrite He. destruct (negb (DIM_X * DIM_Y =? num_threads blockDim)); exact Hid.
    + rewrite kernel_enters by assumption.
      apply kernel_calc_tail; assumption.
  - rewrite kernel_wrong_block by exact En. exact Hid.
Qed.

Lemma gbmvx_kernel_tail_thread_touches_no_memory_witness :
  exists sd,
    @rocblas_gbmvx_kernel Z_scalar ex_A ex_ones BeforeSync 64 16
      {| dim_x := 64; dim_y := 16; dim_z := 1 |}
      {| dim_x := 0; dim_y := 0; dim_z := 0 |}
      {| dim_x := 5; dim_y := 3; dim_z := 0 |}
      rocblas_operation_none 5 5 2 1 1 (Strided 0) 0 5 0 (Strided 0) 0 1 0
      0 (Strided 0) 0 1 0 ex_dirty
    = (tt, @mkDev Z_scalar (ymem ex_dirty) sd (trace ex_dirty))
    /\ (sd = sdata ex_dirty \/ sd = @upd Z_scalar (sdata ex_dirty) (5 + 3 * 64) 0).
Proof.
  apply (gbmvx_kernel_tail_thread_touches_no_memory (H := Z_scalar) ex_A ex_ones
           BeforeSync 64 16
           {| dim_x := 64; dim_y := 16; dim_z := 1 |}
           {| dim_x := 0; dim_y := 0; dim_z := 0 |}
           {| dim_x := 5; dim_y := 3; dim_z := 0 |}
           rocblas_operation_none 5 5 2 1 1 (Strided 0) 0 5 0 (Strided 0) 0 1 0
           0 (Strided 0) 0 1 0 ex_dirty); cbn; lia.
Defined.


(** ** The launcher *)

(** X5. The pointer mode of the handle has no bearing on what a call leaves
    on the device: the early return the launcher takes in host pointer
    mode (alpha zero and beta one) skips a launch whose every thread would
    have returned at once.  The status, the output, the shared tile and
    the trace of accesses are the same under any two handles. *)
Theorem gbmv_pointer_mode_is_immaterial `{Scalar} (memA memX : Z -> T)
    handle handle' transA m n kl ku alpha A offseta lda strideA
    x offsetx incx stridex beta y offsety incy stridey batch_count s :
  gbmv_run memA memX handle transA m n kl ku alpha A offseta lda strideA
    x offsetx incx stridex beta y offsety incy stridey batch_count s
  = gbmv_run memA memX handle' transA m n kl ku alpha A offseta lda strideA
      x offsetx incx stridex beta y offsety incy stridey batch_count s.
Proof.
  destruct (negb (truthy alpha) && eqb beta one) eqn:Hid.
  - rewrite !gbmv_run_identity by exact Hid. reflexivity.
  - unfold gbmv_run, rocblas_internal_gbmv_launcher. rewrite Hid.
    destruct ((m =? 0) || (n =? 0) || (batch_count =? 0)); [reflexivity|].
    destruct (pointer_mode handle), (pointer_mode handle'); reflexivity.
Qed.

(** X6. For sizes that fit a 32-bit integer the launcher always succeeds and
    puts at most one launch on the stream, and that launch has the right
    geometry: blocks of [GBMVX_DIM_X] by [GBMVX_DIM_Y] threads, the count
    the kernel insists on; one row of blocks per instance of the batch;
    enough blocks for every output index to belong to a thread, and no
    block without an output index. *)
Theorem gbmv_launcher_grid_covers_output `{Scalar}
    handle transA m n kl ku alpha A offseta lda strideA
    x offsetx incx stridex beta y offsety incy stridey batch_count :
  0 <= m < 2 ^ 31 -> 0 <= n < 2 ^ 31 -> 0 <= batch_count < 2 ^ 32 ->
  let r := rocblas_internal_gbmv_launcher handle transA m n kl ku alpha
             A offseta lda strideA x offsetx incx stridex beta
             y offsety incy stridey batch_count in
  fst r = rocblas_status_success
  /\ (length (snd r) <= 1)%nat
  /\ Forall (fun l => covers_output l (output_length transA m n) batch_count) (snd r).
Proof.
  intros Hm Hn Hb r. subst r. unfold rocblas_internal_gbmv_launcher.
  destruct (Z.eqb_spec m 0) as [|Hm0]; [cbn; auto|].
  destruct (Z.eqb_spec n 0) as [|Hn0]; [cbn; auto|].
  destruct (Z.eqb_spec batch_count 0) as [|Hb0]; [cbn; auto|]. cbn [orb].
  fold (output_length transA m n).
  assert (Hlen : 0 < output_length transA m n < 2 ^ 31)
    by (unfold output_length; destruct (is_none transA); lia).
  destruct (blocks_cover _ Hlen) as [Hblocks Hcover].
  set (len := output_length transA m n) in *.
  assert (Hl : forall k,
             covers_output
               (mkLaunch _ (mk_dim3 (Z.quot (len - 1) GBMVX_DIM_X + 1) batch_count 1)
                  (mk_dim3 GBMVX_DIM_X GBMVX_DIM_Y 1) k) len batch_count).
  { intros k. unfold covers_output. cbn [threads grid mk_dim3 dim_x dim_y].
    rewrite Hblocks. split; [reflexivity|]. split.
    - unfold to_u32. apply Z.mod_small. lia.
    - unfold GBMVX_DIM_X in *.
      pose proof (Z.div_mod (len - 1) 64 ltac:(lia)) as Hd.
      pose proof (Z.mod_pos_bound (len - 1) 64 ltac:(lia)) as Hr.
      split.
      + intros i Hi.
        pose proof (Z.div_mod i 64 ltac:(lia)) as Hdi.
        pose proof (Z.mod_pos_bound i 64 ltac:(lia)) as Hri.
        exists (i / 64), {| dim_x := i mod 64; dim_y := 0; dim_z := 0 |}.
        split.
        * split; [apply Z.div_pos; lia|].
          assert (i / 64 <= (len - 1) / 64) by (apply Z.div_le_mono; lia). lia.
        * split; [|split; [reflexivity|cbn [dim_x]; lia]].
          apply block_threads_In. cbn. lia.
      + intros bx Hbx. nia. }
  destruct (pointer_mode handle); [destruct (_ && _)|]; cbn [fst snd length];
    (split; [reflexivity|]); (split; [lia|]);
    try apply Forall_nil; (apply Forall_cons; [apply Hl|apply Forall_nil]).
Qed.

Lemma gbmv_launcher_grid_covers_output_witness :
  let r := @rocblas_internal_gbmv_launcher Z_scalar ex_host
             rocblas_operation_transpose 5 130 2 1 1 (Strided 0) 0 5 0
             (Strided 0) 0 1 0 0 (Strided 0) 0 1 0 3 in
  fst r = rocblas_status_success
  /\ (length (snd r) <= 1)%nat
  /\ Forall (fun l => covers_output l (output_length rocblas_operation_transpose 5 130) 3)
       (snd r).
Proof.
  apply (gbmv_launcher_grid_covers_output (H := Z_scalar) ex_host
           rocblas_operation_transpose 5 130 2 1 1 (Strided 0) 0 5 0
           (Strided 0) 0 1 0 0 (Strided 0) 0 1 0 3); lia.
Defined.


(** ** What an output element depends on *)

Section Dependence.
Context {S : Scalar}.
Variables memA memX memA' memX' : Z -> T.

Lemma tile_partial_same_inputs DIM_Y transA ty ind m n kl ku A lda x incx :
  0 <= DIM_Y -> 0 <= ty -> 0 <= ind ->
  same_instance_inputs memA memX memA' memX' transA m n kl ku A lda x incx ->
  tile_partial memA memX DIM_Y transA ty ind m n kl ku A lda x incx
  = tile_partial memA' memX' DIM_Y transA ty ind m n kl ku A lda x incx.
Proof.
  intros HY Hty Hind [HA Hx]. unfold tile_partial, x_length in *.
  destruct (is_none transA).
  - unfold gbmvn_partial. apply fold_left_ext_in. intros col res Hcol.
    apply (loop_indices_range DIM_Y n HY) in Hcol.
    destruct (gbmvn_guard ind m kl ku col) eqn:G; [|reflexivity].
    rewrite (HA _ _ (gbmvn_guard_band_cell _ _ _ _ _ G)) by lia.
    rewrite (Hx col) by lia. reflexivity.
  - unfold gbmvt_partial. apply fold_left_ext_in. intros row res Hrow.
    destruct (gbmvt_guard ind m n kl ku row) eqn:G; [|reflexivity].
    pose proof (gbmvt_guard_band_cell _ _ _ _ _ _ G) as Hc.
    assert (Hn : ind < n /\ 0 <= row - ku + ind < m).
    { revert G. unfold gbmvt_guard. cbv zeta. tests_to_props. lia. }
    rewrite (HA _ _ Hc) by lia.
    rewrite (Hx (row - ku + ind)) by lia. reflexivity.
Qed.

Lemma tile_value_same_inputs DIM_Y transA ind m n kl ku A lda x incx :
  0 <= DIM_Y -> 0 <= ind ->
  same_instance_inputs memA memX memA' memX' transA m n kl ku A lda x incx ->
  tile_value memA memX DIM_Y transA ind m n kl ku A lda x incx
  = tile_value memA' memX' DIM_Y transA ind m n kl ku A lda x incx.
Proof.
  intros HY Hind Hsame. unfold tile_value.
  rewrite (tile_partial_same_inputs DIM_Y transA 0) by (try assumption; lia).
  apply fold_left_ext_in. intros ty acc Hty.
  apply (loop_indices_range 1 DIM_Y ltac:(lia)) in Hty.
  rewrite (tile_partial_same_inputs DIM_Y transA ty) by (try assumption; lia).
  reflexivity.
Qed.

End Dependence.

(** X7. An element of the output depends on nothing but the operands of its
    own instance of the batch: the in-band cells of [A], the elements of
    [x] and the old contents of the element itself.  Two calls with the
    same arguments, on device memories that agree there and may differ
    anywhere else (other instances, cells of the band storage outside the
    band, the rest of [y], the shared tile, the pointer mode of the
    handle), leave the same value in it.  No law of arithmetic is used, so
    this holds for rounded arithmetic as well. *)
Theorem gbmv_output_depends_only_on_its_instance `{Scalar}
    (memA memX memA' memX' : Z -> T) handle handle'
    transA m n kl ku alpha A offseta lda strideA
    x offsetx incx stridex beta y offsety incy stridey batch_count s s' b i :
  0 < m < 2 ^ 31 -> 0 < n < 2 ^ 31 -> 0 < batch_count < 2 ^ 31 ->
  (forall b b' i i',
      0 <= b < batch_count -> 0 <= b' < batch_count ->
      0 <= i < output_length transA m n -> 0 <= i' < output_length transA m n ->
      y_address y (gbmv_shifty transA m n offsety incy) stridey incy b i
      = y_address y (gbmv_shifty transA m n offsety incy) stridey incy b' i' ->
      b = b' /\ i = i') ->
  0 <= b < batch_count -> 0 <= i < output_length transA m n ->
  same_instance_inputs memA memX memA' memX' transA m n kl ku
    (load_ptr_batch A b offseta strideA) lda
    (load_ptr_batch x b (gbmv_shiftx transA m n offsetx incx) stridex) incx ->
  ymem s (y_address y (gbmv_shifty transA m n offsety incy) stridey incy b i)
  = ymem s' (y_address y (gbmv_shifty transA m n offsety incy) stridey incy b i) ->
  ymem (snd (gbmv_run memA memX handle transA m n kl ku alpha A offseta lda strideA
               x offsetx incx stridex beta y offsety incy stridey batch_count s))
    (y_address y (gbmv_shifty transA m n offsety incy) stridey incy b i)
  = ymem (snd (gbmv_run memA' memX' handle' transA m n kl ku alpha A offseta lda
                 strideA x offsetx incx stridex beta y offsety incy stridey
                 batch_count s'))
      (y_address y (gbmv_shifty transA m n offsety incy) stridey incy b i).
Proof.
  intros Hm Hn Hbc Hinj Hb Hi Hsame Hy.
  destruct (negb (truthy alpha) && eqb beta one) eqn:Hid.
  - rewrite !gbmv_run_identity by exact Hid. exact Hy.
  - destruct (gbmv_run_cells memA memX handle transA m n kl ku alpha A offseta lda
                strideA x offsetx incx stridex beta y offsety incy stridey
                batch_count s Hm Hn Hbc Hid Hinj) as [_ [Hc _]].
    destruct (gbmv_run_cells memA' memX' handle' transA m n kl ku alpha A offseta lda
                strideA x offsetx incx stridex beta y offsety incy stridey
                batch_count s' Hm Hn Hbc Hid Hinj) as [_ [Hc' _]].
    rewrite (Hc b i Hb Hi), (Hc' b i Hb Hi), Hy. unfold cell_update.
    rewrite (tile_value_same_inputs memA memX memA' memX' GBMVX_DIM_Y transA i
               m n kl ku _ lda _ incx ltac:(unfold GBMVX_DIM_Y; lia) ltac:(lia) Hsame).
    reflexivity.
Qed.


Lemma gbmv_output_depends_only_on_its_instance_witness :
  ymem (snd (ex_call ex_host rocblas_operation_none 1 2 1 1 ex_dirty)) 2
  = ymem (snd (@gbmv_run Z_scalar ex_A_padded ex_ones ex_device rocblas_operation_none
                 5 5 2 1 1 (Strided 0) 0 5 0 (Strided 0) 0 1 0 2 (Strided 0) 0 1 0 1
                 ex_other)) 2.
Proof.
  change 2 with (y_address (Strided 0) (gbmv_shifty rocblas_operation_none 5 5 0 1)
                   0 1 0 2) at 2 5.
  apply (gbmv_output_depends_only_on_its_instance (H := Z_scalar)
           ex_A ex_ones ex_A_padded ex_ones ex_host ex_device rocblas_operation_none
           5 5 2 1 1 (Strided 0) 0 5 0 (Strided 0) 0 1 0 2 (Strided 0) 0 1 0 1
           ex_dirty ex_other 0 2 ltac:(lia) ltac:(lia) ltac:(lia) ex_cells_distinct
           ltac:(lia) ltac:(cbv [output_length is_none]; lia)).
  - split.
    + intros row col Hc Hcol. unfold ex_A_padded, band_cell, load_ptr_batch in *.
      destruct (Z.eqb_spec (0 + 0 * 0 + 0 + (row + col * 5)) 0); [lia|reflexivity].
    + intros j _. reflexivity.
  - reflexivity.
Defined.


(** ** Calls that amount to the same *)

Section SameCall.
Context {S : Scalar}.

Lemma for_loop_fuel_ext {X} (body body' : Z -> X -> K X) bound step :
  (forall i a s, body i a s = body' i a s) ->
  forall fuel i acc s,
    for_loop_fuel fuel i bound step body acc s
    = for_loop_fuel fuel i bound step body' acc s.
Proof.
  intros Hb. induction fuel as [|fuel IH]; intros i acc s; simpl; [reflexivity|].
  destruct (i <? bound); [|reflexivity].
  unfold bind. rewrite Hb. destruct (body' i acc s) as [acc' s']. apply IH.
Qed.

Lemma gbmvt_helper_real (memA memX : Z -> T) DIM_Y ty ind m n kl ku A lda x incx s :
  (forall a : T, conj a = a) ->
  rocblas_gbmvt_kernel_helper memA memX DIM_Y true ty ind m n kl ku A lda x incx s
  = rocblas_gbmvt_kernel_helper memA memX DIM_Y false ty ind m n kl ku A lda x incx s.
Proof.
  intros Hconj. unfold rocblas_gbmvt_kernel_helper, for_loop.
  apply for_loop_fuel_ext. intros row res_A s0. cbv zeta.
  destruct (ind <? n); [|reflexivity].
  destruct ((row <=? kl + ku) && (row >=? 0)); [|reflexivity].
  destruct ((row <=? ku) && (ind >=? ku - row) && (ind <? ku - row + m));
    [unfold bind, load, ret; rewrite Hconj; reflexivity|].
  destruct (((row >? ku) && (row <=? kl + ku)) && (ind <? m - (row - ku)));
    [unfold bind, load, ret; rewrite Hconj; reflexivity|reflexivity].
Qed.

(** Two calls whose kernels do the same, thread by thread, leave the same
    device. *)
Lemma gbmv_run_ext (memA memX : Z -> T) handle transA transA' m n kl ku alpha
      A A' offseta lda strideA x x' offsetx incx stridex beta
      y y' offsety incy stridey batch_count s :
  is_none transA' = is_none transA ->
  (forall ph bd bi t shiftx shifty s0,
      rocblas_gbmvx_kernel memA memX ph GBMVX_DIM_X GBMVX_DIM_Y bd bi t
        transA' m n kl ku alpha A' offseta lda strideA x' shiftx incx stridex beta
        y' shifty incy stridey s0
      = rocblas_gbmvx_kernel memA memX ph GBMVX_DIM_X GBMVX_DIM_Y bd bi t
          transA m n kl ku alpha A offseta lda strideA x shiftx incx stridex beta
          y shifty incy stridey s0) ->
  gbmv_run memA memX handle transA' m n kl ku alpha A' offseta lda strideA
    x' offsetx incx stridex beta y' offsety incy stridey batch_count s
  = gbmv_run memA memX handle transA m n kl ku alpha A offseta lda strideA
      x offsetx incx stridex beta y offsety incy stridey batch_count s.
Proof.
  intros Hn Hk. unfold gbmv_run, rocblas_internal_gbmv_launcher. rewrite Hn.
  destruct ((m =? 0) || (n =? 0) || (batch_count =? 0)); [reflexivity|].
  destruct (pointer_mode handle); [destruct (_ && _); [reflexivity|]|];
    rewrite !run_stream_one; apply f_equal; apply f_equal;
    (apply exec_launch_ext;
     [reflexivity|reflexivity|intros ph bi t s0; cbn [kern threads]; apply Hk]).
Qed.

End SameCall.

(** X8. For an element type whose conjugation is the identity (the real
    types), a conjugate-transpose call is a transpose call: both leave
    the same status, output, shared tile and trace of accesses. *)
Theorem gbmv_conjugate_transpose_of_real_is_transpose `{Scalar} (memA memX : Z -> T)
    handle m n kl ku alpha A offseta lda strideA
    x offsetx incx stridex beta y offsety incy stridey batch_count s :
  (forall a : T, conj a = a) ->
  gbmv_run memA memX handle rocblas_operation_conjugate_transpose m n kl ku alpha
    A offseta lda strideA x offsetx incx stridex beta y offsety incy stridey
    batch_count s
  = gbmv_run memA memX handle rocblas_operation_transpose m n kl ku alpha
      A offseta lda strideA x offsetx incx stridex beta y offsety incy stridey
      batch_count s.
Proof.
  intros Hconj. apply gbmv_run_ext; [reflexivity|].
  intros ph bd bi t shiftx shifty s0.
  unfold rocblas_gbmvx_kernel, load_scalar.
  destruct (negb (_ =? _)); [reflexivity|].
  destruct (_ && _); [reflexivity|].
  unfold rocblas_gbmvx_kernel_calc.
  destruct ph; [|reflexivity].
  destruct (truthy alpha); [|reflexivity].
  cbn [is_none is_conjugate_transpose]. unfold bind.
  rewrite gbmvt_helper_real by exact Hconj. reflexivity.
Qed.

Lemma gbmv_conjugate_transpose_of_real_is_transpose_witness :
  ex_call ex_device rocblas_operation_conjugate_transpose 1 2 1 1 ex_dirty
  = ex_call ex_device rocblas_operation_transpose 1 2 1 1 ex_dirty.
Proof.
  apply (gbmv_conjugate_transpose_of_real_is_transpose (H := Z_scalar) ex_A ex_ones
           ex_device 5 5 2 1 1 (Strided 0) 0 5 0 (Strided 0) 0 1 0 2 (Strided 0) 0 1 0 1
           ex_dirty).
  intros a. reflexivity.
Defined.

(** X9. The strided form of a batch and the array-of-pointers form are
    interchangeable: a call whose operands are given as arrays of
    pointers laid out at regular strides ([base + b * stride] for
    instance [b]) leaves the same device as the call given the base
    pointers and the strides. *)
Theorem gbmv_batched_layout_is_immaterial `{Scalar} (memA memX : Z -> T)
    handle transA m n kl ku alpha A offseta lda strideA
    x offsetx incx stridex beta y offsety incy stridey batch_count s :
  gbmv_run memA memX handle transA m n kl ku alpha
    (Batched (fun b => A + b * strideA)) offseta lda strideA
    (Batched (fun b => x + b * stridex)) offsetx incx stridex beta
    (Batched (fun b => y + b * stridey)) offsety incy stridey batch_count s
  = gbmv_run memA memX handle transA m n kl ku alpha
      (Strided A) offseta lda strideA (Strided x) offsetx incx stridex beta
      (Strided y) offsety incy stridey batch_count s.
Proof.
  apply gbmv_run_ext; [reflexivity|].
  intros ph bd bi t shiftx shifty s0.
  unfold rocblas_gbmvx_kernel, cond_load_ptr_batch, load_ptr_batch. reflexivity.
Qed.


(** ** The order of events in the asum entry point *)

Lemma rocblas_status_eqb_eq (a b : rocblas_status) :
  rocblas_status_eqb a b = true <-> a = b.
Proof.
  split; [destruct a, b; simpl; intros E; try reflexivity; discriminate E|].
  intros <-. destruct a; reflexivity.
Qed.

Section AsumOrder.
Variables rocblas_layer_mode_log_trace rocblas_layer_mode_log_bench
          rocblas_layer_mode_log_profile : Z.
Variable rocblas_reduction_kernel_workspace_size : Z -> Z -> Z.
Variable set_optimal_device_memory_size : rocblas_handle_t -> Z -> rocblas_status.
Variable rocblas_asum_nrm2_arg_check :
  rocblas_handle_t -> Z -> Z -> Z -> Z -> Z -> Z -> rocblas_status.
Variable device_malloc : rocblas_handle_t -> Z -> Z.
Variable has_nan_inf : vector_descriptor -> bool.
Variable rocblas_internal_asum_nrm2_launcher :
  rocblas_handle_t -> Z -> Z -> Z -> Z -> Z -> Z -> Z -> Z -> rocblas_status.

Local Abbreviation asum_impl :=
  (Asum.rocblas_asum_impl rocblas_layer_mode_log_trace rocblas_layer_mode_log_bench
     rocblas_layer_mode_log_profile rocblas_reduction_kernel_workspace_size
     set_optimal_device_memory_size rocblas_asum_nrm2_arg_check device_malloc
     has_nan_inf rocblas_internal_asum_nrm2_launcher).
Local Abbreviation logs_of handle x :=
  (Asum.asum_logs rocblas_layer_mode_log_trace rocblas_layer_mode_log_bench
     rocblas_layer_mode_log_profile (layer_mode handle) x).

Lemma asum_logs_no_launcher handle x a b c :
  ~ In (Asum.EvLauncher a b c) (logs_of handle x).
Proof.
  unfold Asum.asum_logs.
  destruct (negb (_ =? _)), (negb (_ =? _)), (negb (_ =? _)); simpl;
    intuition discriminate.
Qed.

Lemma asum_logs_no_malloc handle x b :
  ~ In (Asum.EvDeviceMalloc b) (logs_of handle x).
Proof.
  unfold Asum.asum_logs.
  destruct (negb (_ =? _)), (negb (_ =? _)), (negb (_ =? _)); simpl;
    intuition discriminate.
Qed.

(** X10. The kernel launcher of asum is reached only on a live handle outside
    the size-query mode, after the argument check has said to continue
    and the workspace allocation has succeeded.  It is the last call the
    entry point makes and it is made once; it receives the caller's [x]
    and [result] and the very workspace the allocation returned, sized
    for [n] and one batch; and its status is what the entry point
    returns. *)
Theorem asum_launch_follows_check_and_allocation :
  forall (handle : option rocblas_handle_t) (n x incx result x' w result' : Z),
    In (Asum.EvLauncher x' w result')
       (snd (Asum.run (asum_impl handle n x incx result))) ->
    exists h pre,
      handle = Some h
      /\ is_device_memory_size_query h = false
      /\ rocblas_asum_nrm2_arg_check h n x incx 0 1 result = rocblas_status_continue
      /\ w = device_malloc h (rocblas_reduction_kernel_workspace_size n 1)
      /\ w <> nullptr
      /\ x' = x /\ result' = result
      /\ snd (Asum.run (asum_impl handle n x incx result))
         = pre ++ [Asum.EvLauncher x w result]
      /\ (forall a b c, ~ In (Asum.EvLauncher a b c) pre)
      /\ In (Asum.EvArgCheck x result) pre
      /\ In (Asum.EvDeviceMalloc (rocblas_reduction_kernel_workspace_size n 1)) pre
      /\ fst (Asum.run (asum_impl handle n x incx result))
         = rocblas_internal_asum_nrm2_launcher h n x 0 incx 0 1 w result.
Proof.
  intros [h|] n x incx result x' w result'; [|simpl; tauto].
  destruct (is_device_memory_size_query h) eqn:Hq.
  - rewrite (asum_impl_query _ _ _ _ _ _ _ _ _ _ _ _ _ _ Hq).
    destruct ((n <=? 0) || (incx <=? 0)); simpl; [tauto|].
    intros [E|[]]; discriminate E.
  - rewrite (asum_impl_normal _ _ _ _ _ _ _ _ _ _ _ _ _ _ Hq). cbv zeta.
    destruct (rocblas_status_eqb
                (rocblas_asum_nrm2_arg_check h n x incx 0 1 result)
                rocblas_status_continue) eqn:Ea; cbn [negb].
    2:{ cbn [snd]. intros Hin. apply in_app_or in Hin as [Hin|[E|[]]].
        - destruct (asum_logs_no_launcher _ _ _ _ _ Hin).
        - discriminate E. }
    apply rocblas_status_eqb_eq in Ea.
    destruct (Z.eqb_spec (device_malloc h (rocblas_reduction_kernel_workspace_size n 1))
                nullptr) as [Ew|Ew].
    { cbn [snd]. intros Hin. apply in_app_or in Hin as [Hin|[E|[E|[]]]].
      - destruct (asum_logs_no_launcher _ _ _ _ _ Hin).
      - discriminate E.
      - discriminate E. }
    assert (Hpre : forall mid,
               (forall a b c, ~ In (Asum.EvLauncher a b c) mid) ->
               forall a b c,
                 ~ In (Asum.EvLauncher a b c)
                      (logs_of h x
                       ++ Asum.EvArgCheck x result
                          :: Asum.EvDeviceMalloc
                               (rocblas_reduction_kernel_workspace_size n 1) :: mid)).
    { intros mid Hmid a b c Hin. apply in_app_or in Hin as [Hin|[E|[E|Hin]]].
      - destruct (asum_logs_no_launcher _ _ _ _ _ Hin).
      - discriminate E.
      - discriminate E.
      - exact (Hmid _ _ _ Hin). }
    destruct (negb (check_numerics h =? 0)); [destruct (has_nan_inf _)|]; cbn [fst snd].
    + intros Hin. apply in_app_or in Hin as [Hin|[E|[E|[E|[]]]]];
        [destruct (asum_logs_no_launcher _ _ _ _ _ Hin)| | |]; discriminate E.
    + intros Hin.
      assert (E : Asum.EvLauncher x
                    (device_malloc h (rocblas_reduction_kernel_workspace_size n 1))
                    result = Asum.EvLauncher x' w result').
      { apply in_app_or in Hin as [Hin|Hin];
          [destruct (asum_logs_no_launcher _ _ _ _ _ Hin)|].
        apply in_app_or in Hin as [[E|[E|[E|[]]]]|[E|[]]];
          try discriminate E. exact E. }
      injection E as <- <- <-.
      exists h, (logs_of h x
                 ++ [Asum.EvArgCheck x result;
                     Asum.EvDeviceMalloc (rocblas_reduction_kernel_workspace_size n 1);
                     Asum.EvCheckNumerics
                       {| v_n := n; v_ptr := Strided x; v_offset := 0; v_inc := incx;
                          v_stride := 0; v_batch_count := 1 |}]).
      repeat split; try reflexivity; try assumption.
      * rewrite <- app_assoc. reflexivity.
      * apply Hpre. intros a b c [E|[]]. discriminate E.
      * apply in_or_app. right. left. reflexivity.
      * apply in_or_app. right. right. left. reflexivity.
    + intros Hin.
      assert (E : Asum.EvLauncher x
                    (device_malloc h (rocblas_reduction_kernel_workspace_size n 1))
                    result = Asum.EvLauncher x' w result').
      { apply in_app_or in Hin as [Hin|[E|[E|[E|[]]]]];
          [destruct (asum_logs_no_launcher _ _ _ _ _ Hin)| | |];
          try discriminate E. exact E. }
      injection E as <- <- <-.
      exists h, (logs_of h x
                 ++ [Asum.EvArgCheck x result;
                     Asum.EvDeviceMalloc (rocblas_reduction_kernel_workspace_size n 1)]).
      repeat split; try reflexivity; try assumption.
      * rewrite <- app_assoc. reflexivity.
      * apply Hpre. intros a b c [].
      * apply in_or_app. right. left. reflexivity.
      * apply in_or_app. right. right. left. reflexivity.
Qed.

(** X11. Failures end the call before anything further is done.  Without a
    handle nothing is called at all; when the argument check does not say
    to continue, its status is returned as it is and the check is the last
    call: there is no allocation, scan or launch; when the allocation of
    the workspace fails, the call returns the memory error and the
    allocation is the last call: there is no scan and no launch. *)
Theorem asum_failure_ends_the_call :
  forall (h : rocblas_handle_t) (n x incx result : Z),
    Asum.run (asum_impl None n x incx result) = (rocblas_status_invalid_handle, [])
    /\ (is_device_memory_size_query h = false ->
        rocblas_asum_nrm2_arg_check h n x incx 0 1 result <> rocblas_status_continue ->
        Asum.run (asum_impl (Some h) n x incx result)
        = (rocblas_asum_nrm2_arg_check h n x incx 0 1 result,
           logs_of h x ++ [Asum.EvArgCheck x result]))
    /\ (is_device_memory_size_query h = false ->
        rocblas_asum_nrm2_arg_check h n x incx 0 1 result = rocblas_status_continue ->
        device_malloc h (rocblas_reduction_kernel_workspace_size n 1) = nullptr ->
        Asum.run (asum_impl (Some h) n x incx result)
        = (rocblas_status_memory_error,
           logs_of h x
           ++ [Asum.EvArgCheck x result;
               Asum.EvDeviceMalloc (rocblas_reduction_kernel_workspace_size n 1)])).
Proof.
  intros h n x incx result. split; [reflexivity|]. split.
  - intros Hq Harg. rewrite (asum_impl_normal _ _ _ _ _ _ _ _ _ _ _ _ _ _ Hq). cbv zeta.
    destruct (rocblas_status_eqb _ rocblas_status_continue) eqn:Ea; [|reflexivity].
    apply rocblas_status_eqb_eq in Ea. contradiction.
  - intros Hq Harg Hw. rewrite (asum_impl_normal _ _ _ _ _ _ _ _ _ _ _ _ _ _ Hq).
    cbv zeta. rewrite Harg, Hw. reflexivity.
Qed.

(** X12. The workspace size a size query records is the size a real call
    allocates: if a call with [n] elements on a handle in size-query mode
    records [bytes], a call with the same [n] on an ordinary handle whose
    argument check says to continue asks the allocator for exactly
    [bytes], and for nothing else; neither depends on [x], [incx] or
    [result]. *)
Theorem asum_query_size_is_the_size_allocated :
  forall (hq h : rocblas_handle_t) (n xq incxq resultq x incx result bytes : Z),
    is_device_memory_size_query hq = true ->
    is_device_memory_size_query h = false ->
    In (Asum.EvSetOptimalDeviceMemorySize bytes)
       (snd (Asum.run (asum_impl (Some hq) n xq incxq resultq))) ->
    rocblas_asum_nrm2_arg_check h n x incx 0 1 result = rocblas_status_continue ->
    In (Asum.EvDeviceMalloc bytes)
       (snd (Asum.run (asum_impl (Some h) n x incx result)))
    /\ forall b,
         In (Asum.EvDeviceMalloc b)
            (snd (Asum.run (asum_impl (Some h) n x incx result))) ->
         b = bytes.
Proof.
  intros hq h n xq incxq resultq x incx result bytes Hq Hn Hin Harg.
  rewrite (asum_impl_query _ _ _ _ _ _ _ _ _ _ _ _ _ _ Hq) in Hin.
  assert (Eb : bytes = rocblas_reduction_kernel_workspace_size n 1).
  { destruct ((n <=? 0) || (incx <=? 0)), ((n <=? 0) || (incxq <=? 0));
      simpl in Hin; try tauto; destruct Hin as [E|[]]; injection E; auto. }
  subst bytes.
  rewrite (asum_impl_normal _ _ _ _ _ _ _ _ _ _ _ _ _ _ Hn). cbv zeta.
  rewrite Harg. cbn [rocblas_status_eqb negb].
  assert (Hone : forall b post,
             (forall e, In e post -> forall b', e <> Asum.EvDeviceMalloc b') ->
             In (Asum.EvDeviceMalloc b)
                (logs_of h x
                 ++ Asum.EvArgCheck x result
                    :: Asum.EvDeviceMalloc (rocblas_reduction_kernel_workspace_size n 1)
                    :: post) ->
             b = rocblas_reduction_kernel_workspace_size n 1).
  { intros b post Hpost Hb. apply in_app_or in Hb as [Hb|[E|[E|Hb]]].
    - destruct (asum_logs_no_malloc _ _ _ Hb).
    - discriminate E.
    - injection E; auto.
    - destruct (Hpost _ Hb b eq_refl). }
  destruct (_ =? nullptr); [|destruct (negb _); [destruct (has_nan_inf _)|]];
    cbn [snd]; (split; [apply in_or_app; right; right; left; reflexivity|]);
    intros b Hb.
  - apply (Hone b []); [intros e []|exact Hb].
  - apply (Hone b [Asum.EvCheckNumerics
                     {| v_n := n; v_ptr := Strided x; v_offset := 0; v_inc := incx;
                        v_stride := 0; v_batch_count := 1 |}]); [|exact Hb].
    intros e [<-|[]] b'. discriminate.
  - cbn [app] in Hb.
    apply (Hone b [Asum.EvCheckNumerics
                     {| v_n := n; v_ptr := Strided x; v_offset := 0; v_inc := incx;
                        v_stride := 0; v_batch_count := 1 |};
                   Asum.EvLauncher x
                     (device_malloc h (rocblas_reduction_kernel_workspace_size n 1))
                     result]); [|exact Hb].
    intros e [<-|[<-|[]]] b'; discriminate.
  - apply (Hone b [Asum.EvLauncher x
                     (device_malloc h (rocblas_reduction_kernel_workspace_size n 1))
                     result]); [|exact Hb].
    intros e [<-|[]] b'. discriminate.
Qed.

End AsumOrder.


Lemma asum_launch_follows_check_and_allocation_witness :
  exists pre,
    snd (ex_asum (fun _ => false) ex_checked 3 100 1 200)
    = pre ++ [Asum.EvLauncher 100 4096 200]
    /\ In (Asum.EvDeviceMalloc 12) pre
    /\ fst (ex_asum (fun _ => false) ex_checked 3 100 1 200) = rocblas_status_success.
Proof.
  destruct (asum_launch_follows_check_and_allocation 1 2 4
              (fun n batch_count => 4 * n * batch_count)
              (fun _ _ => rocblas_status_size_increased)
              (fun _ n x incx _ _ result =>
                 if (x =? nullptr) || (result =? nullptr)
                 then rocblas_status_invalid_pointer else rocblas_status_continue)
              (fun _ bytes => 4096)
              (fun _ => false)
              (fun _ _ _ _ _ _ _ _ _ => rocblas_status_success)
              (Some ex_checked) 3 100 1 200 100 4096 200) as [h [pre Hp]].
  - cbv. do 4 right. left. reflexivity.
  - destruct Hp as (_ & _ & _ & _ & _ & _ & _ & E & _ & _ & Hm & Hst).
    exists pre. split; [exact E|]. split; [exact Hm|exact Hst].
Defined.

Lemma asum_failure_ends_the_call_witness :
  ex_asum (fun _ => false) ex_checked 3 0 1 200
  = (rocblas_status_invalid_pointer, [Asum.EvLogTrace 0; Asum.EvArgCheck 0 200])
  /\ Asum.run
       (Asum.rocblas_asum_impl 1 2 4
          (fun n batch_count => 4 * n * batch_count)
          (fun _ _ => rocblas_status_size_increased)
          (fun _ n x incx _ _ result =>
             if (x =? nullptr) || (result =? nullptr)
             then rocblas_status_invalid_pointer else rocblas_status_continue)
          (fun _ bytes => nullptr)
          (fun _ => false)
          (fun _ _ _ _ _ _ _ _ _ => rocblas_status_success)
          (Some ex_checked) 3 100 1 200)
     = (rocblas_status_memory_error,
        [Asum.EvLogTrace 100; Asum.EvArgCheck 100 200; Asum.EvDeviceMalloc 12]).
Proof.
  split.
  - apply (proj1 (proj2 (asum_failure_ends_the_call 1 2 4
                           (fun n batch_count => 4 * n * batch_count)
                           (fun _ _ => rocblas_status_size_increased)
                           (fun _ n x incx _ _ result =>
                              if (x =? nullptr) || (result =? nullptr)
                              then rocblas_status_invalid_pointer
                              else rocblas_status_continue)
                           (fun _ bytes => 4096)
                           (fun _ => false)
                           (fun _ _ _ _ _ _ _ _ _ => rocblas_status_success)
                           ex_checked 3 0 1 200))).
    + reflexivity.
    + cbv. discriminate.
  - apply (proj2 (proj2 (asum_failure_ends_the_call 1 2 4
                           (fun n batch_count => 4 * n * batch_count)
                           (fun _ _ => rocblas_status_size_increased)
                           (fun _ n x incx _ _ result =>
                              if (x =? nullptr) || (result =? nullptr)
                              then rocblas_status_invalid_pointer
                              else rocblas_status_continue)
                           (fun _ bytes => nullptr)
                           (fun _ => false)
                           (fun _ _ _ _ _ _ _ _ _ => rocblas_status_success)
                           ex_checked 3 100 1 200))); reflexivity.
Defined.

Lemma asum_query_size_is_the_size_allocated_witness :
  In (Asum.EvDeviceMalloc 12) (snd (ex_asum (fun _ => false) ex_checked 3 100 1 200))
  /\ forall b,
       In (Asum.EvDeviceMalloc b) (snd (ex_asum (fun _ => false) ex_checked 3 100 1 200)) ->
       b = 12.
Proof.
  apply (asum_query_size_is_the_size_allocated 1 2 4
           (fun n batch_count => 4 * n * batch_count)
           (fun _ _ => rocblas_status_size_increased)
           (fun _ n x incx _ _ result =>
              if (x =? nullptr) || (result =? nullptr)
              then rocblas_status_invalid_pointer else rocblas_status_continue)
           (fun _ bytes => 4096)
           (fun _ => false)
           (fun _ _ _ _ _ _ _ _ _ => rocblas_status_success)
           ex_query ex_checked 3 0 1 0 100 1 200 12 eq_refl eq_refl).
  - cbv. left. reflexivity.
  - reflexivity.
Defined.


(** ** The hbmv test suites *)

(** X13. A suite accepts a function name exactly when the dispatcher runs a
    routine written for that suite under this name.  So every test a
    suite lets through reaches a routine, none ends in the
    unknown-function failure, and no name belongs to two suites. *)
Theorem hbmv_filter_agrees_with_dispatch :
  forall (t : Hbmv.hbmv_test_type) (arg : Hbmv.Arguments),
    Hbmv.function_filter t arg = true
    <-> Hbmv.suite_of (Hbmv.hbmv_testing arg) = Some t.
Proof.
  intros t arg. unfold Hbmv.function_filter, Hbmv.hbmv_testing, Hbmv.not_strcmp.
  generalize (Hbmv.function arg). intros f.
  repeat match goal with
         | |- context [String.eqb f ?lit] =>
             destruct (String.eqb_spec f lit) as [->|?];
               [destruct t; cbn; split; intros E; try reflexivity; discriminate E|]
         end.
  destruct t; cbn; split; intros E; discriminate E.
Qed.

(** X14. The name of a test of the strided-batched suite says nothing about
    the batch count, and neither does the name of a plain test: the test
    [HBMV_TYPE == !HBMV] under which the count is appended holds for the
    batched suite alone, where the name determines the count. *)
Theorem hbmv_name_has_batch_count_for_batched_only :
  forall (rocblas_datatype2string : Z -> String.string) (c_API_64 c_API_FORTRAN : Z)
         (arg : Hbmv.Arguments) (b : Z),
    Hbmv.name_suffix rocblas_datatype2string c_API_64 c_API_FORTRAN
      Hbmv.HBMV_STRIDED_BATCHED (Hbmv.with_batch_count arg b)
    = Hbmv.name_suffix rocblas_datatype2string c_API_64 c_API_FORTRAN
        Hbmv.HBMV_STRIDED_BATCHED arg
    /\ Hbmv.name_suffix rocblas_datatype2string c_API_64 c_API_FORTRAN
         Hbmv.HBMV (Hbmv.with_batch_count arg b)
       = Hbmv.name_suffix rocblas_datatype2string c_API_64 c_API_FORTRAN
           Hbmv.HBMV arg
    /\ (Hbmv.name_suffix rocblas_datatype2string c_API_64 c_API_FORTRAN
          Hbmv.HBMV_BATCHED (Hbmv.with_batch_count arg b)
        = Hbmv.name_suffix rocblas_datatype2string c_API_64 c_API_FORTRAN
            Hbmv.HBMV_BATCHED arg
        <-> b = Hbmv.batch_count arg).
Proof.
  intros d2s c64 cF arg b. split; [reflexivity|]. split; [reflexivity|]. split.
  - unfold Hbmv.name_suffix, Hbmv.with_batch_count. cbn.
    destruct (negb (Z.land (Hbmv.api arg) c64 =? 0)),
             (negb (Z.land (Hbmv.api arg) cF =? 0));
      cbn; intros E; injection E; auto.
  - intros ->. destruct arg; reflexivity.
Qed.

(** ** The timing section of the asum test *)

Lemma timing_loop_tail fuel iter total_calls number_cold_calls st :
  number_cold_calls < iter -> iter <= total_calls ->
  (Z.to_nat (total_calls - iter) <= fuel)%nat ->
  TestingAsum.timing_loop fuel iter total_calls number_cold_calls st
  = {| TestingAsum.gpu_time_assigned := TestingAsum.gpu_time_assigned st;
       TestingAsum.calls :=
         TestingAsum.calls st
         ++ repeat TestingAsum.Dispatch (Z.to_nat (total_calls - iter)) |}.
Proof.
  revert iter st. induction fuel as [|fuel IH]; intros iter st Hc Hi Hf.
  - simpl. replace (Z.to_nat (total_calls - iter)) with 0%nat by lia.
    simpl. rewrite app_nil_r. destruct st; reflexivity.
  - simpl. destruct (Z.ltb_spec iter total_calls) as [Hlt|Hge].
    + destruct (Z.eqb_spec iter number_cold_calls); [lia|].
      rewrite IH by lia. cbn [TestingAsum.gpu_time_assigned TestingAsum.calls].
      replace (Z.to_nat (total_calls - iter))
        with (S (Z.to_nat (total_calls - (iter + 1)))) by lia.
      cbn [repeat]. rewrite <- app_assoc. reflexivity.
    + replace (Z.to_nat (total_calls - iter)) with 0%nat by lia.
      simpl. rewrite app_nil_r. destruct st; reflexivity.
Qed.

Lemma timing_loop_cold fuel iter total_calls number_cold_calls st :
  iter <= number_cold_calls -> number_cold_calls < total_calls ->
  (Z.to_nat (total_calls - iter) <= fuel)%nat ->
  TestingAsum.timing_loop fuel iter total_calls number_cold_calls st
  = {| TestingAsum.gpu_time_assigned := true;
       TestingAsum.calls :=
         TestingAsum.calls st
         ++ repeat TestingAsum.Dispatch (Z.to_nat (number_cold_calls - iter))
         ++ [TestingAsum.TimeSync]
         ++ repeat TestingAsum.Dispatch (Z.to_nat (total_calls - number_cold_calls)) |}.
Proof.
  revert iter st. induction fuel as [|fuel IH]; intros iter st Hc Hi Hf; [lia|].
  simpl. destruct (Z.ltb_spec iter total_calls) as [Hlt|Hge]; [|lia].
  destruct (Z.eqb_spec iter number_cold_calls) as [->|Hne].
  - rewrite timing_loop_tail by lia.
    cbn [TestingAsum.gpu_time_assigned TestingAsum.calls].
    rewrite Z.sub_diag. cbn [Z.to_nat repeat app].
    replace (Z.to_nat (total_calls - number_cold_calls))
      with (S (Z.to_nat (total_calls - (number_cold_calls + 1)))) by lia.
    cbn [repeat]. rewrite <- !app_assoc. reflexivity.
  - rewrite IH by lia. cbn [TestingAsum.gpu_time_assigned TestingAsum.calls].
    replace (Z.to_nat (number_cold_calls - iter))
      with (S (Z.to_nat (number_cold_calls - (iter + 1)))) by lia.
    cbn [repeat]. rewrite <- !app_assoc. reflexivity.
Qed.

Lemma timing_loop_all_cold fuel iter total_calls number_cold_calls st :
  total_calls <= number_cold_calls ->
  (Z.to_nat (total_calls - iter) <= fuel)%nat ->
  TestingAsum.timing_loop fuel iter total_calls number_cold_calls st
  = {| TestingAsum.gpu_time_assigned := TestingAsum.gpu_time_assigned st;
       TestingAsum.calls :=
         TestingAsum.calls st
         ++ repeat TestingAsum.Dispatch (Z.to_nat (total_calls - iter)) |}.
Proof.
  revert iter st. induction fuel as [|fuel IH]; intros iter st Hc Hf.
  - simpl. replace (Z.to_nat (total_calls - iter)) with 0%nat by lia.
    simpl. rewrite app_nil_r. destruct st; reflexivity.
  - simpl. destruct (Z.ltb_spec iter total_calls) as [Hlt|Hge].
    + destruct (Z.eqb_spec iter number_cold_calls); [lia|].
      rewrite IH by lia. cbn [TestingAsum.gpu_time_assigned TestingAsum.calls].
      replace (Z.to_nat (total_calls - iter))
        with (S (Z.to_nat (total_calls - (iter + 1)))) by lia.
      cbn [repeat]. rewrite <- app_assoc. reflexivity.
    + replace (Z.to_nat (total_calls - iter)) with 0%nat by lia.
      simpl. rewrite app_nil_r. destruct st; reflexivity.
Qed.

(** X15. With [cold_iters] warm-up calls and at least one timed call, the
    timing section dispatches the function [cold_iters] times, reads the
    clock, dispatches it [iters] more times and reads the clock again: the
    elapsed time covers the [iters] timed calls and none of the warm-up
    calls. *)
Theorem asum_timing_covers_the_timed_calls :
  forall cold_iters iters : Z,
    0 <= cold_iters -> 0 < iters -> cold_iters + iters < 2 ^ 31 ->
    TestingAsum.testing_asum_strided_batched_timing cold_iters iters
    = {| TestingAsum.gpu_time_assigned := true;
         TestingAsum.calls :=
           repeat TestingAsum.Dispatch (Z.to_nat cold_iters)
           ++ [TestingAsum.TimeSync]
           ++ repeat TestingAsum.Dispatch (Z.to_nat iters)
           ++ [TestingAsum.TimeSync] |}.
Proof.
  intros cold_iters iters Hc Hi Hlt.
  unfold TestingAsum.testing_asum_strided_batched_timing.
  assert (E : to_int32 (cold_iters + iters) = cold_iters + iters).
  { unfold to_int32. rewrite Z.mod_small by lia. lia. }
  rewrite E, timing_loop_cold by lia.
  cbn [TestingAsum.gpu_time_assigned TestingAsum.calls app].
  rewrite Z.sub_0_r. replace (cold_iters + iters - cold_iters) with iters by lia.
  rewrite <- !app_assoc. reflexivity.
Qed.

(** X16. With no timed call ([iters <= 0]) the clock is never read inside the
    loop: the warm-up calls, if any, are still dispatched, and the elapsed
    time is then computed from a [gpu_time_used] that was never
    assigned. *)
Theorem asum_timing_without_timed_calls_reads_unset_start :
  forall cold_iters iters : Z,
    iters <= 0 -> - 2 ^ 31 <= cold_iters + iters < 2 ^ 31 ->
    TestingAsum.testing_asum_strided_batched_timing cold_iters iters
    = {| TestingAsum.gpu_time_assigned := false;
         TestingAsum.calls :=
           repeat TestingAsum.Dispatch (Z.to_nat (cold_iters + iters))
           ++ [TestingAsum.TimeSync] |}.
Proof.
  intros cold_iters iters Hi Hr.
  unfold TestingAsum.testing_asum_strided_batched_timing.
  assert (E : to_int32 (cold_iters + iters) = cold_iters + iters).
  { unfold to_int32. rewrite Z.mod_small by lia. lia. }
  rewrite E, timing_loop_all_cold by lia.
  cbn [TestingAsum.gpu_time_assigned TestingAsum.calls app].
  rewrite Z.sub_0_r. reflexivity.
Qed.

Lemma asum_timing_covers_the_timed_calls_witness :
  TestingAsum.testing_asum_strided_batched_timing 2 3
  = {| TestingAsum.gpu_time_assigned := true;
       TestingAsum.calls :=
         [TestingAsum.Dispatch; TestingAsum.Dispatch; TestingAsum.TimeSync;
          TestingAsum.Dispatch; TestingAsum.Dispatch; TestingAsum.Dispatch;
          TestingAsum.TimeSync] |}.
Proof.
  apply (asum_timing_covers_the_timed_calls 2 3); lia.
Defined.

Lemma asum_timing_without_timed_calls_reads_unset_start_witness :
  TestingAsum.testing_asum_strided_batched_timing 2 0
  = {| TestingAsum.gpu_time_assigned := false;
       TestingAsum.calls :=
         [TestingAsum.Dispatch; TestingAsum.Dispatch; TestingAsum.TimeSync] |}.
Proof.
  apply (asum_timing_without_timed_calls_reads_unset_start 2 0); lia.
Defined.
